(** * IGA-saveload: the tagged-block container codec, the geometry model,
      the deduplicating builder and the validator.

    The development follows the C++ sources:
    - [IGACommon.h], [IGACommon.cpp]  : [INVALID_INDEX], [IGA_MAX_ALLOC], [tagValue];
    - [IGAData.h], [IGAData.cpp]      : the structs, the accessors, [isValid];
    - [IGACreator.h], [IGACreator.cpp]: the builder and its lookup tables;
    - [IGAWriter.cpp], [IGAReader.cpp]: the block writer and reader.

    Conventions.  A [uint32_t], [uint64_t] or [size_t] is a [Z] with its
    wrap-around written out; a [double] is its IEEE-754 binary64 bit pattern
    (a [Z] below [2^64]); a byte or a [char] is a [Byte.byte]; a
    [std::vector] is a [list]; all multi-byte values are laid out little
    endian, as the format document requires. *)

From Stdlib Require Import String.
From Stdlib Require Import ZArith List Bool Lia.
From coqutil Require Import Byte Word.LittleEndianList.
Import ListNotations.
Local Open Scope Z_scope.

(** ** Machine integers *)

Definition wrap32 (z : Z) : Z := z mod 2 ^ 32.
Definition wrap64 (z : Z) : Z := z mod 2 ^ 64.

(** [int] arithmetic: the value is reduced to the signed 32-bit range
    (two's complement), which is what the targeted compilers produce. *)
Definition wrap_int (z : Z) : Z := (z + 2 ^ 31) mod 2 ^ 32 - 2 ^ 31.

Definition is_u32 (z : Z) : Prop := 0 <= z < 2 ^ 32.
Definition is_u64 (z : Z) : Prop := 0 <= z < 2 ^ 64.

(** [const uint32_t INVALID_INDEX = 0xFFFFFFFF;] *)
Definition INVALID_INDEX : Z := 0xFFFFFFFF.

(** [#define IGA_MAX_ALLOC 256000000] *)
Definition IGA_MAX_ALLOC : Z := 256000000.

(** [vec.size()] as a [size_t]. *)
Definition size {A} (v : list A) : Z := Z.of_nat (length v).

(** ** TagCodec: [tagValue] (IGACommon.cpp) *)

Module Tag.

Definition nul : byte := Byte.x00.
Definition hyphen : byte := Byte.x2d.
Definition newline : byte := Byte.x0a.

(** [*t = b] for [t] pointing [i] bytes into the 8 bytes of [result]. *)
Definition store (buf : list byte) (i : nat) (b : byte) : list byte :=
  firstn i buf ++ b :: skipn (S i) buf.

(** [while( *c && char_count < 8 ) { *( t++ ) = *( c++ ); ++char_count; }]
    The list [c] is the text from the read pointer on; its end stands for
    the terminating zero. *)
Fixpoint copy_loop (c : list byte) (buf : list byte) (t char_count : nat)
  : list byte * nat * nat :=
  match c with
  | ch :: c' =>
      if negb (Byte.eqb ch nul) && (char_count <? 8)%nat
      then copy_loop c' (store buf t ch) (S t) (S char_count)
      else (buf, t, char_count)
  | [] => (buf, t, char_count)
  end.

(** [while( char_count < 8 ) { if( char_count == 7 ) *t = '\n';
     else *( t++ ) = '-'; ++char_count; }]
    The count grows at every turn, so the loop makes at most eight turns:
    [fuel] bounds them and is 8 where the loop is run. *)
Fixpoint pad_loop (fuel : nat) (buf : list byte) (t char_count : nat) : list byte :=
  match fuel with
  | O => buf
  | S fuel' =>
      if (char_count <? 8)%nat then
        if (char_count =? 7)%nat
        then pad_loop fuel' (store buf t newline) t (S char_count)
        else pad_loop fuel' (store buf t hyphen) (S t) (S char_count)
      else buf
  end.

(** The 8 bytes of [result] when [tagValue] returns. *)
Definition tagBytes (tag_text : list byte) : list byte :=
  let '(buf, t, char_count) := copy_loop tag_text (repeat nul 8) 0 0 in
  pad_loop 8 buf t char_count.

(** [uint64_t tagValue( const char *tag_text )] *)
Definition tagValue (tag_text : list byte) : Z := le_combine (tagBytes tag_text).

(** A character other than the terminating zero. *)
Definition nonnul (b : byte) : Prop := b <> nul.

(** The mnemonics of the sources, as C strings. *)
Definition text (s : string) : list byte := list_byte_of_string s.

(** ["\nBLOCK:\n"] *)
Definition BLOCK_text : list byte := newline :: text "BLOCK:" ++ [newline].

End Tag.

Export Tag.

(** ** [double]: IEEE-754 binary64 values as bit patterns *)

Module Double.

Definition double : Type := Z.

Definition sign_bit (d : double) : bool := Z.testbit d 63.
Definition exponent (d : double) : Z := Z.land (Z.shiftr d 52) 0x7FF.
Definition fraction (d : double) : Z := Z.land d 0xFFFFFFFFFFFFF.
Definition magnitude (d : double) : Z := Z.land d 0x7FFFFFFFFFFFFFFF.

Definition isnan (d : double) : bool := (exponent d =? 0x7FF) && negb (fraction d =? 0).

(** [finite( x )] of IGACommon.h: [std::isfinite], neither an infinity
    nor a NaN. *)
Definition finite (d : double) : bool := negb (exponent d =? 0x7FF).

(** The place of a value that is not a NaN on the extended real line:
    binary64 is sign and magnitude, and both zeros are the same point. *)
Definition position (d : double) : Z :=
  if sign_bit d then - magnitude d else magnitude d.

(** [a < b] on doubles: false as soon as one side is a NaN. *)
Definition lt (a b : double) : bool :=
  negb (isnan a) && negb (isnan b) && (position a <? position b).

(** [a >= b] on doubles: false as soon as one side is a NaN. *)
Definition ge (a b : double) : bool :=
  negb (isnan a) && negb (isnan b) && (position b <=? position a).

Definition zero : double := 0.
(** [1.0] *)
Definition one : double := 0x3FF0000000000000.
(** [-0.0] *)
Definition minus_zero : double := 0x8000000000000000.
(** a quiet NaN *)
Definition nan : double := 0x7FF8000000000000.

End Double.

Export Double.

Definition uint32_t : Type := Z.

(** [using CoeffVector = std::vector< double >;] *)
Definition CoeffVector : Type := list double.

(** ** The structs of IGAData.h *)

(** [struct Point3d { double x = 0, y = 0, z = 0, w = 0; };] *)
Record Point3d : Type := mkPoint3d { pt_x : double; pt_y : double; pt_z : double; pt_w : double }.

(** [struct Piece2D { uint32_t st_order, s_index, maybe_t_index, pt_index; };] *)
Record Piece2D : Type := mkPiece2D {
  st_order : uint32_t;
  s_index : uint32_t;
  maybe_t_index : uint32_t;
  pt_index : uint32_t
}.

(** [struct FaceLayout { uint32_t side_range[ 5 ] = { 0, 1, 2, 3, 4 }; };]
    The five cells of the array are the five fields. *)
Record FaceLayout : Type := mkFaceLayout {
  side_range_0 : uint32_t;
  side_range_1 : uint32_t;
  side_range_2 : uint32_t;
  side_range_3 : uint32_t;
  side_range_4 : uint32_t
}.

Definition side_range_list (l : FaceLayout) : list uint32_t :=
  [side_range_0 l; side_range_1 l; side_range_2 l; side_range_3 l; side_range_4 l].

(** [FaceLayout()], the default member initialiser. *)
Definition default_layout : FaceLayout := mkFaceLayout 0 1 2 3 4.

(** [struct Elem { uint32_t piece_end_index, layout_index, edge_end_index; };] *)
Record Elem : Type := mkElem {
  piece_end_index : uint32_t;
  layout_index : uint32_t;
  edge_end_index : uint32_t
}.

(** ** Ordered containers: [std::lexicographical_compare], [std::set], [std::map]

    A [std::set< K >] or [std::map< K, V >] is the list of its entries; two
    keys are the same entry when neither is less than the other, which is
    how the standard containers identify keys. *)

Section Ordered.
Context {K V : Type} (less : K -> K -> bool).

(** [std::lexicographical_compare( a.begin(), a.end(), b.begin(), b.end() )] *)
Fixpoint lexicographical_compare (a b : list K) : bool :=
  match a, b with
  | _, [] => false
  | [], _ :: _ => true
  | x :: a', y :: b' =>
      if less x y then true
      else if less y x then false
      else lexicographical_compare a' b'
  end.

Definition equivalent (a b : K) : bool := negb (less a b) && negb (less b a).

(** [s.insert( k )] *)
Definition set_insert (k : K) (s : list K) : list K :=
  if existsb (equivalent k) s then s else s ++ [k].

(** [m.find( k )]: the mapped value when [iter != m.end()]. *)
Fixpoint map_find (k : K) (m : list (K * V)) : option V :=
  match m with
  | [] => None
  | (k', v) :: m' => if equivalent k k' then Some v else map_find k m'
  end.

(** [m[ k ] = v] *)
Fixpoint map_assign (k : K) (v : V) (m : list (K * V)) : list (K * V) :=
  match m with
  | [] => [(k, v)]
  | (k', v') :: m' =>
      if equivalent k k' then (k', v) :: m' else (k', v') :: map_assign k v m'
  end.
End Ordered.

(** [bool FaceLayout::operator<( const FaceLayout &rhs ) const] *)
Definition FaceLayout_lt (lhs rhs : FaceLayout) : bool :=
  lexicographical_compare Z.ltb (side_range_list lhs) (side_range_list rhs).

(** [bool CoeffVectorLessThan::operator()( const CoeffVector &a, const CoeffVector &b ) const] *)
Definition CoeffVectorLessThan (a b : CoeffVector) : bool :=
  lexicographical_compare Double.lt a b.

(** ** [class IGAData] *)

Record IGAData : Type := mkIGAData {
  mSrfType : list byte;
  mCoeffs : list double;
  mPoints : list Point3d;
  mPieces : list Piece2D;
  mEdges : list uint32_t;
  mIntervals : list double;
  mLayouts : list FaceLayout;
  mElems : list Elem
}.

(** [IGAData()]: the surface type is ["unknown"], every vector is empty. *)
Definition IGAData_default : IGAData :=
  mkIGAData (text "unknown") [] [] [] [] [] [] [].

(** [void IGAData::clear()] : [*this = IGAData();] *)
Definition clear (_ : IGAData) : IGAData := IGAData_default.

(** [vec[ i ]]: [None] stands for the out-of-range access, which the
    sources leave undefined. *)
Definition at_index {A} (vec : list A) (i : Z) : option A :=
  if i <? 0 then None else nth_error vec (Z.to_nat i).

Module Accessors.

(** [uint32_t IGAData::edgeBegin( uint32_t elem_index ) const] *)
Definition edgeBegin (g : IGAData) (elem_index : uint32_t) : option uint32_t :=
  if size (mElems g) <=? elem_index then Some INVALID_INDEX
  else if elem_index =? 0 then Some 0
  else option_map edge_end_index (at_index (mElems g) (elem_index - 1)).

(** [uint32_t IGAData::edgeCount() const] *)
Definition edgeCount (g : IGAData) : uint32_t := wrap32 (size (mEdges g)).

(** [uint32_t IGAData::edgeEnd( uint32_t elem_index ) const] *)
Definition edgeEnd (g : IGAData) (elem_index : uint32_t) : option uint32_t :=
  if size (mElems g) <=? elem_index then Some INVALID_INDEX
  else option_map edge_end_index (at_index (mElems g) elem_index).

(** [double IGAData::edgeInterval( uint32_t edge_index ) const] *)
Definition edgeInterval (g : IGAData) (edge_index : uint32_t) : option double :=
  match mIntervals g with
  | [] => Some Double.one
  | _ :: _ => at_index (mIntervals g) edge_index
  end.

(** [const FaceLayout &IGAData::layout( uint32_t layout_index ) const] *)
Definition layout (g : IGAData) (layout_index : uint32_t) : option FaceLayout :=
  if layout_index =? 0 then Some default_layout
  else at_index (mLayouts g) layout_index.

(** [uint32_t IGAData::elemEdgeCount( uint32_t elem_index ) const] *)
Definition elemEdgeCount (g : IGAData) (elem_index : uint32_t) : option uint32_t :=
  match at_index (mElems g) elem_index with
  | None => None
  | Some elem => option_map side_range_4 (layout g (layout_index elem))
  end.

(** [uint32_t IGAData::pieceCount() const] *)
Definition pieceCount (g : IGAData) : uint32_t := wrap32 (size (mPieces g)).

End Accessors.

Export Accessors.

(** ** The validator: [bool IGAData::isValid( std::ostream &err ) const]

    Every [return false] of the source is a [false] here, in the order of
    the source; the text sent to [err] is not modelled, so this is also
    [bool IGAData::isValid() const], which discards it. *)

Module Validator.

Definition point_finite (pt : Point3d) : bool :=
  Double.finite (pt_x pt) && Double.finite (pt_y pt)
  && Double.finite (pt_z pt) && Double.finite (pt_w pt).

(** Body of the loop over the layouts; [layouts] is the [std::set]. *)
Fixpoint layouts_loop (ilayout : nat) (rest : list FaceLayout) (layouts : list FaceLayout)
  : option (list FaceLayout) :=
  match rest with
  | [] => Some layouts
  | layout :: rest' =>
      if (ilayout =? 0)%nat
         && (FaceLayout_lt layout default_layout || FaceLayout_lt default_layout layout)
      then None
      else if (side_range_1 layout <=? side_range_0 layout)
              || (side_range_2 layout <=? side_range_1 layout)
              || (side_range_3 layout <=? side_range_2 layout)
              || (side_range_4 layout <=? side_range_3 layout)
      then None
      else layouts_loop (S ilayout) rest' (set_insert FaceLayout_lt layout layouts)
  end.

(** Body of the loop over the pieces: [true] when no check fails. *)
Definition piece_ok (g : IGAData) (piece : Piece2D) : bool :=
  if size (mPoints g) <=? pt_index piece then false
  else
    (* int s_order = piece.st_order & 0xFFFF; int t_order = piece.st_order >> 16; *)
    let s_order := Z.land (st_order piece) 0xFFFF in
    let t_order := Z.shiftr (st_order piece) 16 in
    if maybe_t_index piece =? INVALID_INDEX then
      (* size_t piece_size = s_order * t_order;  the product is an int *)
      let piece_size := wrap64 (wrap_int (s_order * t_order)) in
      if size (mCoeffs g) <? wrap64 (s_index piece + piece_size) then false else true
    else
      (* uint32_t + int is computed in 32 bits *)
      if size (mCoeffs g) <? wrap32 (s_index piece + s_order) then false
      else if size (mCoeffs g) <? wrap32 (maybe_t_index piece + t_order) then false
      else true.

Definition interval_ok (d : double) : bool :=
  negb (Double.lt d Double.zero || negb (Double.finite d)).

Definition edge_ok (g : IGAData) (e : uint32_t) : bool :=
  negb (negb (e =? INVALID_INDEX) && (size (mElems g) <=? e)).

(** The loop over the elements, with its two running variables; [None]
    is a [return false]. *)
Fixpoint elems_loop (g : IGAData) (rest : list Elem) (last_edge_end last_piece_end : uint32_t)
  : option (uint32_t * uint32_t) :=
  match rest with
  | [] => Some (last_edge_end, last_piece_end)
  | elem :: rest' =>
      if edge_end_index elem <? last_edge_end then None
      else if size (mEdges g) <? edge_end_index elem then None
      else if piece_end_index elem <? last_piece_end then None
      else if size (mPieces g) <? piece_end_index elem then None
      else if negb (layout_index elem =? 0) && (size (mLayouts g) <=? layout_index elem)
      then None
      else
        (* Layout 0 is not required to be explicitly stored. *)
        let edge_count_ok :=
          if layout_index elem <? size (mLayouts g) then
            match at_index (mLayouts g) (layout_index elem) with
            | Some layout =>
                wrap32 (edge_end_index elem - last_edge_end) =? side_range_4 layout
            | None => true
            end
          else true in
        if negb edge_count_ok then None
        else elems_loop g rest' (edge_end_index elem) (piece_end_index elem)
  end.

Definition isValid (g : IGAData) : bool :=
  if negb (forallb Double.finite (mCoeffs g)) then false
  else if negb (forallb point_finite (mPoints g)) then false
  else
    match layouts_loop 0 (mLayouts g) [] with
    | None => false
    | Some layouts =>
        if negb (size layouts =? size (mLayouts g)) then false
        else if (1 <? size (mLayouts g)) && (size (mIntervals g) =? 0) then false
        else if negb (forallb (piece_ok g) (mPieces g)) then false
        else if negb (size (mIntervals g) =? 0)
                && negb (size (mEdges g) =? size (mIntervals g)) then false
        else if negb (forallb interval_ok (mIntervals g)) then false
        else if negb (forallb (edge_ok g) (mEdges g)) then false
        else
          match elems_loop g (mElems g) 0 0 with
          | None => false
          | Some (last_edge_end, last_piece_end) =>
              if negb (last_edge_end =? size (mEdges g))
                 || negb (last_piece_end =? size (mPieces g))
              then false
              else true
          end
    end.

End Validator.

Export Validator.

(** ** Object representations

    The reader and the writer move whole vectors as raw bytes
    ([reinterpret_cast< char * >( vec.data() )]).  A [Wire T] gives the
    layout of one [T]: its [sizeof], its bytes, the value a run of bytes
    denotes, and the values a [T] can hold.  The structs have no padding:
    every member is 4 or 8 bytes wide and so aligned. *)

Module Wire.

Record Wire (T : Type) : Type := mkWire {
  sizeof : Z;
  to_bytes : T -> list byte;
  of_bytes : list byte -> T;
  in_range : T -> Prop
}.
Arguments sizeof {T} _.
Arguments to_bytes {T} _ _.
Arguments of_bytes {T} _ _.
Arguments in_range {T} _ _.

(** The integer stored in [len] bytes at offset [off]. *)
Definition member (off len : nat) (bytes : list byte) : Z :=
  le_combine (firstn len (skipn off bytes)).

Definition sizeof_char : Z := 1.
Definition sizeof_uint32_t : Z := 4.
Definition sizeof_double : Z := 8.
Definition sizeof_Elem : Z := 12.
Definition sizeof_Piece2D : Z := 16.
Definition sizeof_FaceLayout : Z := 20.
Definition sizeof_Point3d : Z := 32.

Definition Wire_char : Wire byte :=
  mkWire byte sizeof_char (fun b => [b]) (fun bytes => hd Byte.x00 bytes) (fun _ => True).

Definition Wire_uint32_t : Wire uint32_t :=
  mkWire uint32_t sizeof_uint32_t (le_split 4) (member 0 4) is_u32.

Definition Wire_double : Wire double :=
  mkWire double sizeof_double (le_split 8) (member 0 8) is_u64.

Definition Wire_Point3d : Wire Point3d :=
  mkWire Point3d sizeof_Point3d
    (fun pt => le_split 8 (pt_x pt) ++ le_split 8 (pt_y pt)
               ++ le_split 8 (pt_z pt) ++ le_split 8 (pt_w pt))
    (fun bytes => mkPoint3d (member 0 8 bytes) (member 8 8 bytes)
                    (member 16 8 bytes) (member 24 8 bytes))
    (fun pt => is_u64 (pt_x pt) /\ is_u64 (pt_y pt) /\ is_u64 (pt_z pt) /\ is_u64 (pt_w pt)).

Definition Wire_Piece2D : Wire Piece2D :=
  mkWire Piece2D sizeof_Piece2D
    (fun p => le_split 4 (st_order p) ++ le_split 4 (s_index p)
              ++ le_split 4 (maybe_t_index p) ++ le_split 4 (pt_index p))
    (fun bytes => mkPiece2D (member 0 4 bytes) (member 4 4 bytes)
                    (member 8 4 bytes) (member 12 4 bytes))
    (fun p => is_u32 (st_order p) /\ is_u32 (s_index p)
              /\ is_u32 (maybe_t_index p) /\ is_u32 (pt_index p)).

Definition Wire_FaceLayout : Wire FaceLayout :=
  mkWire FaceLayout sizeof_FaceLayout
    (fun l => le_split 4 (side_range_0 l) ++ le_split 4 (side_range_1 l)
              ++ le_split 4 (side_range_2 l) ++ le_split 4 (side_range_3 l)
              ++ le_split 4 (side_range_4 l))
    (fun bytes => mkFaceLayout (member 0 4 bytes) (member 4 4 bytes)
                    (member 8 4 bytes) (member 12 4 bytes) (member 16 4 bytes))
    (fun l => is_u32 (side_range_0 l) /\ is_u32 (side_range_1 l) /\ is_u32 (side_range_2 l)
              /\ is_u32 (side_range_3 l) /\ is_u32 (side_range_4 l)).

Definition Wire_Elem : Wire Elem :=
  mkWire Elem sizeof_Elem
    (fun e => le_split 4 (piece_end_index e) ++ le_split 4 (layout_index e)
              ++ le_split 4 (edge_end_index e))
    (fun bytes => mkElem (member 0 4 bytes) (member 4 4 bytes) (member 8 4 bytes))
    (fun e => is_u32 (piece_end_index e) /\ is_u32 (layout_index e)
              /\ is_u32 (edge_end_index e)).

(** The bytes of [vec.data()], [vec.size() * sizeof( T )] of them. *)
Definition vector_bytes {T} (W : Wire T) (vec : list T) : list byte :=
  flat_map (to_bytes W) vec.

(** A vector of [n] elements filled from raw bytes. *)
Fixpoint vector_of_bytes {T} (W : Wire T) (n : nat) (bytes : list byte) : list T :=
  match n with
  | O => []
  | S n' =>
      of_bytes W (firstn (Z.to_nat (sizeof W)) bytes)
      :: vector_of_bytes W n' (skipn (Z.to_nat (sizeof W)) bytes)
  end.

End Wire.

Export Wire.

(** ** The builder: [class IGACreator] (IGACreator.h, IGACreator.cpp) *)

(** What a call that may leave defined behaviour yields. *)
Inductive outcome (A : Type) : Type :=
| Returns (a : A)
| Undefined.
Arguments Returns {A} a.
Arguments Undefined {A}.

Module Creator.

Record IGACreator : Type := mkIGACreator {
  mParent : IGAData;
  (** [std::map< CoeffVector, uint32_t, CoeffVectorLessThan >] *)
  mCoeffLookup : list (CoeffVector * uint32_t);
  (** [std::map< FaceLayout, uint32_t >] *)
  mLayoutLookup : list (FaceLayout * uint32_t)
}.

(** Assignments to the members of the parent. *)
Definition set_mSrfType (g : IGAData) (v : list byte) : IGAData :=
  mkIGAData v (mCoeffs g) (mPoints g) (mPieces g) (mEdges g) (mIntervals g) (mLayouts g) (mElems g).
Definition set_mCoeffs (g : IGAData) (v : list double) : IGAData :=
  mkIGAData (mSrfType g) v (mPoints g) (mPieces g) (mEdges g) (mIntervals g) (mLayouts g) (mElems g).
Definition set_mPoints (g : IGAData) (v : list Point3d) : IGAData :=
  mkIGAData (mSrfType g) (mCoeffs g) v (mPieces g) (mEdges g) (mIntervals g) (mLayouts g) (mElems g).
Definition set_mPieces (g : IGAData) (v : list Piece2D) : IGAData :=
  mkIGAData (mSrfType g) (mCoeffs g) (mPoints g) v (mEdges g) (mIntervals g) (mLayouts g) (mElems g).
Definition set_mEdges (g : IGAData) (v : list uint32_t) : IGAData :=
  mkIGAData (mSrfType g) (mCoeffs g) (mPoints g) (mPieces g) v (mIntervals g) (mLayouts g) (mElems g).
Definition set_mIntervals (g : IGAData) (v : list double) : IGAData :=
  mkIGAData (mSrfType g) (mCoeffs g) (mPoints g) (mPieces g) (mEdges g) v (mLayouts g) (mElems g).
Definition set_mLayouts (g : IGAData) (v : list FaceLayout) : IGAData :=
  mkIGAData (mSrfType g) (mCoeffs g) (mPoints g) (mPieces g) (mEdges g) (mIntervals g) v (mElems g).
Definition set_mElems (g : IGAData) (v : list Elem) : IGAData :=
  mkIGAData (mSrfType g) (mCoeffs g) (mPoints g) (mPieces g) (mEdges g) (mIntervals g) (mLayouts g) v.

Definition set_mParent (c : IGACreator) (g : IGAData) : IGACreator :=
  mkIGACreator g (mCoeffLookup c) (mLayoutLookup c).
Definition set_mCoeffLookup (c : IGACreator) (m : list (CoeffVector * uint32_t)) : IGACreator :=
  mkIGACreator (mParent c) m (mLayoutLookup c).
Definition set_mLayoutLookup (c : IGACreator) (m : list (FaceLayout * uint32_t)) : IGACreator :=
  mkIGACreator (mParent c) (mCoeffLookup c) m.

(** [IGACreator::IGACreator( IGAData *parent ) : mParent( parent ) { parent->clear(); }] *)
Definition IGACreator_new (parent : IGAData) : IGACreator :=
  mkIGACreator (clear parent) [] [].

(** [std::vector< T >::max_size()] of a 64-bit standard library: the
    largest object size over the element size. *)
Definition max_size (sizeof_T : Z) : Z := (2 ^ 63 - 1) / sizeof_T.

(** [template< typename T > uint32_t safeAppend( std::vector< T > &vec, const T &value )] *)
Definition safeAppend {T} (sizeof_T : Z) (vec : list T) (value : T) : uint32_t * list T :=
  if (INVALID_INDEX - 1 <=? size vec) || (max_size sizeof_T <=? size vec)
  then (INVALID_INDEX, vec)
  else (wrap32 (size vec), vec ++ [value]).

(** [uint32_t IGACreator::addCoeffs( const CoeffVector &coeffs )]
    (the sum of two vector sizes does not wrap a [size_t]) *)
Definition addCoeffs (coeffs : CoeffVector) (c : IGACreator) : uint32_t * IGACreator :=
  let p := mParent c in
  if (INVALID_INDEX <=? size (mCoeffs p) + size coeffs)
     || (max_size sizeof_double <? size (mCoeffs p) + size coeffs)
     || (0x7FFF <=? size coeffs)
  then (INVALID_INDEX, c)
  else
    let dict_index := wrap32 (size (mCoeffs p)) in
    (dict_index, set_mParent c (set_mCoeffs p (mCoeffs p ++ coeffs))).

(** [uint32_t IGACreator::addEdge( uint32_t elem, double knot_interval )] *)
Definition addEdge (elem : uint32_t) (knot_interval : double) (c : IGACreator)
  : uint32_t * IGACreator :=
  let '(edge_index, edges') := safeAppend sizeof_uint32_t (mEdges (mParent c)) elem in
  let c1 := set_mParent c (set_mEdges (mParent c) edges') in
  if Double.ge knot_interval Double.zero then
    let '(interval_index, intervals') :=
      safeAppend sizeof_double (mIntervals (mParent c1)) knot_interval in
    let c2 := set_mParent c1 (set_mIntervals (mParent c1) intervals') in
    (* You must keep these in sync. *)
    if negb (edge_index =? interval_index) then (INVALID_INDEX, c2)
    else (edge_index, c2)
  else if negb (size (mIntervals (mParent c1)) =? 0) then (INVALID_INDEX, c1)
  else (edge_index, c1).

(** [uint32_t IGACreator::addElem( const Elem &elem )] *)
Definition addElem (elem : Elem) (c : IGACreator) : uint32_t * IGACreator :=
  let '(i, v) := safeAppend sizeof_Elem (mElems (mParent c)) elem in
  (i, set_mParent c (set_mElems (mParent c) v)).

(** [uint32_t IGACreator::addLayout( const FaceLayout &layout )] *)
Definition addLayout (layout : FaceLayout) (c : IGACreator) : uint32_t * IGACreator :=
  let '(i, v) := safeAppend sizeof_FaceLayout (mLayouts (mParent c)) layout in
  (i, set_mParent c (set_mLayouts (mParent c) v)).

(** [uint32_t IGACreator::addPiece( const Piece2D &piece )] *)
Definition addPiece (piece : Piece2D) (c : IGACreator) : uint32_t * IGACreator :=
  let '(i, v) := safeAppend sizeof_Piece2D (mPieces (mParent c)) piece in
  (i, set_mParent c (set_mPieces (mParent c) v)).

(** [uint32_t IGACreator::addPoint( const Point3d &pt )] *)
Definition addPoint (pt : Point3d) (c : IGACreator) : uint32_t * IGACreator :=
  let '(i, v) := safeAppend sizeof_Point3d (mPoints (mParent c)) pt in
  (i, set_mParent c (set_mPoints (mParent c) v)).

(** [uint32_t IGACreator::getDictionaryIndex( const CoeffVector &coeffs )] *)
Definition getDictionaryIndex (coeffs : CoeffVector) (c : IGACreator) : uint32_t * IGACreator :=
  if negb (forallb Double.finite coeffs) then (INVALID_INDEX, c)
  else
    match map_find CoeffVectorLessThan coeffs (mCoeffLookup c) with
    | Some second => (second, c)
    | None =>
        let '(new_index, c1) := addCoeffs coeffs c in
        if new_index =? INVALID_INDEX then (INVALID_INDEX, c1)
        else
          (new_index,
           set_mCoeffLookup c1 (map_assign CoeffVectorLessThan coeffs new_index (mCoeffLookup c1)))
    end.

(** [uint32_t IGACreator::getLayoutIndex( const FaceLayout &layout )] *)
Definition getLayoutIndex (layout : FaceLayout) (c : IGACreator) : uint32_t * IGACreator :=
  match map_find FaceLayout_lt layout (mLayoutLookup c) with
  | Some second => (second, c)
  | None =>
      let c0 :=
        if (size (mLayouts (mParent c)) =? 0)
           && (FaceLayout_lt layout default_layout || FaceLayout_lt default_layout layout)
        then
          (* mLayoutLookup[ default_layout ] = 0;
             mParent->mLayouts.push_back( default_layout ); *)
          let c' := set_mLayoutLookup c (map_assign FaceLayout_lt default_layout 0 (mLayoutLookup c)) in
          set_mParent c' (set_mLayouts (mParent c') (mLayouts (mParent c') ++ [default_layout]))
        else c in
      let '(new_index, c1) := addLayout layout c0 in
      if new_index =? INVALID_INDEX then (INVALID_INDEX, c1)
      else
        (new_index,
         set_mLayoutLookup c1 (map_assign FaceLayout_lt layout new_index (mLayoutLookup c1)))
  end.

(** [uint32_t IGACreator::addExplicitPiece( int s_order, uint32_t pt_index,
     const CoeffVector &coeffs )].
    The quotient [coeffs.size() / s_order] is taken before any check of
    [s_order]; an integer division by zero is undefined. *)
Definition addExplicitPiece (s_order : Z) (pt_index : uint32_t) (coeffs : CoeffVector)
  (c : IGACreator) : outcome (uint32_t * IGACreator) :=
  if 0x7FFF * 0x7FFF <? size coeffs then Returns (INVALID_INDEX, c)
  else if s_order =? 0 then Undefined
  else
    let t_order := wrap_int (Z.quot (wrap_int (size coeffs)) s_order) in
    if (s_order <? 0) || (0x7FFF <? s_order) || (t_order <? 0) || (0x7FFF <? t_order)
    then Returns (INVALID_INDEX, c)
    else if negb (wrap64 (wrap64 s_order * wrap64 t_order) =? size coeffs)
    then Returns (INVALID_INDEX, c)
    else
      let st := wrap32 (Z.lor s_order (wrap_int (Z.shiftl t_order 16))) in
      let '(s_idx, c1) := getDictionaryIndex coeffs c in
      if s_idx =? INVALID_INDEX then Returns (INVALID_INDEX, c1)
      else Returns (addPiece (mkPiece2D st s_idx INVALID_INDEX pt_index) c1).

(** [uint32_t IGACreator::addTensorPiece( const CoeffVector &s_coeffs,
     const CoeffVector &t_coeffs, uint32_t pt_index )] *)
Definition addTensorPiece (s_coeffs t_coeffs : CoeffVector) (pt_index : uint32_t)
  (c : IGACreator) : uint32_t * IGACreator :=
  let s_order := wrap_int (size s_coeffs) in
  let t_order := wrap_int (size t_coeffs) in
  if (s_order <? 0) || (0x7FFF <? s_order) || (t_order <? 0) || (0x7FFF <? t_order)
  then (INVALID_INDEX, c)
  else
    let st := wrap32 (Z.lor s_order (wrap_int (Z.shiftl t_order 16))) in
    let '(s_idx, c1) := getDictionaryIndex s_coeffs c in
    if s_idx =? INVALID_INDEX then (INVALID_INDEX, c1)
    else
      let '(t_idx, c2) := getDictionaryIndex t_coeffs c1 in
      if t_idx =? INVALID_INDEX then (INVALID_INDEX, c2)
      else addPiece (mkPiece2D st s_idx t_idx pt_index) c2.

(** [uint32_t IGACreator::finishElem( uint32_t layout_index )] *)
Definition finishElem (layout_index : uint32_t) (c : IGACreator) : uint32_t * IGACreator :=
  let p := mParent c in
  let elem := mkElem (pieceCount p) layout_index (edgeCount p) in
  if size (mLayouts p) <=? layout_index then (INVALID_INDEX, c)
  else
    match at_index (mLayouts p) layout_index with
    | None => (INVALID_INDEX, c)
    | Some layout =>
        let elem_edge_count :=
          if size (mElems p) =? 0 then wrap32 (size (mEdges p))
          else
            let back := last (mElems p) (mkElem 0 0 0) in
            wrap32 (size (mEdges p) - edge_end_index back) in
        if negb (elem_edge_count =? side_range_4 layout) then (INVALID_INDEX, c)
        else addElem elem c
    end.

(** [void IGACreator::setSurfaceType( const std::string &surface_type )] *)
Definition setSurfaceType (surface_type : list byte) (c : IGACreator) : IGACreator :=
  set_mParent c (set_mSrfType (mParent c) surface_type).

(** The public member functions, as calls a client can make. *)
Inductive Call : Type :=
| Call_addCoeffs (coeffs : CoeffVector)
| Call_addEdge (elem : uint32_t) (knot_interval : double)
| Call_addElem (elem : Elem)
| Call_addExplicitPiece (s_order : Z) (pt_index : uint32_t) (coeffs : CoeffVector)
| Call_addLayout (layout : FaceLayout)
| Call_addPiece (piece : Piece2D)
| Call_addPoint (pt : Point3d)
| Call_addTensorPiece (s_coeffs t_coeffs : CoeffVector) (pt_index : uint32_t)
| Call_finishElem (layout_index : uint32_t)
| Call_getDictionaryIndex (coeffs : CoeffVector)
| Call_getLayoutIndex (layout : FaceLayout)
| Call_setSurfaceType (surface_type : list byte).

(** The builder after one call (the returned index is dropped). *)
Definition call (k : Call) (c : IGACreator) : outcome IGACreator :=
  match k with
  | Call_addCoeffs coeffs => Returns (snd (addCoeffs coeffs c))
  | Call_addEdge elem knot_interval => Returns (snd (addEdge elem knot_interval c))
  | Call_addElem elem => Returns (snd (addElem elem c))
  | Call_addExplicitPiece s_order pt_index coeffs =>
      match addExplicitPiece s_order pt_index coeffs c with
      | Returns r => Returns (snd r)
      | Undefined => Undefined
      end
  | Call_addLayout layout => Returns (snd (addLayout layout c))
  | Call_addPiece piece => Returns (snd (addPiece piece c))
  | Call_addPoint pt => Returns (snd (addPoint pt c))
  | Call_addTensorPiece s_coeffs t_coeffs pt_index =>
      Returns (snd (addTensorPiece s_coeffs t_coeffs pt_index c))
  | Call_finishElem layout_index => Returns (snd (finishElem layout_index c))
  | Call_getDictionaryIndex coeffs => Returns (snd (getDictionaryIndex coeffs c))
  | Call_getLayoutIndex layout => Returns (snd (getLayoutIndex layout c))
  | Call_setSurfaceType surface_type => Returns (setSurfaceType surface_type c)
  end.

(** A sequence of calls on a builder. *)
Fixpoint run (calls : list Call) (c : IGACreator) : outcome IGACreator :=
  match calls with
  | [] => Returns c
  | k :: calls' =>
      match call k c with
      | Returns c' => run calls' c'
      | Undefined => Undefined
      end
  end.

(** The builders a client can hold: a new one, after any calls. *)
Definition reachable (c : IGACreator) : Prop :=
  exists parent calls, run calls (IGACreator_new parent) = Returns c.

(** A call other than a direct [addLayout]. *)
Definition not_addLayout (k : Call) : bool :=
  match k with Call_addLayout _ => false | _ => true end.

End Creator.

Export Creator.

(** ** The block writer: [class IGAWriter] (IGAWriter.h, IGAWriter.cpp) *)

Module Writer.

Section WriterMethods.
(** The byte sink behind the pure virtual
    [bool writeData( const char *data_block, size_t length )];
    [None] is a [false]. *)
Context {Sink : Type}.
Variable writeData : list byte -> Sink -> option Sink.

(** [if( !step ) return false;] then the rest. *)
Definition and_then (r : option Sink) (k : Sink -> option Sink) : option Sink :=
  match r with
  | Some sink => k sink
  | None => None
  end.

(** [bool IGAWriter::writeBlock( const char *block_type, const char *contents,
     size_t length, uint64_t id )] *)
Definition writeBlock (block_type : list byte) (contents : list byte) (id : Z)
  (sink : Sink) : option Sink :=
  and_then (writeData BLOCK_text sink) (fun sink =>
  let tag := tagValue block_type in
  and_then (writeData (le_split 8 tag) sink) (fun sink =>
  and_then (writeData (le_split 8 id) sink) (fun sink =>
  let len64 := wrap64 (size contents) in
  and_then (writeData (le_split 8 len64) sink) (fun sink =>
  and_then (writeData contents sink) (fun sink =>
  writeData (le_split 8 len64) sink))))).

(** [WRITE_BLOCK( NAME, GETTER, TYPE )] *)
Definition WRITE_BLOCK {T} (NAME : string) (W : Wire T) (vec : list T) (sink : Sink)
  : option Sink :=
  writeBlock (text NAME) (vector_bytes W vec) 0 sink.

(** [bool IGAWriter::writeIGAFile( const IGAData &geometry )];
    [writeFinished()] is an empty hook. *)
Definition writeIGAFile (geometry : IGAData) (sink : Sink) : option Sink :=
  and_then (writeData (text "#TSS0001") sink) (fun sink =>
  and_then (writeBlock (text "IGAFILE") [] 0 sink) (fun sink =>
  and_then (WRITE_BLOCK "SRFTYPE" Wire_char (mSrfType geometry) sink) (fun sink =>
  and_then (WRITE_BLOCK "VECDICT" Wire_double (mCoeffs geometry) sink) (fun sink =>
  and_then (WRITE_BLOCK "PT3DW" Wire_Point3d (mPoints geometry) sink) (fun sink =>
  and_then (WRITE_BLOCK "2DPIECE" Wire_Piece2D (mPieces geometry) sink) (fun sink =>
  and_then (WRITE_BLOCK "LAYOUT" Wire_FaceLayout (mLayouts geometry) sink) (fun sink =>
  and_then (WRITE_BLOCK "EDGES" Wire_uint32_t (mEdges geometry) sink) (fun sink =>
  and_then (if 0 <? size (mIntervals geometry)
            then WRITE_BLOCK "KNOTINT" Wire_double (mIntervals geometry) sink
            else Some sink) (fun sink =>
  WRITE_BLOCK "SHAPE" Wire_Elem (mElems geometry) sink))))))))).
End WriterMethods.

(** A writer into memory, as the [std::stringstream] of the test
    program: every write succeeds and appends. *)
Definition buffer_writeData (data_block : list byte) (sink : list byte) : option (list byte) :=
  Some (sink ++ data_block).

(** The bytes [writeIGAFile] leaves in an empty buffer. *)
Definition written (geometry : IGAData) : option (list byte) :=
  writeIGAFile buffer_writeData geometry [].

End Writer.

Export Writer.

(** ** The block reader: [class IGAReader] (IGAReader.h, IGAReader.cpp) *)

Module Reader.

(** [bool readData( char *destination, size_t length )] over the rest of
    a file: the next [length] bytes and what follows them, or [None]
    ([false]) when fewer are left. *)
Definition readData (length : Z) (src : list byte) : option (list byte * list byte) :=
  if length <=? size src
  then Some (firstn (Z.to_nat length) src, skipn (Z.to_nat length) src)
  else None.

(** [struct BlockHeader] of IGACommon.h *)
Record BlockHeader : Type := mkBlockHeader {
  block_tag : list byte;
  tag : Z;
  id : Z;
  block_len : Z
}.

(** [sizeof( BlockHeader )] *)
Definition sizeof_BlockHeader : Z := 32.

Definition BlockHeader_of_bytes (bytes : list byte) : BlockHeader :=
  mkBlockHeader (firstn 8 bytes) (member 8 8 bytes) (member 16 8 bytes) (member 24 8 bytes).

(** [template< typename T > bool IGAReader::readBlock( std::vector< T > &dst, size_t len )]:
    the vector and the rest of the source on [true], [None] on [false]. *)
Definition readBlock {T} (W : Wire T) (dst : list T) (len : Z) (src : list byte)
  : option (list T * list byte) :=
  if negb (len mod sizeof W =? 0) then None
  else
    let n := len / sizeof W in
    let filled :=
      if negb (len =? 0) then
        if IGA_MAX_ALLOC <=? len then None
        else
          match readData len src with
          | None => None
          | Some (bytes, src') => Some (vector_of_bytes W (Z.to_nat n) bytes, src')
          end
      else Some (dst, src) in
    match filled with
    | None => None
    | Some (dst', src') =>
        match readData 8 src' with
        | None => None
        | Some (final_len, src'') =>
            if negb (le_combine final_len =? len) then None else Some (dst', src'')
        end
    end.

(** The characters of a C string held in a buffer: up to the first zero. *)
Fixpoint c_str (buf : list byte) : list byte :=
  match buf with
  | [] => []
  | ch :: buf' => if Byte.eqb ch nul then [] else ch :: c_str buf'
  end.

Definition bytes_eqb (a b : list byte) : bool :=
  if list_eq_dec Byte.byte_eq_dec a b then true else false.

(** [strcmp( a, b ) == 0] *)
Definition strcmp_eq (a b : list byte) : bool := bytes_eqb (c_str a) (c_str b).

(** The magic and the first block: the source after them, [None] on a
    [return false]. *)
Definition read_prologue (src : list byte) : option (list byte) :=
  match readData 8 src with
  | None => None
  | Some (buf, src) =>
      if negb (strcmp_eq buf (text "#TSS0001")) then None
      else
        match readData sizeof_BlockHeader src with
        | None => None
        | Some (bytes, src) =>
            let block_header := BlockHeader_of_bytes bytes in
            if negb (tagValue (block_tag block_header) =? tagValue BLOCK_text) then None
            else if negb (tag block_header =? tagValue (text "IGAFILE")) then None
            else option_map snd (readBlock Wire_char [] (block_len block_header) src)
        end
  end.

Definition set_field {T} (set : IGAData -> list T -> IGAData) (geometry : IGAData)
  (r : option (list T * list byte)) : option (IGAData * list byte) :=
  match r with
  | None => None
  | Some (vec, src) => Some (set geometry vec, src)
  end.

(** The body of the [do ... while] loop once a block header was read:
    the geometry and the source after the block, [None] on a
    [return false].  The buffer [unused_block] is never read back and is
    not kept. *)
Definition read_body (geometry : IGAData) (block_header : BlockHeader) (src : list byte)
  : option (IGAData * list byte) :=
  let len := block_len block_header in
  if negb (tagValue (block_tag block_header) =? tagValue BLOCK_text) then None
  else if tag block_header =? tagValue (text "SRFTYPE") then
    let geometry := clear geometry in
    set_field set_mSrfType geometry (readBlock Wire_char [] len src)
  else if tag block_header =? tagValue (text "VECDICT") then
    set_field set_mCoeffs geometry (readBlock Wire_double (mCoeffs geometry) len src)
  else if tag block_header =? tagValue (text "PT3DW") then
    set_field set_mPoints geometry (readBlock Wire_Point3d (mPoints geometry) len src)
  else if tag block_header =? tagValue (text "2DPIECE") then
    set_field set_mPieces geometry (readBlock Wire_Piece2D (mPieces geometry) len src)
  else if tag block_header =? tagValue (text "LAYOUT") then
    set_field set_mLayouts geometry (readBlock Wire_FaceLayout (mLayouts geometry) len src)
  else if tag block_header =? tagValue (text "EDGES") then
    set_field set_mEdges geometry (readBlock Wire_uint32_t (mEdges geometry) len src)
  else if tag block_header =? tagValue (text "KNOTINT") then
    set_field set_mIntervals geometry (readBlock Wire_double (mIntervals geometry) len src)
  else if tag block_header =? tagValue (text "SHAPE") then
    set_field set_mElems geometry (readBlock Wire_Elem (mElems geometry) len src)
  else
    set_field (fun g (_ : list byte) => g) geometry (readBlock Wire_char [] len src).

(** One turn of the loop that reads a whole block. *)
Definition read_one_block (geometry : IGAData) (src : list byte)
  : option (IGAData * list byte) :=
  match readData sizeof_BlockHeader src with
  | None => None
  | Some (bytes, src') => read_body geometry (BlockHeader_of_bytes bytes) src'
  end.

(** [do { ... } while( block_read_okay );]  A failed read of the header
    leaves the loop ([break]) and the function returns [true]; any other
    failure is a [return false].  Every turn consumes a header, so a fuel
    above the length of the source is never used up. *)
Fixpoint read_blocks (fuel : nat) (geometry : IGAData) (src : list byte) : option IGAData :=
  match fuel with
  | O => None
  | S fuel' =>
      match readData sizeof_BlockHeader src with
      | None => Some geometry
      | Some (bytes, src') =>
          match read_body geometry (BlockHeader_of_bytes bytes) src' with
          | None => None
          | Some (geometry', src'') => read_blocks fuel' geometry' src''
          end
      end
  end.

(** [bool IGAReader::readIGAFile( IGAData &geometry )]: the geometry on
    [true], [None] on [false]; [readFinished()] is an empty hook. *)
Definition readIGAFile (geometry : IGAData) (src : list byte) : option IGAData :=
  let geometry := clear geometry in
  match read_prologue src with
  | None => None
  | Some src' => read_blocks (S (length src')) geometry src'
  end.

(** Zero or more whole blocks read one after the other. *)
Inductive blocks_read : IGAData -> list byte -> IGAData -> list byte -> Prop :=
| blocks_read_none : forall g src, blocks_read g src g src
| blocks_read_more : forall g src g1 src1 g2 src2,
    read_one_block g src = Some (g1, src1) ->
    blocks_read g1 src1 g2 src2 ->
    blocks_read g src g2 src2.

End Reader.

Export Reader.

(** ** What the round trip rests on *)

Module Container.

(** A layout is sound when every value takes [sizeof] bytes and is read
    back from its own bytes. *)
Record wire_ok {T} (W : Wire T) : Prop := mk_wire_ok {
  sizeof_pos : 0 < sizeof W;
  to_bytes_size : forall x, size (to_bytes W x) = sizeof W;
  of_to_bytes : forall x, in_range W x -> of_bytes W (to_bytes W x) = x
}.

(** The 32 bytes [writeBlock] sends before the contents. *)
Definition header_bytes (block_type : list byte) (id len64 : Z) : list byte :=
  BLOCK_text ++ le_split 8 (tagValue block_type) ++ le_split 8 id ++ le_split 8 len64.

(** All the bytes [writeBlock] sends. *)
Definition block_bytes (block_type contents : list byte) (id : Z) : list byte :=
  header_bytes block_type id (wrap64 (size contents))
  ++ contents ++ le_split 8 (wrap64 (size contents)).

(** Every member of the model holds values of its C++ type. *)
Definition in_range_model (g : IGAData) : Prop :=
  Forall (in_range Wire_double) (mCoeffs g)
  /\ Forall (in_range Wire_Point3d) (mPoints g)
  /\ Forall (in_range Wire_Piece2D) (mPieces g)
  /\ Forall (in_range Wire_uint32_t) (mEdges g)
  /\ Forall (in_range Wire_double) (mIntervals g)
  /\ Forall (in_range Wire_FaceLayout) (mLayouts g)
  /\ Forall (in_range Wire_Elem) (mElems g).

(** Every block of the model is shorter than [IGA_MAX_ALLOC] bytes. *)
Definition under_ceiling (g : IGAData) : Prop :=
  sizeof_char * size (mSrfType g) < IGA_MAX_ALLOC
  /\ sizeof_double * size (mCoeffs g) < IGA_MAX_ALLOC
  /\ sizeof_Point3d * size (mPoints g) < IGA_MAX_ALLOC
  /\ sizeof_Piece2D * size (mPieces g) < IGA_MAX_ALLOC
  /\ sizeof_FaceLayout * size (mLayouts g) < IGA_MAX_ALLOC
  /\ sizeof_uint32_t * size (mEdges g) < IGA_MAX_ALLOC
  /\ sizeof_double * size (mIntervals g) < IGA_MAX_ALLOC
  /\ sizeof_Elem * size (mElems g) < IGA_MAX_ALLOC.

End Container.

Export Container.

(** ** Invariants of the builder's layout dictionary *)

Module LayoutDictionary.

(** Every entry of the layout lookup table gives the index at which its
    layout is stored. *)
Definition lookup_sound (c : IGACreator) : Prop :=
  forall layout i,
    In (layout, i) (mLayoutLookup c) -> at_index (mLayouts (mParent c)) i = Some layout.

(** Layout 0, when any layout is stored, is the default layout. *)
Definition default_first (c : IGACreator) : Prop :=
  mLayouts (mParent c) = [] \/ nth_error (mLayouts (mParent c)) 0 = Some default_layout.

(** What the calls other than [addLayout] and [getLayoutIndex] leave alone. *)
Definition dictionary (c : IGACreator) : list FaceLayout * list (FaceLayout * uint32_t) :=
  (mLayouts (mParent c), mLayoutLookup c).

End LayoutDictionary.

Export LayoutDictionary.

(** ** Concrete models and builders used as examples *)

Module Examples.

(** One element with the default layout and four boundary edges, one
    point, one explicit 2x2 piece over the coefficients 1, 2, 3, 4. *)
Definition one_patch : IGAData :=
  mkIGAData (text "tspline-g0")
    [0x3FF0000000000000; 0x4000000000000000; 0x4008000000000000; 0x4010000000000000]
    [mkPoint3d 0 0 0 Double.one]
    [mkPiece2D 0x00020002 0 INVALID_INDEX 0]
    [INVALID_INDEX; INVALID_INDEX; INVALID_INDEX; INVALID_INDEX]
    []
    []
    [mkElem 1 0 4].

(** No layout stored, and one element of layout 0 that owns three edges. *)
Definition three_edged : IGAData :=
  mkIGAData (text "unknown") [] [] []
    [INVALID_INDEX; INVALID_INDEX; INVALID_INDEX] [] []
    [mkElem 0 0 3].

(** A model that holds coefficients and nothing else. *)
Definition coeffs_only (coeffs : list double) : IGAData :=
  mkIGAData (text "unknown") coeffs [] [] [] [] [] [].

(** [IGA_MAX_ALLOC / sizeof( double )] coefficients, all [0.0]. *)
Definition many_coeffs : IGAData :=
  coeffs_only (repeat Double.zero (N.to_nat 32000000)).

(** The magic, the [IGAFILE] block and an [EDGES] block of two edges,
    then three bytes where the next header would start. *)
Definition truncated_file : list byte :=
  text "#TSS0001"
  ++ block_bytes (text "IGAFILE") [] 0
  ++ block_bytes (text "EDGES") (vector_bytes Wire_uint32_t [INVALID_INDEX; 0]) 0
  ++ [Byte.x0a; Byte.x42; Byte.x4c].

Definition new_builder : IGACreator := IGACreator_new IGAData_default.

(** A layout with two edges on its bottom side. *)
Definition t_junction : FaceLayout := mkFaceLayout 0 2 3 4 5.

(** A layout with two edges on its left side. *)
Definition t_junction_left : FaceLayout := mkFaceLayout 0 1 2 3 5.

(** The builder after a direct [addLayout( t_junction )]. *)
Definition after_addLayout : IGACreator := snd (addLayout t_junction new_builder).

End Examples.

(** ** The other accessors of [class IGAData] (IGAData.cpp) *)

Module MoreAccessors.

(** [side_range[ i ]] of a layout; the array has five cells. *)
Definition side_range (l : FaceLayout) (i : Z) : option uint32_t :=
  at_index (side_range_list l) i.

(** [uint32_t IGAData::edgeOther( uint32_t edge_index ) const] *)
Definition edgeOther (g : IGAData) (edge_index : uint32_t) : option uint32_t :=
  at_index (mEdges g) edge_index.

(** [uint32_t IGAData::elemCount() const] *)
Definition elemCount (g : IGAData) : uint32_t := wrap32 (size (mElems g)).

(** [uint32_t IGAData::elemEdgesOnSide( uint32_t elem_index, int side ) const] *)
Definition elemEdgesOnSide (g : IGAData) (elem_index : uint32_t) (side : Z)
  : option uint32_t :=
  match at_index (mElems g) elem_index with
  | None => None
  | Some elem =>
      match layout g (layout_index elem) with
      | None => None
      | Some elem_layout =>
          match side_range elem_layout (side + 1), side_range elem_layout side with
          | Some hi, Some lo => Some (wrap32 (hi - lo))
          | _, _ => None
          end
      end
  end.

(** [uint32_t IGAData::layoutIndex( uint32_t elem_index ) const] *)
Definition layoutIndex (g : IGAData) (elem_index : uint32_t) : option uint32_t :=
  option_map layout_index (at_index (mElems g) elem_index).

(** [uint32_t IGAData::pieceBegin( uint32_t elem_index ) const] *)
Definition pieceBegin (g : IGAData) (elem_index : uint32_t) : option uint32_t :=
  if elem_index =? 0 then Some 0
  else option_map piece_end_index (at_index (mElems g) (elem_index - 1)).

(** [uint32_t IGAData::pieceEnd( uint32_t elem_index ) const] *)
Definition pieceEnd (g : IGAData) (elem_index : uint32_t) : option uint32_t :=
  option_map piece_end_index (at_index (mElems g) elem_index).

(** [bool IGAData::pieceIsExplicit( uint32_t piece_index ) const] *)
Definition pieceIsExplicit (g : IGAData) (piece_index : uint32_t) : option bool :=
  option_map (fun p => maybe_t_index p =? INVALID_INDEX) (at_index (mPieces g) piece_index).

(** [bool IGAData::pieceIsTensor( uint32_t piece_index ) const] *)
Definition pieceIsTensor (g : IGAData) (piece_index : uint32_t) : option bool :=
  option_map (fun p => negb (maybe_t_index p =? INVALID_INDEX))
    (at_index (mPieces g) piece_index).

(** [const Point3d &IGAData::piecePoint( uint32_t piece_index ) const] *)
Definition piecePoint (g : IGAData) (piece_index : uint32_t) : option Point3d :=
  match at_index (mPieces g) piece_index with
  | None => None
  | Some p => at_index (mPoints g) (pt_index p)
  end.

(** [uint32_t IGAData::piecePointIndex( uint32_t piece_index ) const] *)
Definition piecePointIndex (g : IGAData) (piece_index : uint32_t) : option uint32_t :=
  option_map pt_index (at_index (mPieces g) piece_index).

(** [const uint32_t IGAData::pieceSIndex( uint32_t piece_index ) const] *)
Definition pieceSIndex (g : IGAData) (piece_index : uint32_t) : option uint32_t :=
  option_map s_index (at_index (mPieces g) piece_index).

(** [int IGAData::pieceSOrder( uint32_t piece_index ) const] *)
Definition pieceSOrder (g : IGAData) (piece_index : uint32_t) : option Z :=
  option_map (fun p => Z.land (st_order p) 0xFFFF) (at_index (mPieces g) piece_index).

(** [const uint32_t IGAData::pieceTIndex( uint32_t piece_index ) const] *)
Definition pieceTIndex (g : IGAData) (piece_index : uint32_t) : option uint32_t :=
  option_map maybe_t_index (at_index (mPieces g) piece_index).

(** [int IGAData::pieceTOrder( uint32_t piece_index ) const] *)
Definition pieceTOrder (g : IGAData) (piece_index : uint32_t) : option Z :=
  option_map (fun p => Z.shiftr (st_order p) 16) (at_index (mPieces g) piece_index).

(** [uint32_t IGAData::pointCount() const] *)
Definition pointCount (g : IGAData) : uint32_t := wrap32 (size (mPoints g)).

(** [uint32_t IGAData::sideBegin( uint32_t elem_index, int side ) const] *)
Definition sideBegin (g : IGAData) (elem_index : uint32_t) (side : Z) : option uint32_t :=
  match at_index (mElems g) elem_index with
  | None => None
  | Some elem =>
      match layout g (layout_index elem) with
      | None => None
      | Some elem_layout => side_range elem_layout side
      end
  end.

(** [uint32_t IGAData::sideEnd( uint32_t elem_index, int side ) const] *)
Definition sideEnd (g : IGAData) (elem_index : uint32_t) (side : Z) : option uint32_t :=
  match at_index (mElems g) elem_index with
  | None => None
  | Some elem =>
      match layout g (layout_index elem) with
      | None => None
      | Some elem_layout => side_range elem_layout (side + 1)
      end
  end.

(** [&mCoeffs[ i ]]: the coefficients from cell [i] on, which is what the
    returned pointer gives access to. *)
Definition coeffs_from (g : IGAData) (i : uint32_t) : option (list double) :=
  if (i <? 0) || (size (mCoeffs g) <=? i) then None
  else Some (skipn (Z.to_nat i) (mCoeffs g)).

(** [const double *IGAData::pieceExplicitCoeffs( uint32_t piece_index ) const]
    and [const double *IGAData::pieceSCoeffs( uint32_t piece_index ) const],
    which have the same body. *)
Definition pieceSCoeffs (g : IGAData) (piece_index : uint32_t) : option (list double) :=
  match at_index (mPieces g) piece_index with
  | None => None
  | Some p => coeffs_from g (s_index p)
  end.

Definition pieceExplicitCoeffs (g : IGAData) (piece_index : uint32_t)
  : option (list double) :=
  pieceSCoeffs g piece_index.

(** [const double *IGAData::pieceTCoeffs( uint32_t piece_index ) const] *)
Definition pieceTCoeffs (g : IGAData) (piece_index : uint32_t) : option (list double) :=
  match at_index (mPieces g) piece_index with
  | None => None
  | Some p => coeffs_from g (maybe_t_index p)
  end.

(** The cells [i .. i + n - 1] of a vector. *)
Definition run_at {A} (vec : list A) (i : Z) (n : nat) : list A :=
  firstn n (skipn (Z.to_nat i) vec).

End MoreAccessors.

Export MoreAccessors.

(** ** More concrete models, builders and files *)

Module MoreExamples.

(** One element with the default layout, one point and one tensor piece of
    orders 1 x 1 over the coefficients 1, 1. *)
Definition tensor_patch : IGAData :=
  mkIGAData (text "tspline-g0")
    [Double.one; Double.one]
    [mkPoint3d 0 0 0 Double.one]
    [mkPiece2D 0x00010001 0 1 0]
    [INVALID_INDEX; INVALID_INDEX; INVALID_INDEX; INVALID_INDEX]
    []
    []
    [mkElem 1 0 4].

(** Two elements: the first with the default layout, the second with a
    T-junction on its bottom side; layouts and intervals are stored. *)
Definition two_patches : IGAData :=
  mkIGAData (text "tspline-g0")
    [Double.one]
    [mkPoint3d 0 0 0 Double.one]
    [mkPiece2D 0x00010001 0 0 0]
    [1; INVALID_INDEX; INVALID_INDEX; INVALID_INDEX;
     0; 0; INVALID_INDEX; INVALID_INDEX; INVALID_INDEX]
    (repeat Double.one 9)
    [default_layout; mkFaceLayout 0 2 3 4 5]
    [mkElem 1 0 4; mkElem 1 1 9].

(** A builder that stores the default layout and four boundary edges, each
    with the interval 1. *)
Definition four_edges : IGACreator :=
  let edge := addEdge INVALID_INDEX Double.one in
  snd (edge (snd (edge (snd (edge (snd (edge
    (snd (getLayoutIndex default_layout Examples.new_builder))))))))).

End MoreExamples.

(** ** Vocabulary for the further properties *)

Module Vocabulary.

(** Every side of the layout has at least one edge. *)
Definition strictly_increasing (l : FaceLayout) : Prop :=
  side_range_0 l < side_range_1 l
  /\ side_range_1 l < side_range_2 l
  /\ side_range_2 l < side_range_3 l
  /\ side_range_3 l < side_range_4 l.

(** Two doubles that compare equal: the same point of the real line
    (so [0.0] and [-0.0] are alike), neither being a NaN. *)
Definition same_value (a b : double) : Prop :=
  Double.isnan a = false /\ Double.isnan b = false /\ Double.position a = Double.position b.

End Vocabulary.

Export Vocabulary.

(** ** Invariant of the builder's coefficient dictionary *)

Module CoeffDictionary.

(** Every entry of the coefficient lookup table has a key of finite values,
    shorter than [0x7FFF], and gives the index of a run of the dictionary
    that holds the key. *)
Definition coeff_lookup_sound (c : IGACreator) : Prop :=
  forall key i,
    In (key, i) (mCoeffLookup c) ->
    forallb Double.finite key = true
    /\ size key < 0x7FFF
    /\ 0 <= i
    /\ run_at (mCoeffs (mParent c)) i (length key) = key.

(** What the calls that add no coefficients leave alone. *)
Definition coeff_dictionary (c : IGACreator) : list double * list (CoeffVector * uint32_t) :=
  (mCoeffs (mParent c), mCoeffLookup c).

End CoeffDictionary.

Export CoeffDictionary.

(** ** Blocks of a file *)

Module Blocks.

(** The block types [readIGAFile] stores; every other type is skipped. *)
Definition known_block_types : list string :=
  ["SRFTYPE"; "VECDICT"; "PT3DW"; "2DPIECE"; "LAYOUT"; "EDGES"; "KNOTINT"; "SHAPE"]%string.

Definition is_known_block (tag : Z) : bool :=
  existsb (fun name => tag =? tagValue (text name)) known_block_types.

(** The block marker with a zero in place of its last character. *)
Definition BLOCK_nul : list byte := newline :: text "BLOCK:" ++ [nul].

(** The bytes of a file before its first stored block: the magic, and the
    [IGAFILE] block, which is empty. *)
Definition prologue_size : Z := 8 + (sizeof_BlockHeader + 8).

(** The 32 bytes of a [BlockHeader] whose [tag] is any 64-bit value, as
    they lie in a file. *)
Definition raw_header (tag id len : Z) : list byte :=
  BLOCK_text ++ le_split 8 tag ++ le_split 8 id ++ le_split 8 len.

(** The tag whose eight bytes are [EDGES] and three zero bytes. *)
Definition EDGES_zero_padded : Z := le_combine (text "EDGES" ++ [nul; nul; nul]).

End Blocks.

Export Blocks.

(** ** Layouts stored by the builder *)

Module StoredLayouts.

(** Every stored layout is found in the lookup table, under its index. *)
Definition registered (c : IGACreator) : Prop :=
  forall i layout,
    at_index (mLayouts (mParent c)) i = Some layout ->
    map_find FaceLayout_lt layout (mLayoutLookup c) = Some i.

End StoredLayouts.

Export StoredLayouts.

(* ================================================================== *)
(** * Properties *)

(** ** [tagValue] *)

Lemma store_length buf i b :
  (i < length buf)%nat -> length (store buf i b) = length buf.
Proof.
  intros H. unfold store.
  rewrite length_app, length_firstn. cbn [length]. rewrite length_skipn. lia.
Qed.

(** Writing the next byte after an already written prefix. *)
Lemma store_after_prefix (pre rest : list byte) b :
  rest <> [] ->
  store (pre ++ rest) (length pre) b = (pre ++ [b]) ++ tl rest.
Proof.
  intros H. unfold store. destruct rest as [|r rest]; [congruence|].
  rewrite firstn_app, firstn_all, Nat.sub_diag. cbn [firstn].
  rewrite app_nil_r.
  replace (S (length pre)) with (length (pre ++ [r])) by (rewrite length_app; cbn; lia).
  replace (pre ++ r :: rest) with ((pre ++ [r]) ++ rest) by (rewrite <- app_assoc; reflexivity).
  rewrite skipn_app, skipn_all, Nat.sub_diag. cbn [skipn tl app].
  rewrite <- app_assoc. reflexivity.
Qed.

Lemma nonnul_eqb b : nonnul b -> Byte.eqb b nul = false.
Proof.
  intros H. destruct (Byte.eqb b nul) eqn:E; [|reflexivity].
  apply Byte.byte_dec_bl in E. contradiction.
Qed.

(** The copy loop over a text of non-zero characters that fits: everything
    is copied, and the write pointer and the count advance together. *)
Lemma copy_loop_fits (s : list byte) : forall pre rest,
  Forall nonnul s ->
  (length pre + length s <= 8)%nat ->
  length rest = (8 - length pre)%nat ->
  copy_loop s (pre ++ rest) (length pre) (length pre)
  = ((pre ++ s) ++ skipn (length s) rest, length pre + length s, length pre + length s)%nat.
Proof.
  induction s as [|ch s IH]; intros pre rest Hnz Hlen Hrest.
  - cbn. rewrite app_nil_r, !Nat.add_0_r. reflexivity.
  - inversion Hnz as [|? ? Hch Hs]; subst. cbn [copy_loop length] in *.
    rewrite (nonnul_eqb _ Hch). cbn [negb andb].
    replace (length pre <? 8)%nat with true by (symmetry; apply Nat.ltb_lt; lia).
    assert (Hne : rest <> []) by (destruct rest; [cbn [length] in *; lia|congruence]).
    rewrite (store_after_prefix pre rest ch Hne).
    replace (S (length pre)) with (length (pre ++ [ch])) by (rewrite length_app; cbn; lia).
    rewrite (IH (pre ++ [ch]) (tl rest) Hs).
    + rewrite length_app. cbn [length].
      destruct rest as [|r rest]; [congruence|]. cbn [tl skipn].
      rewrite <- !app_assoc. cbn [app].
      replace (length pre + 1 + length s)%nat with (length pre + S (length s))%nat by lia.
      reflexivity.
    + rewrite length_app. cbn [length]. lia.
    + rewrite length_app. cbn [length].
      destruct rest; cbn [length tl] in *; [congruence|lia].
Qed.

(** Once eight characters are in, the copy loop stops whatever follows. *)
Lemma copy_loop_full (c buf : list byte) t : copy_loop c buf t 8 = (buf, t, 8%nat).
Proof.
  destruct c as [|ch c]; [reflexivity|]. cbn [copy_loop].
  replace (8 <? 8)%nat with false by reflexivity.
  rewrite andb_false_r. reflexivity.
Qed.

Lemma copy_loop_app (s1 : list byte) : forall s2 pre rest,
  Forall nonnul s1 ->
  (length pre + length s1 <= 8)%nat ->
  length rest = (8 - length pre)%nat ->
  copy_loop (s1 ++ s2) (pre ++ rest) (length pre) (length pre)
  = copy_loop s2 ((pre ++ s1) ++ skipn (length s1) rest)
      (length pre + length s1) (length pre + length s1).
Proof.
  induction s1 as [|ch s IH]; intros s2 pre rest Hnz Hlen Hrest.
  - cbn. rewrite app_nil_r, !Nat.add_0_r. reflexivity.
  - inversion Hnz as [|? ? Hch Hs]; subst. cbn [copy_loop length app] in *.
    rewrite (nonnul_eqb _ Hch). cbn [negb andb].
    replace (length pre <? 8)%nat with true by (symmetry; apply Nat.ltb_lt; lia).
    assert (Hne : rest <> []) by (destruct rest; [cbn [length] in *; lia|congruence]).
    rewrite (store_after_prefix pre rest ch Hne).
    replace (S (length pre)) with (length (pre ++ [ch])) by (rewrite length_app; cbn; lia).
    rewrite (IH s2 (pre ++ [ch]) (tl rest) Hs).
    + rewrite length_app. cbn [length].
      destruct rest as [|r rest]; [congruence|]. cbn [tl skipn].
      rewrite <- !app_assoc. cbn [app].
      replace (length pre + 1 + length s)%nat with (length pre + S (length s))%nat by lia.
      reflexivity.
    + rewrite length_app. cbn [length]. lia.
    + rewrite length_app. cbn [length].
      destruct rest; cbn [length tl] in *; [congruence|lia].
Qed.

(** The padding loop after [n < 8] copied characters. *)
Lemma pad_loop_after (pre rest : list byte) :
  (length pre < 8)%nat ->
  length rest = (8 - length pre)%nat ->
  pad_loop 8 (pre ++ rest) (length pre) (length pre)
  = pre ++ repeat hyphen (7 - length pre) ++ [newline].
Proof.
  intros Hlt Hrest.
  assert (Hgen : forall k pre rest, (length pre + k = 8)%nat -> length rest = k ->
            forall fuel, (k <= fuel)%nat ->
            pad_loop fuel (pre ++ rest) (length pre) (length pre)
            = pre ++ repeat hyphen (k - 1) ++ (if (k =? 0)%nat then [] else [newline])).
  { clear. induction k as [|k IH]; intros pre rest Hk Hr fuel Hf.
    - destruct rest; [|discriminate]. rewrite app_nil_r. cbn [repeat Nat.sub app Nat.eqb].
      rewrite app_nil_r.
      destruct fuel; cbn [pad_loop]; [reflexivity|].
      replace (length pre <? 8)%nat with false by (symmetry; apply Nat.ltb_ge; lia).
      reflexivity.
    - destruct fuel as [|fuel]; [lia|]. cbn [pad_loop].
      replace (length pre <? 8)%nat with true by (symmetry; apply Nat.ltb_lt; lia).
      assert (Hne : rest <> []) by (destruct rest; [cbn [length] in *; lia|congruence]).
      destruct (length pre =? 7)%nat eqn:E7.
      + apply Nat.eqb_eq in E7. assert (k = 0%nat) by lia. subst k.
        rewrite (store_after_prefix pre rest newline Hne).
        destruct rest as [|r [|r' rest]]; cbn in Hr; try lia. cbn [tl].
        rewrite app_nil_r. cbn [repeat Nat.sub app Nat.eqb].
        destruct fuel; cbn [pad_loop]; [reflexivity|].
        replace (S (length pre) <? 8)%nat with false by (symmetry; apply Nat.ltb_ge; lia).
        reflexivity.
      + apply Nat.eqb_neq in E7.
        rewrite (store_after_prefix pre rest hyphen Hne).
        replace (S (length pre)) with (length (pre ++ [hyphen])) by (rewrite length_app; cbn; lia).
        rewrite (IH (pre ++ [hyphen]) (tl rest)).
        * destruct k as [|k]; [lia|].
          cbn [Nat.eqb Nat.sub]. rewrite Nat.sub_0_r.
          rewrite <- app_assoc. cbn [app repeat]. reflexivity.
        * rewrite length_app. cbn [length]. lia.
        * destruct rest; cbn [length tl] in *; [congruence|lia].
        * lia. }
  rewrite (Hgen (8 - length pre)%nat pre rest) by lia.
  replace (8 - length pre - 1)%nat with (7 - length pre)%nat by lia.
  replace (8 - length pre =? 0)%nat with false by (symmetry; apply Nat.eqb_neq; lia).
  reflexivity.
Qed.

Lemma tagBytes_short (s : list byte) :
  Forall nonnul s -> (length s < 8)%nat ->
  tagBytes s = s ++ repeat hyphen (7 - length s) ++ [newline].
Proof.
  intros Hnz Hlt. unfold tagBytes.
  pose proof (copy_loop_fits s [] (repeat nul 8) Hnz) as H.
  cbn [app length Nat.add] in H. rewrite H by (cbn; lia).
  apply (pad_loop_after s (skipn (length s) (repeat nul 8))); [lia|].
  rewrite length_skipn, repeat_length. reflexivity.
Qed.

Lemma tagBytes_long (s : list byte) :
  Forall nonnul (firstn 8 s) -> (8 <= length s)%nat ->
  tagBytes s = firstn 8 s.
Proof.
  intros Hnz Hge. unfold tagBytes.
  rewrite <- (firstn_skipn 8 s) at 1.
  pose proof (copy_loop_app (firstn 8 s) (skipn 8 s) [] (repeat nul 8) Hnz) as H.
  assert (Hl : length (firstn 8 s) = 8%nat) by (rewrite length_firstn; lia).
  cbn [app length Nat.add] in H. rewrite H by (try rewrite Hl; cbn; lia).
  rewrite Hl. cbn [skipn repeat]. rewrite app_nil_r.
  rewrite copy_loop_full.
  cbn [pad_loop]. reflexivity.
Qed.

Lemma copy_loop_length (c : list byte) : forall buf t n,
  t = n -> length buf = 8%nat ->
  let '(buf', t', n') := copy_loop c buf t n in
  length buf' = 8%nat /\ t' = n'.
Proof.
  induction c as [|ch c IH]; intros buf t n Ht Hb; cbn [copy_loop]; [auto|].
  destruct (negb (Byte.eqb ch nul) && (n <? 8)%nat) eqn:E; [|auto].
  apply andb_prop in E. destruct E as [_ E]. apply Nat.ltb_lt in E.
  apply IH; [lia|]. rewrite store_length; lia.
Qed.

Lemma pad_loop_length fuel : forall buf t n,
  (t <= n)%nat -> length buf = 8%nat -> length (pad_loop fuel buf t n) = 8%nat.
Proof.
  induction fuel as [|fuel IH]; intros buf t n Ht Hb; cbn [pad_loop]; [exact Hb|].
  destruct (n <? 8)%nat eqn:E; [|exact Hb]. apply Nat.ltb_lt in E.
  destruct (n =? 7)%nat; (apply IH; [lia|rewrite store_length; lia]).
Qed.

Lemma tagBytes_length (s : list byte) : length (tagBytes s) = 8%nat.
Proof.
  unfold tagBytes.
  pose proof (copy_loop_length s (repeat nul 8) 0 0 eq_refl eq_refl) as H.
  destruct (copy_loop s (repeat nul 8) 0 0) as [[buf t] n].
  destruct H as [Hb Ht]. apply pad_loop_length; [lia|assumption].
Qed.

Lemma tagValue_bytes (s : list byte) : le_split 8 (tagValue s) = tagBytes s.
Proof.
  unfold tagValue. rewrite <- (tagBytes_length s) at 1. apply split_le_combine.
Qed.

Lemma tagValue_u64 (s : list byte) : is_u64 (tagValue s).
Proof.
  unfold tagValue, is_u64.
  pose proof (le_combine_bound (tagBytes s)) as H.
  rewrite tagBytes_length in H. exact H.
Qed.


(** A zero byte ends the text: what follows it is never read. *)
Lemma copy_loop_terminator (s : list byte) : forall junk buf t n,
  copy_loop (s ++ nul :: junk) buf t n = copy_loop s buf t n.
Proof.
  induction s as [|ch s IH]; intros junk buf t n; cbn [copy_loop app].
  - reflexivity.
  - destruct (negb (Byte.eqb ch nul) && (n <? 8)%nat); [apply IH|reflexivity].
Qed.

Lemma tagValue_terminator (s junk : list byte) :
  tagValue (s ++ nul :: junk) = tagValue s.
Proof. unfold tagValue, tagBytes. rewrite copy_loop_terminator. reflexivity. Qed.

(** C9.  For a text of [n] characters, none of them zero: when [n < 8] the
    eight bytes of the returned word, lowest first, are the [n] characters,
    then hyphens up to byte 6, then a line feed in byte 7; when [n >= 8]
    they are the first eight characters.  [tagValue] is a total function
    into the 64-bit words: there is no error path. *)
Theorem tagValue_pads_and_truncates (s : list byte) :
  Forall nonnul s ->
  ((length s < 8)%nat ->
     le_split 8 (tagValue s) = s ++ repeat hyphen (7 - length s) ++ [newline])
  /\ ((8 <= length s)%nat -> le_split 8 (tagValue s) = firstn 8 s)
  /\ is_u64 (tagValue s).
Proof.
  intros Hnz. rewrite tagValue_bytes. repeat split.
  - intros Hlt. apply tagBytes_short; assumption.
  - intros Hge. apply tagBytes_long; [|assumption].
    apply Forall_forall. intros b Hb.
    apply (proj1 (Forall_forall nonnul s) Hnz).
    rewrite <- (firstn_skipn 8 s). apply in_or_app. left. exact Hb.
  - apply tagValue_u64.
  - apply tagValue_u64.
Qed.

Lemma tagValue_pads_and_truncates_witness :
  le_split 8 (tagValue (text "EDGES")) = text "EDGES" ++ [hyphen; hyphen; newline]
  /\ le_split 8 (tagValue (text "TOOLONGTAG")) = text "TOOLONGT".
Proof.
  split.
  - apply (proj1 (tagValue_pads_and_truncates (text "EDGES")
                    ltac:(repeat constructor; discriminate))).
    cbn. lia.
  - apply (proj1 (proj2 (tagValue_pads_and_truncates (text "TOOLONGTAG")
                    ltac:(repeat constructor; discriminate)))).
    cbn. lia.
Defined.

(** ** The order on layouts *)

Lemma lexicographical_compare_Z_eq (a : list Z) : forall b,
  length a = length b ->
  lexicographical_compare Z.ltb a b = false ->
  lexicographical_compare Z.ltb b a = false ->
  a = b.
Proof.
  induction a as [|x a IH]; intros [|y b] Hlen Hab Hba; cbn [length] in Hlen;
    try discriminate; [reflexivity|].
  cbn [lexicographical_compare] in Hab, Hba.
  destruct (x <? y) eqn:Exy; [discriminate|].
  destruct (y <? x) eqn:Eyx; [discriminate|].
  apply Z.ltb_ge in Exy, Eyx. assert (x = y) by lia. subst y.
  f_equal. apply IH; [lia|assumption|assumption].
Qed.

(** Two layouts neither of which is less than the other are the same. *)
Lemma FaceLayout_equivalent_eq (a b : FaceLayout) :
  equivalent FaceLayout_lt a b = true -> a = b.
Proof.
  unfold equivalent, FaceLayout_lt. intros H.
  apply andb_prop in H. destruct H as [Hab Hba].
  apply negb_true_iff in Hab, Hba.
  pose proof (lexicographical_compare_Z_eq (side_range_list a) (side_range_list b)
                eq_refl Hab Hba) as Heq.
  destruct a, b. unfold side_range_list in Heq. cbn in Heq.
  injection Heq as -> -> -> -> ->. reflexivity.
Qed.

Lemma FaceLayout_differs (layout : FaceLayout) :
  layout <> default_layout ->
  FaceLayout_lt layout default_layout || FaceLayout_lt default_layout layout = true.
Proof.
  intros Hne.
  destruct (FaceLayout_lt layout default_layout || FaceLayout_lt default_layout layout) eqn:E;
    [reflexivity|].
  exfalso. apply Hne. apply FaceLayout_equivalent_eq. unfold equivalent.
  apply orb_false_elim in E. destruct E as [-> ->]. reflexivity.
Qed.

(** ** The accessors *)

(** C10.  An element index at or past the element count makes [edgeBegin]
    and [edgeEnd] return [INVALID_INDEX] without touching the array; index
    0 of a non-empty element array has edge begin 0. *)
Theorem edge_range_guards (g : IGAData) (elem_index : uint32_t) :
  (size (mElems g) <= elem_index ->
     edgeBegin g elem_index = Some INVALID_INDEX
     /\ edgeEnd g elem_index = Some INVALID_INDEX)
  /\ (mElems g <> [] -> edgeBegin g 0 = Some 0).
Proof.
  split.
  - intros Hge. unfold edgeBegin, edgeEnd.
    replace (size (mElems g) <=? elem_index) with true
      by (symmetry; apply Z.leb_le; exact Hge).
    split; reflexivity.
  - intros Hne. unfold edgeBegin, size.
    destruct (mElems g) as [|e l]; [congruence|].
    cbn [length]. rewrite Nat2Z.inj_succ.
    replace (Z.succ (Z.of_nat (length l)) <=? 0) with false
      by (symmetry; apply Z.leb_gt; lia).
    reflexivity.
Qed.

(** C6.  With an empty interval array the interval of every edge index is
    exactly [1.0]. *)
Theorem edgeInterval_uniform (g : IGAData) (edge_index : uint32_t) :
  mIntervals g = [] -> edgeInterval g edge_index = Some Double.one.
Proof. intros H. unfold edgeInterval. rewrite H. reflexivity. Qed.

Lemma edgeInterval_uniform_witness :
  edgeInterval IGAData_default 7 = Some Double.one.
Proof. apply (edgeInterval_uniform IGAData_default 7). reflexivity. Defined.

Lemma edge_range_guards_witness :
  edgeBegin Examples.one_patch 1 = Some INVALID_INDEX
  /\ edgeEnd Examples.one_patch 1 = Some INVALID_INDEX
  /\ edgeBegin Examples.one_patch 0 = Some 0.
Proof.
  pose proof (edge_range_guards Examples.one_patch 1) as [H1 H2].
  split; [|split].
  - apply H1. vm_compute. discriminate.
  - apply H1. vm_compute. discriminate.
  - apply H2. discriminate.
Defined.

(** ** The validator *)

(** C2 (the code departs from the claim).  With no layout stored, an
    element of layout 0 that owns three edges passes [isValid], although
    its resolved layout, the default one, has [side_range[4] = 4]: the
    edge count is compared only when the layout is physically stored. *)
Theorem isValid_skips_unstored_default_layout :
  isValid Examples.three_edged = true
  /\ edgeBegin Examples.three_edged 0 = Some 0
  /\ edgeEnd Examples.three_edged 0 = Some 3
  /\ elemEdgeCount Examples.three_edged 0 = Some 4.
Proof. repeat split. Qed.

(** *** What [isValid] does check about edge counts *)

Lemma at_index_nil {A} (i : Z) : at_index (@nil A) i = None.
Proof. unfold at_index. destruct (i <? 0); [reflexivity|]. destruct (Z.to_nat i); reflexivity. Qed.

Lemma at_index_of_nat {A} (vec : list A) (i : nat) : at_index vec (Z.of_nat i) = nth_error vec i.
Proof.
  unfold at_index.
  replace (Z.of_nat i <? 0) with false by (symmetry; apply Z.ltb_ge; lia).
  rewrite Nat2Z.id. reflexivity.
Qed.

(** A stored layout 0 that passes the layout loop is the default layout. *)
Lemma layouts_loop_head (layout : FaceLayout) (rest acc seen : list FaceLayout) :
  layouts_loop 0 (layout :: rest) acc = Some seen -> layout = default_layout.
Proof.
  cbn [layouts_loop Nat.eqb andb].
  destruct (FaceLayout_lt layout default_layout || FaceLayout_lt default_layout layout) eqn:E;
    [discriminate|].
  intros _. apply FaceLayout_equivalent_eq. unfold equivalent.
  apply orb_false_elim in E. destruct E as [-> ->]. reflexivity.
Qed.

(** Every element that passes the element loop and whose layout is stored
    owns as many edges as that layout has. *)
Lemma elems_loop_edge_counts (g : IGAData) (rest : list Elem) :
  forall last_edge_end last_piece_end r,
    elems_loop g rest last_edge_end last_piece_end = Some r ->
    forall (j : nat) (elem : Elem),
      nth_error rest j = Some elem ->
      0 <= layout_index elem < size (mLayouts g) ->
      exists layout,
        at_index (mLayouts g) (layout_index elem) = Some layout
        /\ wrap32 (edge_end_index elem
                   - match j with
                     | O => last_edge_end
                     | S j' => edge_end_index (nth j' rest elem)
                     end)
           = side_range_4 layout.
Proof.
  induction rest as [|e rest IH]; intros le lp r Hloop j elem Hnth Hidx.
  - destruct j; discriminate Hnth.
  - cbn [elems_loop] in Hloop.
    repeat match type of Hloop with
           | (if ?b then None else _) = Some _ =>
               destruct b eqn:?; [discriminate Hloop|]
           end.
    destruct j as [|j].
    + cbn [nth_error] in Hnth. injection Hnth as <-.
      replace (layout_index e <? size (mLayouts g)) with true in *
        by (symmetry; apply Z.ltb_lt; lia).
      destruct (at_index (mLayouts g) (layout_index e)) as [layout|] eqn:Eat.
      * exists layout. split; [reflexivity|].
        match goal with
        | H : negb (?a =? ?b) = false |- _ =>
            apply negb_false_iff in H; apply Z.eqb_eq in H; exact H
        end.
      * exfalso. unfold at_index in Eat.
        replace (layout_index e <? 0) with false in Eat by (symmetry; apply Z.ltb_ge; lia).
        apply nth_error_None in Eat. unfold size in Hidx. lia.
    + cbn [nth_error] in Hnth.
      destruct (IH _ _ _ Hloop j elem Hnth Hidx) as [layout [Hat Hcount]].
      exists layout. split; [exact Hat|].
      destruct j as [|j']; cbn [nth]; exact Hcount.
Qed.

(** When the layout of an element is physically stored, a model that
    passes [isValid] gives the element exactly the edges of its resolved
    layout: the defect of C2 is confined to layout 0 being absent. *)
Lemma isValid_edge_count_of_stored_layout (g : IGAData) (i : nat) (elem : Elem) :
  isValid g = true ->
  nth_error (mElems g) i = Some elem ->
  0 <= layout_index elem < size (mLayouts g) ->
  exists b e n,
    edgeBegin g (Z.of_nat i) = Some b
    /\ edgeEnd g (Z.of_nat i) = Some e
    /\ elemEdgeCount g (Z.of_nat i) = Some n
    /\ wrap32 (e - b) = n.
Proof.
  intros Hvalid Hnth Hidx. unfold isValid in Hvalid.
  repeat match type of Hvalid with
         | (if ?b then false else _) = true => destruct b eqn:?; [discriminate Hvalid|]
         | match ?o with Some _ => _ | None => false end = true =>
             destruct o eqn:?; [|discriminate Hvalid]
         | (let '(_, _) := ?p in _) = true => destruct p
         end.
  match goal with
  | H : elems_loop g (mElems g) 0 0 = Some _ |- _ =>
      destruct (elems_loop_edge_counts g (mElems g) 0 0 _ H i elem Hnth Hidx)
        as [layout [Hat Hcount]]
  end.
  assert (Hi : (i < length (mElems g))%nat) by (apply nth_error_Some; congruence).
  assert (Hlayout : Accessors.layout g (layout_index elem) = Some layout).
  { unfold Accessors.layout. destruct (layout_index elem =? 0) eqn:E0; [|exact Hat].
    apply Z.eqb_eq in E0. rewrite E0 in Hat.
    destruct (mLayouts g) as [|l0 ls] eqn:El; [rewrite at_index_nil in Hat; discriminate|].
    match goal with
    | H : layouts_loop 0 (l0 :: ls) [] = Some _ |- _ => apply layouts_loop_head in H; subst l0
    end.
    cbn in Hat. congruence. }
  assert (Hend : edgeEnd g (Z.of_nat i) = Some (edge_end_index elem)).
  { unfold edgeEnd.
    replace (size (mElems g) <=? Z.of_nat i) with false
      by (symmetry; apply Z.leb_gt; unfold size; lia).
    rewrite at_index_of_nat, Hnth. reflexivity. }
  assert (Hcnt : elemEdgeCount g (Z.of_nat i) = Some (side_range_4 layout)).
  { unfold elemEdgeCount. rewrite at_index_of_nat, Hnth, Hlayout. reflexivity. }
  destruct i as [|i'].
  - exists 0, (edge_end_index elem), (side_range_4 layout).
    repeat split; try assumption.
    unfold edgeBegin.
    replace (size (mElems g) <=? Z.of_nat 0) with false
      by (symmetry; apply Z.leb_gt; unfold size; lia).
    reflexivity.
  - exists (edge_end_index (nth i' (mElems g) elem)), (edge_end_index elem),
      (side_range_4 layout).
    repeat split; try assumption.
    unfold edgeBegin.
    replace (size (mElems g) <=? Z.of_nat (S i')) with false
      by (symmetry; apply Z.leb_gt; unfold size; lia).
    replace (Z.of_nat (S i') =? 0) with false by (symmetry; apply Z.eqb_neq; lia).
    replace (Z.of_nat (S i') - 1) with (Z.of_nat i') by lia.
    rewrite at_index_of_nat.
    rewrite (nth_error_nth' (mElems g) elem) by lia. reflexivity.
Qed.

(** ** The builder *)

Lemma safeAppend_cases {T} (sizeof_T : Z) (vec : list T) (value : T) :
  safeAppend sizeof_T vec value = (INVALID_INDEX, vec)
  \/ (size vec < INVALID_INDEX - 1
      /\ safeAppend sizeof_T vec value = (size vec, vec ++ [value])).
Proof.
  unfold safeAppend.
  destruct ((INVALID_INDEX - 1 <=? size vec) || (max_size sizeof_T <=? size vec)) eqn:E.
  - left. reflexivity.
  - right. apply orb_false_elim in E. destruct E as [E _]. apply Z.leb_gt in E.
    split; [exact E|].
    unfold wrap32. rewrite Z.mod_small; [reflexivity|].
    unfold size, INVALID_INDEX in *. lia.
Qed.

Lemma safeAppend_room {T} (sizeof_T : Z) (vec : list T) (value : T) :
  size vec < INVALID_INDEX - 1 -> size vec < max_size sizeof_T ->
  safeAppend sizeof_T vec value = (size vec, vec ++ [value]).
Proof.
  intros H1 H2.
  destruct (safeAppend_cases sizeof_T vec value) as [E | [_ E]]; [|exact E].
  unfold safeAppend in E.
  replace (INVALID_INDEX - 1 <=? size vec) with false in E by (symmetry; apply Z.leb_gt; lia).
  replace (max_size sizeof_T <=? size vec) with false in E by (symmetry; apply Z.leb_gt; lia).
  cbn [orb] in E. injection E as E _. unfold wrap32, size, INVALID_INDEX in *.
  rewrite Z.mod_small in E by lia. lia.
Qed.





(** *** The lookup tables *)

Section OrderedFacts.
Context {K V : Type} (less : K -> K -> bool).

(** After [m[ k ] = v], [m.find( k )] yields [v]. *)
Lemma map_find_assign (k : K) (v : V) (m : list (K * V)) :
  equivalent less k k = true ->
  map_find less k (map_assign less k v m) = Some v.
Proof.
  intros Hrefl. induction m as [|[k' v'] m IH]; cbn [map_assign map_find].
  - rewrite Hrefl. reflexivity.
  - destruct (equivalent less k k') eqn:E; cbn [map_find]; rewrite E; [reflexivity|exact IH].
Qed.

Lemma lexicographical_compare_irrefl (a : list K) :
  (forall x, less x x = false) -> lexicographical_compare less a a = false.
Proof.
  intros Hirr. induction a as [|x a IH]; cbn [lexicographical_compare]; [reflexivity|].
  rewrite Hirr. exact IH.
Qed.
End OrderedFacts.

Lemma Double_lt_irrefl (d : double) : Double.lt d d = false.
Proof. unfold Double.lt. rewrite Z.ltb_irrefl. apply andb_false_r. Qed.

Lemma CoeffVector_equivalent_refl (coeffs : CoeffVector) :
  equivalent CoeffVectorLessThan coeffs coeffs = true.
Proof.
  unfold equivalent, CoeffVectorLessThan.
  rewrite (lexicographical_compare_irrefl Double.lt coeffs Double_lt_irrefl). reflexivity.
Qed.

Lemma FaceLayout_equivalent_refl (layout : FaceLayout) :
  equivalent FaceLayout_lt layout layout = true.
Proof.
  unfold equivalent, FaceLayout_lt.
  rewrite (lexicographical_compare_irrefl Z.ltb _ Z.ltb_irrefl). reflexivity.
Qed.

Lemma addCoeffs_cases (coeffs : CoeffVector) (c : IGACreator) :
  addCoeffs coeffs c = (INVALID_INDEX, c)
  \/ (size (mCoeffs (mParent c)) < INVALID_INDEX
      /\ addCoeffs coeffs c
         = (size (mCoeffs (mParent c)),
            set_mParent c (set_mCoeffs (mParent c) (mCoeffs (mParent c) ++ coeffs)))).
Proof.
  unfold addCoeffs.
  destruct ((INVALID_INDEX <=? size (mCoeffs (mParent c)) + size coeffs)
            || (max_size sizeof_double <? size (mCoeffs (mParent c)) + size coeffs)
            || (0x7FFF <=? size coeffs)) eqn:E.
  - left. reflexivity.
  - right. apply orb_false_elim in E. destruct E as [E _].
    apply orb_false_elim in E. destruct E as [E _]. apply Z.leb_gt in E.
    assert (0 <= size coeffs) by (unfold size; lia).
    split; [lia|].
    unfold wrap32. rewrite Z.mod_small; [reflexivity|].
    unfold size, INVALID_INDEX in *. lia.
Qed.

(** C3.  For a vector of finite values and any builder, a second
    [getDictionaryIndex] of the same vector right after the first returns
    the same index and leaves the builder, hence the model and the length
    of its coefficient dictionary, as the first call left them. *)
Theorem getDictionaryIndex_twice (coeffs : CoeffVector) (c : IGACreator) :
  forallb Double.finite coeffs = true ->
  fst (getDictionaryIndex coeffs (snd (getDictionaryIndex coeffs c)))
  = fst (getDictionaryIndex coeffs c)
  /\ snd (getDictionaryIndex coeffs (snd (getDictionaryIndex coeffs c)))
     = snd (getDictionaryIndex coeffs c)
  /\ length (mCoeffs (mParent (snd (getDictionaryIndex coeffs
                                      (snd (getDictionaryIndex coeffs c))))))
     = length (mCoeffs (mParent (snd (getDictionaryIndex coeffs c)))).
Proof.
  intros Hfin.
  assert (Hsame : getDictionaryIndex coeffs (snd (getDictionaryIndex coeffs c))
                  = getDictionaryIndex coeffs c).
  { unfold getDictionaryIndex at 2 3. rewrite Hfin. cbn [negb].
    destruct (map_find CoeffVectorLessThan coeffs (mCoeffLookup c)) as [second|] eqn:Efind.
    - (* already in the table *)
      cbn [snd]. unfold getDictionaryIndex. rewrite Hfin, Efind. reflexivity.
    - destruct (addCoeffs_cases coeffs c) as [Ha|[Hlt Ha]]; rewrite Ha.
      + (* nothing could be appended *)
        rewrite Z.eqb_refl. cbn [snd].
        unfold getDictionaryIndex. rewrite Hfin, Efind, Ha. cbn [negb].
        rewrite Z.eqb_refl. reflexivity.
      + (* appended and recorded *)
        replace (size (mCoeffs (mParent c)) =? INVALID_INDEX) with false
          by (symmetry; apply Z.eqb_neq; lia).
        cbn [snd]. unfold getDictionaryIndex. rewrite Hfin. cbn [negb].
        cbn [mCoeffLookup set_mCoeffLookup set_mParent].
        rewrite (map_find_assign CoeffVectorLessThan coeffs _ _
                   (CoeffVector_equivalent_refl coeffs)).
        reflexivity. }
  rewrite Hsame. repeat split.
Qed.

Lemma getDictionaryIndex_twice_witness :
  fst (getDictionaryIndex [Double.one; Double.zero]
         (snd (getDictionaryIndex [Double.one; Double.zero] Examples.new_builder)))
  = fst (getDictionaryIndex [Double.one; Double.zero] Examples.new_builder)
  /\ snd (getDictionaryIndex [Double.one; Double.zero]
            (snd (getDictionaryIndex [Double.one; Double.zero] Examples.new_builder)))
     = snd (getDictionaryIndex [Double.one; Double.zero] Examples.new_builder)
  /\ length (mCoeffs (mParent (snd (getDictionaryIndex [Double.one; Double.zero]
               (snd (getDictionaryIndex [Double.one; Double.zero] Examples.new_builder))))))
     = length (mCoeffs (mParent (snd (getDictionaryIndex [Double.one; Double.zero]
                                        Examples.new_builder)))).
Proof.
  apply (getDictionaryIndex_twice [Double.one; Double.zero] Examples.new_builder).
  reflexivity.
Defined.

(** C4 (the code departs from the claim).  With [s_order = 0] the call
    divides by zero before any check of [s_order]: it has no defined
    result, where the claim expects [INVALID_INDEX]. *)
Theorem addExplicitPiece_zero_order_undefined :
  addExplicitPiece 0 0 [Double.one; Double.one] Examples.new_builder = Undefined.
Proof. reflexivity. Qed.

(** The defect for any point index, any builder and any vector that passes
    the size check. *)
Lemma addExplicitPiece_zero_order (pt_index : uint32_t) (coeffs : CoeffVector) (c : IGACreator) :
  size coeffs <= 0x7FFF * 0x7FFF ->
  addExplicitPiece 0 pt_index coeffs c = Undefined.
Proof.
  intros H. unfold addExplicitPiece.
  replace (0x7FFF * 0x7FFF <? size coeffs) with false
    by (symmetry; apply Z.ltb_ge; exact H).
  reflexivity.
Qed.

(** For every other [s_order] the call is defined, and it returns
    [INVALID_INDEX] and records nothing when an order is out of range or
    the orders do not multiply to the number of coefficients. *)
Lemma addExplicitPiece_rejects
  (s_order : Z) (pt_index : uint32_t) (coeffs : CoeffVector) (c : IGACreator) :
  s_order <> 0 ->
  - 2 ^ 31 <= s_order < 2 ^ 31 ->
  (exists r, addExplicitPiece s_order pt_index coeffs c = Returns r)
  /\ (s_order < 0 \/ 0x7FFF < s_order
      \/ 0x7FFF < Z.quot (size coeffs) s_order
      \/ s_order * Z.quot (size coeffs) s_order <> size coeffs ->
      addExplicitPiece s_order pt_index coeffs c = Returns (INVALID_INDEX, c)).
Proof.
  intros Hnz Hint. unfold addExplicitPiece.
  destruct (0x7FFF * 0x7FFF <? size coeffs) eqn:Ebig.
  { split; [eexists; reflexivity|reflexivity]. }
  apply Z.ltb_ge in Ebig.
  replace (s_order =? 0) with false by (symmetry; apply Z.eqb_neq; exact Hnz).
  assert (Hsz : 0 <= size coeffs) by (unfold size; lia).
  assert (Hw : wrap_int (size coeffs) = size coeffs).
  { unfold wrap_int. rewrite Z.mod_small; lia. }
  rewrite Hw.
  assert (Hq : - 2 ^ 31 <= Z.quot (size coeffs) s_order < 2 ^ 31).
  { assert (Hpos : forall b, 0 < b -> 0 <= Z.quot (size coeffs) b <= size coeffs).
    { intros b Hb. rewrite Z.quot_div_nonneg by lia. split.
      - apply Z.div_pos; lia.
      - apply Z.div_le_upper_bound; nia. }
    destruct (Z.lt_trichotomy s_order 0) as [Hneg|[Hz|Hp]]; [|lia|].
    - replace s_order with (- (- s_order)) by lia.
      rewrite Z.quot_opp_r by lia.
      specialize (Hpos (- s_order)). lia.
    - specialize (Hpos s_order). lia. }
  assert (Hwq : wrap_int (Z.quot (size coeffs) s_order) = Z.quot (size coeffs) s_order).
  { unfold wrap_int. rewrite Z.mod_small; lia. }
  rewrite Hwq.
  destruct ((s_order <? 0) || (0x7FFF <? s_order)
            || (Z.quot (size coeffs) s_order <? 0)
            || (0x7FFF <? Z.quot (size coeffs) s_order)) eqn:Erange.
  { split; [eexists; reflexivity|reflexivity]. }
  apply orb_false_elim in Erange. destruct Erange as [Erange E4].
  apply orb_false_elim in Erange. destruct Erange as [Erange E3].
  apply orb_false_elim in Erange. destruct Erange as [E1 E2].
  apply Z.ltb_ge in E1, E2, E3, E4.
  assert (Hprod : wrap64 (wrap64 s_order * wrap64 (Z.quot (size coeffs) s_order))
                  = s_order * Z.quot (size coeffs) s_order).
  { unfold wrap64. rewrite (Z.mod_small s_order), (Z.mod_small (Z.quot _ _)) by lia.
    apply Z.mod_small. nia. }
  rewrite Hprod.
  destruct (s_order * Z.quot (size coeffs) s_order =? size coeffs) eqn:Eexact; cbn [negb].
  - apply Z.eqb_eq in Eexact. split.
    + destruct (getDictionaryIndex coeffs c) as [s_idx c1].
      destruct (s_idx =? INVALID_INDEX); eexists; reflexivity.
    + intros [H|[H|[H|H]]]; lia.
  - split; [eexists; reflexivity|reflexivity].
Qed.

(** *** The layout dictionary *)

Section MapFacts.
Context {K V : Type} (less : K -> K -> bool).

(** [m[ k ] = v] for a key that [find] does not see adds one entry. *)
Lemma map_assign_fresh (k : K) (v : V) (m : list (K * V)) :
  map_find less k m = None -> map_assign less k v m = m ++ [(k, v)].
Proof.
  induction m as [|[k' v'] m IH]; cbn [map_find map_assign app]; [reflexivity|].
  destruct (equivalent less k k'); [discriminate|].
  intros H. rewrite (IH H). reflexivity.
Qed.

(** A key [find] sees is a key of the table, up to equivalence. *)
Lemma map_find_some (k : K) (v : V) (m : list (K * V)) :
  map_find less k m = Some v -> exists k', equivalent less k k' = true /\ In (k', v) m.
Proof.
  induction m as [|[k' v'] m IH]; cbn [map_find]; [discriminate|].
  destruct (equivalent less k k') eqn:E.
  - intros [= ->]. exists k'. split; [exact E|left; reflexivity].
  - intros H. destruct (IH H) as [k'' [He Hin]]. exists k''. split; [exact He|right; exact Hin].
Qed.
End MapFacts.

Lemma at_index_app_l {A} (l l' : list A) (i : Z) (x : A) :
  at_index l i = Some x -> at_index (l ++ l') i = Some x.
Proof.
  unfold at_index. destruct (i <? 0); [discriminate|].
  intros H. rewrite nth_error_app1; [exact H|].
  apply nth_error_Some. congruence.
Qed.

Lemma at_index_size {A} (l : list A) (x : A) : at_index (l ++ [x]) (size l) = Some x.
Proof.
  unfold at_index, size.
  replace (Z.of_nat (length l) <? 0) with false by (symmetry; apply Z.ltb_ge; lia).
  rewrite Nat2Z.id, nth_error_app2, Nat.sub_diag by lia. reflexivity.
Qed.

(** The members an operation other than [addLayout] and [getLayoutIndex]
    writes are not the layout dictionary. *)
Ltac frame_step :=
  match goal with
  | |- context [safeAppend ?s ?v ?x] =>
      destruct (safeAppend_cases s v x) as [-> | [_ ->]]
  | |- context [addCoeffs ?v ?c] =>
      destruct (addCoeffs_cases v c) as [-> | [_ ->]]
  | |- context [if ?b then _ else _] => destruct b
  | |- context [match ?o with Some _ => _ | None => _ end] => destruct o
  end.

Ltac frame := repeat frame_step; reflexivity.

Lemma getDictionaryIndex_dictionary (coeffs : CoeffVector) (c : IGACreator) :
  dictionary (snd (getDictionaryIndex coeffs c)) = dictionary c.
Proof. unfold getDictionaryIndex, dictionary. frame. Qed.

Lemma addPiece_dictionary (piece : Piece2D) (c : IGACreator) :
  dictionary (snd (addPiece piece c)) = dictionary c.
Proof. unfold addPiece, dictionary. frame. Qed.

Lemma call_dictionary (k : Call) (c c' : IGACreator) :
  call k c = Returns c' ->
  match k with
  | Call_addLayout layout => c' = snd (addLayout layout c)
  | Call_getLayoutIndex layout => c' = snd (getLayoutIndex layout c)
  | _ => dictionary c' = dictionary c
  end.
Proof.
  destruct k; cbn [call]; try (intros [= <-]);
    try reflexivity;
    try (unfold addCoeffs, addEdge, addElem, addPoint, setSurfaceType, dictionary; frame).
  - (* addExplicitPiece *)
    unfold addExplicitPiece.
    repeat match goal with
           | |- context [if ?b then _ else _] => destruct b
           end; try discriminate; try (intros [= <-]; reflexivity).
    all: destruct (getDictionaryIndex coeffs c) as [s_idx c1] eqn:Eg;
      pose proof (getDictionaryIndex_dictionary coeffs c) as Hd;
      rewrite Eg in Hd; cbn [snd] in Hd;
      destruct (s_idx =? INVALID_INDEX); intros [= <-]; cbn [snd];
      [exact Hd | rewrite addPiece_dictionary; exact Hd].
  - apply addPiece_dictionary.
  - (* addTensorPiece *)
    unfold addTensorPiece.
    destruct ((wrap_int (size s_coeffs) <? 0) || (32767 <? wrap_int (size s_coeffs))
              || (wrap_int (size t_coeffs) <? 0) || (32767 <? wrap_int (size t_coeffs)));
      [reflexivity|].
    destruct (getDictionaryIndex s_coeffs c) as [s_idx c1] eqn:Es.
    pose proof (getDictionaryIndex_dictionary s_coeffs c) as Hs.
    rewrite Es in Hs. cbn [snd] in Hs.
    destruct (s_idx =? INVALID_INDEX); [exact Hs|].
    destruct (getDictionaryIndex t_coeffs c1) as [t_idx c2] eqn:Et.
    pose proof (getDictionaryIndex_dictionary t_coeffs c1) as Ht.
    rewrite Et in Ht. cbn [snd] in Ht.
    destruct (t_idx =? INVALID_INDEX); cbn [snd]; [congruence|].
    rewrite addPiece_dictionary. congruence.
  - (* finishElem *)
    unfold finishElem.
    repeat match goal with
           | |- context [if ?b then _ else _] => destruct b
           | |- context [match ?o with Some _ => _ | None => _ end] => destruct o
           end; try reflexivity.
    all: unfold addElem, dictionary; frame.
  - apply getDictionaryIndex_dictionary.
Qed.

Lemma lookup_sound_empty (c : IGACreator) :
  lookup_sound c -> mLayouts (mParent c) = [] -> mLayoutLookup c = [].
Proof.
  intros Hs He. destruct (mLayoutLookup c) as [|[k i] m] eqn:El; [reflexivity|].
  specialize (Hs k i). rewrite El, He, at_index_nil in Hs.
  discriminate Hs. left. reflexivity.
Qed.

Lemma lookup_sound_new (parent : IGAData) : lookup_sound (IGACreator_new parent).
Proof. intros k i []. Qed.

Lemma default_first_new (parent : IGAData) : default_first (IGACreator_new parent).
Proof. left. reflexivity. Qed.

Lemma addLayout_cases (layout : FaceLayout) (c : IGACreator) :
  addLayout layout c = (INVALID_INDEX, set_mParent c (set_mLayouts (mParent c) (mLayouts (mParent c))))
  \/ (size (mLayouts (mParent c)) < INVALID_INDEX - 1
      /\ addLayout layout c
         = (size (mLayouts (mParent c)),
            set_mParent c (set_mLayouts (mParent c) (mLayouts (mParent c) ++ [layout])))).
Proof.
  unfold addLayout.
  destruct (safeAppend_cases sizeof_FaceLayout (mLayouts (mParent c)) layout) as [-> | [H ->]].
  - left. reflexivity.
  - right. split; [exact H|reflexivity].
Qed.

Lemma addLayout_lookup_sound (layout : FaceLayout) (c : IGACreator) :
  lookup_sound c -> lookup_sound (snd (addLayout layout c)).
Proof.
  intros Hs. destruct (addLayout_cases layout c) as [-> | [_ ->]]; cbn [snd];
    intros k i Hin; cbn [mLayoutLookup set_mParent mParent mLayouts set_mLayouts] in *.
  - apply Hs. exact Hin.
  - apply at_index_app_l. apply Hs. exact Hin.
Qed.

Lemma getLayoutIndex_lookup_sound (layout : FaceLayout) (c : IGACreator) :
  lookup_sound c -> lookup_sound (snd (getLayoutIndex layout c)).
Proof.
  intros Hs. unfold getLayoutIndex.
  destruct (map_find FaceLayout_lt layout (mLayoutLookup c)) eqn:Efind; [exact Hs|].
  destruct ((size (mLayouts (mParent c)) =? 0)
            && (FaceLayout_lt layout default_layout || FaceLayout_lt default_layout layout))
    eqn:Efirst.
  - (* the default layout goes in first *)
    apply andb_prop in Efirst. destruct Efirst as [Eempty Ediff].
    apply Z.eqb_eq in Eempty.
    assert (Hnil : mLayouts (mParent c) = []).
    { unfold size in Eempty. destruct (mLayouts (mParent c)); [reflexivity|].
      cbn [length] in Eempty. lia. }
    pose proof (lookup_sound_empty c Hs Hnil) as Hl.
    assert (Hneq : equivalent FaceLayout_lt layout default_layout = false).
    { unfold equivalent. apply orb_prop in Ediff. destruct Ediff as [-> | ->];
        [reflexivity|apply andb_false_r]. }
    unfold addLayout.
    cbn [mParent set_mParent set_mLayoutLookup mLayouts set_mLayouts mLayoutLookup].
    rewrite Hnil, Hl. cbn [map_assign app].
    rewrite (safeAppend_room sizeof_FaceLayout [default_layout] layout) by reflexivity.
    change (size [default_layout] =? INVALID_INDEX) with false.
    cbn [snd mLayoutLookup set_mLayoutLookup set_mParent mParent mLayouts set_mLayouts
         map_assign app].
    rewrite Hneq.
    intros k i [H|[H|[]]]; injection H as <- <-; reflexivity.
  - destruct (addLayout_cases layout c) as [Ea | [Hlt Ea]]; rewrite Ea.
    + rewrite Z.eqb_refl. cbn [snd]. intros k i Hin. apply Hs. exact Hin.
    + replace (size (mLayouts (mParent c)) =? INVALID_INDEX) with false
        by (symmetry; apply Z.eqb_neq; lia).
      cbn [snd]. intros k i.
      cbn [mLayoutLookup set_mLayoutLookup set_mParent mParent mLayouts set_mLayouts].
      rewrite (map_assign_fresh FaceLayout_lt layout _ _ Efind).
      intros Hin. apply in_app_or in Hin. destruct Hin as [Hin|[Hin|[]]].
      * apply at_index_app_l. apply Hs. exact Hin.
      * injection Hin as <- <-. apply at_index_size.
Qed.

Lemma getLayoutIndex_default_first (layout : FaceLayout) (c : IGACreator) :
  default_first c -> default_first (snd (getLayoutIndex layout c)).
Proof.
  intros Hd. unfold getLayoutIndex.
  destruct (map_find FaceLayout_lt layout (mLayoutLookup c)) eqn:Efind; [exact Hd|].
  destruct (mLayouts (mParent c)) as [|l0 ls] eqn:El.
  - (* the first layout ever added *)
    cbn [size length Z.of_nat Z.eqb andb].
    destruct (FaceLayout_lt layout default_layout || FaceLayout_lt default_layout layout)
      eqn:Ediff.
    + unfold addLayout.
      cbn [mParent set_mParent set_mLayoutLookup mLayouts set_mLayouts mLayoutLookup].
      rewrite El. cbn [app].
      rewrite (safeAppend_room sizeof_FaceLayout [default_layout] layout) by reflexivity.
      change (size [default_layout] =? INVALID_INDEX) with false.
      right. reflexivity.
    + assert (layout = default_layout) as ->.
      { apply FaceLayout_equivalent_eq. unfold equivalent.
        apply orb_false_elim in Ediff. destruct Ediff as [-> ->]. reflexivity. }
      unfold addLayout. rewrite El.
      rewrite (safeAppend_room sizeof_FaceLayout [] default_layout) by reflexivity.
      change (size (@nil FaceLayout) =? INVALID_INDEX) with false.
      right. reflexivity.
  - (* layout 0 is already there *)
    destruct Hd as [Hd|Hd]; [rewrite El in Hd; discriminate|].
    rewrite El in Hd. cbn [nth_error] in Hd. injection Hd as ->.
    replace ((size (default_layout :: ls) =? 0)
             && (FaceLayout_lt layout default_layout || FaceLayout_lt default_layout layout))
      with false
      by (unfold size; cbn [length]; rewrite Nat2Z.inj_succ;
          replace (Z.succ (Z.of_nat (length ls)) =? 0) with false
            by (symmetry; apply Z.eqb_neq; lia);
          reflexivity).
    destruct (addLayout_cases layout c) as [Ea | [Hlt Ea]]; rewrite Ea.
    + rewrite Z.eqb_refl. cbn [snd]. right.
      cbn [mParent set_mParent mLayouts set_mLayouts]. rewrite El. reflexivity.
    + replace (size (mLayouts (mParent c)) =? INVALID_INDEX) with false
        by (symmetry; apply Z.eqb_neq; lia).
      cbn [snd]. right.
      cbn [mLayoutLookup set_mLayoutLookup set_mParent mParent mLayouts set_mLayouts].
      rewrite El. reflexivity.
Qed.

Lemma dictionary_lookup_sound (c c' : IGACreator) :
  dictionary c' = dictionary c -> lookup_sound c -> lookup_sound c'.
Proof.
  unfold dictionary, lookup_sound. intros [= Hl Hm] Hs k i. rewrite Hl, Hm. apply Hs.
Qed.

Lemma dictionary_default_first (c c' : IGACreator) :
  dictionary c' = dictionary c -> default_first c -> default_first c'.
Proof. unfold dictionary, default_first. intros [= Hl Hm]. rewrite Hl. trivial. Qed.

Lemma call_lookup_sound (k : Call) (c c' : IGACreator) :
  call k c = Returns c' -> lookup_sound c -> lookup_sound c'.
Proof.
  intros Hcall Hs. pose proof (call_dictionary k c c' Hcall) as H.
  destruct k; try (exact (dictionary_lookup_sound _ _ H Hs)); subst c'.
  - apply addLayout_lookup_sound. exact Hs.
  - apply getLayoutIndex_lookup_sound. exact Hs.
Qed.

Lemma call_default_first (k : Call) (c c' : IGACreator) :
  not_addLayout k = true -> call k c = Returns c' -> default_first c -> default_first c'.
Proof.
  intros Hk Hcall Hd. pose proof (call_dictionary k c c' Hcall) as H.
  destruct k; try (exact (dictionary_default_first _ _ H Hd)); subst c'.
  - discriminate Hk.
  - apply getLayoutIndex_default_first. exact Hd.
Qed.

(** Both invariants along a sequence of calls. *)
Lemma run_lookup_sound (calls : list Call) : forall c c',
  run calls c = Returns c' -> lookup_sound c -> lookup_sound c'.
Proof.
  induction calls as [|k calls IH]; intros c c' Hrun Hs; cbn [run] in Hrun.
  - injection Hrun as <-. exact Hs.
  - destruct (call k c) as [c1|] eqn:Ek; [|discriminate].
    apply (IH c1 c' Hrun). apply (call_lookup_sound k c c1 Ek Hs).
Qed.

Lemma run_default_first (calls : list Call) : forall c c',
  forallb not_addLayout calls = true ->
  run calls c = Returns c' -> default_first c -> default_first c'.
Proof.
  induction calls as [|k calls IH]; intros c c' Hall Hrun Hd; cbn [run forallb] in *.
  - injection Hrun as <-. exact Hd.
  - apply andb_prop in Hall. destruct Hall as [Hk Hall].
    destruct (call k c) as [c1|] eqn:Ek; [|discriminate].
    apply (IH c1 c' Hall Hrun). apply (call_default_first k c c1 Hk Ek Hd).
Qed.

Lemma getLayoutIndex_success_nonempty (layout : FaceLayout) (c : IGACreator) :
  lookup_sound c ->
  fst (getLayoutIndex layout c) <> INVALID_INDEX ->
  mLayouts (mParent (snd (getLayoutIndex layout c))) <> [].
Proof.
  intros Hs. unfold getLayoutIndex.
  destruct (map_find FaceLayout_lt layout (mLayoutLookup c)) as [second|] eqn:Efind.
  - intros _. cbn [snd]. intros Hnil.
    destruct (map_find_some FaceLayout_lt layout second _ Efind) as [k' [_ Hin]].
    specialize (Hs k' second Hin). rewrite Hnil, at_index_nil in Hs. discriminate.
  - match goal with
    | |- context [addLayout layout ?c0] =>
        destruct (addLayout_cases layout c0) as [Ea | [Hlt Ea]]; rewrite Ea
    end.
    + rewrite Z.eqb_refl. cbn [fst]. congruence.
    + match goal with
      | |- context [?n =? INVALID_INDEX] =>
          replace (n =? INVALID_INDEX) with false by (symmetry; apply Z.eqb_neq; lia)
      end.
      intros _. cbn [snd mLayoutLookup set_mLayoutLookup set_mParent mParent mLayouts
                     set_mLayouts].
      intros Hnil. apply app_eq_nil in Hnil. destruct Hnil as [_ Hnil]. discriminate.
Qed.

Lemma getLayoutIndex_again (layout : FaceLayout) (c : IGACreator) :
  fst (getLayoutIndex layout c) <> INVALID_INDEX ->
  getLayoutIndex layout (snd (getLayoutIndex layout c)) = getLayoutIndex layout c.
Proof.
  unfold getLayoutIndex at 1 3 4.
  destruct (map_find FaceLayout_lt layout (mLayoutLookup c)) as [second|] eqn:Efind.
  - intros _. cbn [snd]. unfold getLayoutIndex. rewrite Efind. reflexivity.
  - match goal with
    | |- context [addLayout layout ?c0] =>
        destruct (addLayout_cases layout c0) as [Ea | [Hlt Ea]]; rewrite Ea
    end.
    + rewrite Z.eqb_refl. cbn [fst]. congruence.
    + match goal with
      | |- context [?n =? INVALID_INDEX] =>
          replace (n =? INVALID_INDEX) with false by (symmetry; apply Z.eqb_neq; lia)
      end.
      intros _. cbn [snd]. unfold getLayoutIndex.
      cbn [mLayoutLookup set_mLayoutLookup].
      rewrite (map_find_assign FaceLayout_lt layout _ _ (FaceLayout_equivalent_refl layout)).
      reflexivity.
Qed.

(** With a layout stored, [getLayoutIndex] leaves index 0 as it is. *)
Lemma getLayoutIndex_keeps_first (layout : FaceLayout) (c : IGACreator) :
  mLayouts (mParent c) <> [] ->
  nth_error (mLayouts (mParent (snd (getLayoutIndex layout c)))) 0
  = nth_error (mLayouts (mParent c)) 0.
Proof.
  intros Hne. unfold getLayoutIndex.
  destruct (map_find FaceLayout_lt layout (mLayoutLookup c)); [reflexivity|].
  destruct (mLayouts (mParent c)) as [|l0 ls] eqn:El; [congruence|].
  replace ((size (l0 :: ls) =? 0)
           && (FaceLayout_lt layout default_layout || FaceLayout_lt default_layout layout))
    with false
    by (unfold size; cbn [length]; rewrite Nat2Z.inj_succ;
        replace (Z.succ (Z.of_nat (length ls)) =? 0) with false
          by (symmetry; apply Z.eqb_neq; lia);
        reflexivity).
  destruct (addLayout_cases layout c) as [Ea | [Hlt Ea]]; rewrite Ea.
  - rewrite Z.eqb_refl. cbn [snd mParent set_mParent mLayouts set_mLayouts].
    rewrite El. reflexivity.
  - replace (size (mLayouts (mParent c)) =? INVALID_INDEX) with false
      by (symmetry; apply Z.eqb_neq; lia).
    cbn [snd mLayoutLookup set_mLayoutLookup set_mParent mParent mLayouts set_mLayouts].
    rewrite El. reflexivity.
Qed.

(** C7 (amended).  On a builder obtained from a new one by any calls:
    when the layout array is empty and the layout is not the default one,
    [getLayoutIndex] stores the default layout at index 0 and gives the
    layout index 1; after a successful [getLayoutIndex] the layout at
    index 0 is the default layout exactly when, before the call, the layout
    array was empty or had the default layout at index 0 already (direct
    calls of [addLayout] included, as long as the first layout they stored
    was the default one); a successful [getLayoutIndex] called again with
    the same layout returns the same index and changes nothing. *)
Theorem getLayoutIndex_default_layout_first
  (parent : IGAData) (calls : list Call) (c : IGACreator) (layout : FaceLayout) :
  run calls (IGACreator_new parent) = Returns c ->
  (mLayouts (mParent c) = [] -> layout <> default_layout ->
     fst (getLayoutIndex layout c) = 1
     /\ mLayouts (mParent (snd (getLayoutIndex layout c))) = [default_layout; layout])
  /\ (fst (getLayoutIndex layout c) <> INVALID_INDEX ->
      (nth_error (mLayouts (mParent (snd (getLayoutIndex layout c)))) 0
       = Some default_layout
       <-> (mLayouts (mParent c) = []
            \/ nth_error (mLayouts (mParent c)) 0 = Some default_layout)))
  /\ (fst (getLayoutIndex layout c) <> INVALID_INDEX ->
      getLayoutIndex layout (snd (getLayoutIndex layout c)) = getLayoutIndex layout c).
Proof.
  intros Hrun.
  pose proof (run_lookup_sound calls _ _ Hrun (lookup_sound_new parent)) as Hs.
  split; [|split].
  - intros Hnil Hne.
    pose proof (lookup_sound_empty c Hs Hnil) as Hl.
    unfold getLayoutIndex, addLayout. rewrite Hl. cbn [map_find].
    rewrite Hnil. change (size (@nil FaceLayout) =? 0) with true.
    rewrite (FaceLayout_differs layout Hne). cbn [andb].
    cbn [mParent set_mParent set_mLayoutLookup mLayouts set_mLayouts mLayoutLookup].
    rewrite Hnil. cbn [app].
    rewrite (safeAppend_room sizeof_FaceLayout [default_layout] layout) by reflexivity.
    change (size [default_layout] =? INVALID_INDEX) with false.
    split; reflexivity.
  - intros Hok. split.
    + intros H0.
      destruct (mLayouts (mParent c)) as [|l0 ls] eqn:El; [left; reflexivity|].
      right. rewrite <- El.
      rewrite <- (getLayoutIndex_keeps_first layout c) by (rewrite El; discriminate).
      exact H0.
    + intros Hd.
      destruct (getLayoutIndex_default_first layout c Hd) as [Hnil|H0]; [|exact H0].
      exfalso. exact (getLayoutIndex_success_nonempty layout c Hs Hok Hnil).
  - apply getLayoutIndex_again.
Qed.

Lemma getLayoutIndex_default_layout_first_witness :
  (fst (getLayoutIndex Examples.t_junction Examples.new_builder) = 1
   /\ mLayouts (mParent (snd (getLayoutIndex Examples.t_junction Examples.new_builder)))
      = [default_layout; Examples.t_junction]
   /\ nth_error (mLayouts (mParent (snd (getLayoutIndex Examples.t_junction
                                           Examples.new_builder)))) 0
      = Some default_layout
   /\ getLayoutIndex Examples.t_junction
        (snd (getLayoutIndex Examples.t_junction Examples.new_builder))
      = getLayoutIndex Examples.t_junction Examples.new_builder)
  /\ (fst (getLayoutIndex Examples.t_junction_left
             (snd (addLayout Examples.t_junction
                     (snd (addLayout default_layout Examples.new_builder))))) = 2
      /\ nth_error
           (mLayouts (mParent (snd (getLayoutIndex Examples.t_junction_left
              (snd (addLayout Examples.t_junction
                      (snd (addLayout default_layout Examples.new_builder)))))))) 0
         = Some default_layout).
Proof.
  split.
  - destruct (getLayoutIndex_default_layout_first IGAData_default [] Examples.new_builder
                Examples.t_junction eq_refl) as [H1 [H2 H3]].
    destruct (H1 eq_refl ltac:(discriminate)) as [H1a H1b].
    split; [exact H1a|]. split; [exact H1b|]. split.
    + apply H2; [rewrite H1a; discriminate|]. left. reflexivity.
    + apply H3. rewrite H1a. discriminate.
  - destruct (getLayoutIndex_default_layout_first IGAData_default
                [Call_addLayout default_layout; Call_addLayout Examples.t_junction]
                (snd (addLayout Examples.t_junction
                        (snd (addLayout default_layout Examples.new_builder))))
                Examples.t_junction_left eq_refl) as [_ [H2 _]].
    split; [reflexivity|].
    apply H2; [discriminate|]. right. reflexivity.
Defined.

(** C7, the claim as stated fails: after a direct [addLayout] of a layout
    that is not the default one, a [getLayoutIndex] of another layout
    succeeds, with index 1, and the layout at index 0 is not the default. *)
Lemma getLayoutIndex_after_direct_addLayout :
  run [Call_addLayout Examples.t_junction] Examples.new_builder
  = Returns Examples.after_addLayout
  /\ fst (getLayoutIndex Examples.t_junction_left Examples.after_addLayout) = 1
  /\ nth_error (mLayouts (mParent (snd (getLayoutIndex Examples.t_junction_left
                                          Examples.after_addLayout)))) 0
     = Some Examples.t_junction
  /\ Examples.t_junction <> default_layout.
Proof. repeat split. discriminate. Qed.

(** ** The reader *)

Lemma readData_some (n : Z) (src a b : list byte) :
  readData n src = Some (a, b) ->
  n <= size src /\ a = firstn (Z.to_nat n) src /\ b = skipn (Z.to_nat n) src.
Proof.
  unfold readData. destruct (n <=? size src) eqn:E; [|discriminate].
  apply Z.leb_le in E. intros [= <- <-]. auto.
Qed.

Lemma readData_rest (n : Z) (src a b : list byte) :
  0 <= n -> readData n src = Some (a, b) -> size b + n = size src.
Proof.
  intros Hn H. apply readData_some in H. destruct H as [Hle [_ ->]].
  unfold size in *. rewrite length_skipn. lia.
Qed.

(** A block read consumes its trailing length at least. *)
Lemma readBlock_rest {T} (W : Wire T) (dst vec : list T) (len : Z) (src src' : list byte) :
  readBlock W dst len src = Some (vec, src') -> size src' + 8 <= size src.
Proof.
  unfold readBlock.
  destruct (negb (len mod sizeof W =? 0)); [discriminate|].
  destruct (negb (len =? 0)).
  - destruct (IGA_MAX_ALLOC <=? len); [discriminate|].
    destruct (readData len src) as [[bytes src1]|] eqn:E1; [|discriminate].
    destruct (readData 8 src1) as [[final_len src2]|] eqn:E2; [|discriminate].
    destruct (negb (le_combine final_len =? len)); [discriminate|].
    intros [= _ <-].
    apply readData_rest in E2; [|lia].
    apply readData_some in E1. destruct E1 as [_ [_ ->]].
    unfold size in *. rewrite length_skipn in E2. lia.
  - destruct (readData 8 src) as [[final_len src2]|] eqn:E2; [|discriminate].
    destruct (negb (le_combine final_len =? len)); [discriminate|].
    intros [= _ <-]. apply readData_rest in E2; lia.
Qed.

Lemma read_body_rest (g g' : IGAData) (h : BlockHeader) (src src' : list byte) :
  read_body g h src = Some (g', src') -> size src' + 8 <= size src.
Proof.
  unfold read_body, set_field.
  repeat match goal with
         | |- context [if ?b then _ else _] => destruct b
         end; try discriminate;
    match goal with
    | |- context [readBlock ?W ?d ?l ?s] =>
        destruct (readBlock W d l s) as [[vec src1]|] eqn:E; [|discriminate]
    end;
    intros [= _ <-]; exact (readBlock_rest _ _ _ _ _ _ E).
Qed.

(** A whole block takes its header and its trailing length off the source. *)
Lemma read_one_block_rest (g g' : IGAData) (src src' : list byte) :
  read_one_block g src = Some (g', src') -> size src' + 40 <= size src.
Proof.
  unfold read_one_block.
  destruct (readData sizeof_BlockHeader src) as [[bytes src1]|] eqn:E; [|discriminate].
  intros H. apply read_body_rest in H.
  apply readData_rest in E; [|unfold sizeof_BlockHeader; lia].
  unfold sizeof_BlockHeader in E. lia.
Qed.

Lemma read_blocks_unfold (fuel : nat) (g g1 : IGAData) (src src1 : list byte) :
  read_one_block g src = Some (g1, src1) ->
  read_blocks (S fuel) g src = read_blocks fuel g1 src1.
Proof.
  unfold read_one_block. cbn [read_blocks].
  destruct (readData sizeof_BlockHeader src) as [[bytes src']|]; [|discriminate].
  intros ->. reflexivity.
Qed.

(** The loop never runs out of a fuel above the length of its source:
    with any two such fuels it gives the same result. *)
Lemma read_blocks_fuel (n : nat) : forall m g src,
  (length src < n)%nat -> (length src < m)%nat ->
  read_blocks n g src = read_blocks m g src.
Proof.
  induction n as [|n IH]; intros m g src Hn Hm; [lia|].
  destruct m as [|m]; [lia|]. cbn [read_blocks].
  destruct (readData sizeof_BlockHeader src) as [[bytes src1]|] eqn:E; [|reflexivity].
  destruct (read_body g (BlockHeader_of_bytes bytes) src1) as [[g2 src2]|] eqn:Eb;
    [|reflexivity].
  apply read_body_rest in Eb.
  apply readData_rest in E; [|unfold sizeof_BlockHeader; lia].
  unfold size, sizeof_BlockHeader in *. apply IH; lia.
Qed.

(** After whole blocks, a source too short for a header ends the loop
    with what was read. *)
Lemma read_blocks_enough (g g' : IGAData) (src src' : list byte) :
  blocks_read g src g' src' ->
  readData sizeof_BlockHeader src' = None ->
  forall fuel, (length src < fuel)%nat -> read_blocks fuel g src = Some g'.
Proof.
  induction 1 as [g src | g src g1 src1 g2 src2 Hone Hmore IH]; intros Hend fuel Hfuel.
  - destruct fuel as [|fuel]; [lia|]. cbn [read_blocks]. rewrite Hend. reflexivity.
  - destruct fuel as [|fuel]; [lia|].
    rewrite (read_blocks_unfold fuel g g1 src src1 Hone).
    apply IH; [exact Hend|].
    apply read_one_block_rest in Hone. unfold size in Hone. lia.
Qed.

(** C5.  Once the magic and the [IGAFILE] block are consumed and zero or
    more whole blocks are read, a failure to read the next 32-byte block
    header ends [readIGAFile] with success, and the geometry returned is
    the one the blocks read so far have filled. *)
Theorem readIGAFile_short_header_ends
  (geometry0 geometry : IGAData) (src src0 src1 : list byte) :
  read_prologue src = Some src0 ->
  blocks_read (clear geometry0) src0 geometry src1 ->
  readData sizeof_BlockHeader src1 = None ->
  readIGAFile geometry0 src = Some geometry.
Proof.
  intros Hpro Hblocks Hend. unfold readIGAFile. rewrite Hpro.
  apply (read_blocks_enough _ _ _ _ Hblocks Hend). lia.
Qed.

(** ** Object representations *)

Lemma le_combine_split_u32 (z : Z) : is_u32 z -> le_combine (le_split 4 z) = z.
Proof. intros H. rewrite le_combine_split. apply Z.mod_small. exact H. Qed.

Lemma le_combine_split_u64 (z : Z) : is_u64 z -> le_combine (le_split 8 z) = z.
Proof. intros H. rewrite le_combine_split. apply Z.mod_small. exact H. Qed.

Lemma size_le_split (n : nat) (z : Z) : size (le_split n z) = Z.of_nat n.
Proof. unfold size. rewrite length_le_split. reflexivity. Qed.

Lemma size_app {A} (a b : list A) : size (a ++ b) = size a + size b.
Proof. unfold size. rewrite length_app. lia. Qed.

Lemma size_nonneg {A} (a : list A) : 0 <= size a.
Proof. unfold size. lia. Qed.

Lemma Wire_char_ok : wire_ok Wire_char.
Proof. constructor; [reflexivity | reflexivity | reflexivity]. Qed.

Lemma Wire_uint32_t_ok : wire_ok Wire_uint32_t.
Proof.
  constructor; [reflexivity | reflexivity |].
  intros x Hx. exact (le_combine_split_u32 x Hx).
Qed.

Lemma Wire_double_ok : wire_ok Wire_double.
Proof.
  constructor; [reflexivity | reflexivity |].
  intros x Hx. exact (le_combine_split_u64 x Hx).
Qed.

Lemma Wire_Point3d_ok : wire_ok Wire_Point3d.
Proof.
  constructor; [reflexivity | reflexivity |].
  intros [x y z w] [Hx [Hy [Hz Hw]]]. cbn [pt_x pt_y pt_z pt_w] in *.
  cbn [of_bytes to_bytes Wire_Point3d pt_x pt_y pt_z pt_w]. unfold member.
  cbn [le_split app skipn firstn].
  f_equal;
    [exact (le_combine_split_u64 x Hx) | exact (le_combine_split_u64 y Hy)
    | exact (le_combine_split_u64 z Hz) | exact (le_combine_split_u64 w Hw)].
Qed.

Lemma Wire_Piece2D_ok : wire_ok Wire_Piece2D.
Proof.
  constructor; [reflexivity | reflexivity |].
  intros [a b c d] [Ha [Hb [Hc Hd]]]. cbn [st_order s_index maybe_t_index pt_index] in *.
  cbn [of_bytes to_bytes Wire_Piece2D st_order s_index maybe_t_index pt_index].
  unfold member. cbn [le_split app skipn firstn].
  f_equal;
    [exact (le_combine_split_u32 a Ha) | exact (le_combine_split_u32 b Hb)
    | exact (le_combine_split_u32 c Hc) | exact (le_combine_split_u32 d Hd)].
Qed.

Lemma Wire_FaceLayout_ok : wire_ok Wire_FaceLayout.
Proof.
  constructor; [reflexivity | reflexivity |].
  intros [a b c d e] [Ha [Hb [Hc [Hd He]]]].
  cbn [side_range_0 side_range_1 side_range_2 side_range_3 side_range_4] in *.
  cbn [of_bytes to_bytes Wire_FaceLayout
       side_range_0 side_range_1 side_range_2 side_range_3 side_range_4].
  unfold member. cbn [le_split app skipn firstn].
  f_equal;
    [exact (le_combine_split_u32 a Ha) | exact (le_combine_split_u32 b Hb)
    | exact (le_combine_split_u32 c Hc) | exact (le_combine_split_u32 d Hd)
    | exact (le_combine_split_u32 e He)].
Qed.

Lemma Wire_Elem_ok : wire_ok Wire_Elem.
Proof.
  constructor; [reflexivity | reflexivity |].
  intros [a b c] [Ha [Hb Hc]]. cbn [piece_end_index layout_index edge_end_index] in *.
  cbn [of_bytes to_bytes Wire_Elem piece_end_index layout_index edge_end_index].
  unfold member. cbn [le_split app skipn firstn].
  f_equal;
    [exact (le_combine_split_u32 a Ha) | exact (le_combine_split_u32 b Hb)
    | exact (le_combine_split_u32 c Hc)].
Qed.

Section Vectors.
Context {T : Type} (W : Wire T) (HW : wire_ok W).

Lemma vector_bytes_size (vec : list T) : size (vector_bytes W vec) = sizeof W * size vec.
Proof.
  induction vec as [|x vec IH]; unfold vector_bytes in *; cbn [flat_map].
  - unfold size. cbn [length]. lia.
  - rewrite size_app, IH, (to_bytes_size W HW). unfold size. cbn [length]. lia.
Qed.

(** A vector is read back from its own bytes. *)
Lemma vector_of_bytes_written (vec : list T) :
  Forall (in_range W) vec ->
  vector_of_bytes W (length vec) (vector_bytes W vec) = vec.
Proof.
  induction 1 as [|x vec Hx Hvec IH]; [reflexivity|].
  unfold vector_bytes in *. cbn [length vector_of_bytes flat_map].
  assert (Hlen : Z.to_nat (sizeof W) = length (to_bytes W x)).
  { pose proof (to_bytes_size W HW x) as H. unfold size in H. lia. }
  rewrite Hlen.
  rewrite firstn_app, firstn_all, Nat.sub_diag. cbn [firstn]. rewrite app_nil_r.
  rewrite skipn_app, skipn_all, Nat.sub_diag. cbn [skipn app].
  rewrite (of_to_bytes W HW x Hx), IH. reflexivity.
Qed.
End Vectors.

Lemma readData_app (n : Z) (a b : list byte) :
  size a = n -> readData n (a ++ b) = Some (a, b).
Proof.
  intros <-. unfold readData. rewrite size_app.
  replace (size a <=? size a + size b) with true
    by (symmetry; apply Z.leb_le; pose proof (size_nonneg b); lia).
  unfold size. rewrite Nat2Z.id.
  rewrite firstn_app, firstn_all, Nat.sub_diag. cbn [firstn]. rewrite app_nil_r.
  rewrite skipn_app, skipn_all, Nat.sub_diag. reflexivity.
Qed.

(** [readBlock] over the contents and the trailing length that
    [writeBlock] sent for a vector: the vector comes back, except that an
    empty one leaves the destination as it was. *)
Lemma readBlock_written {T} (W : Wire T) (HW : wire_ok W)
  (dst vec : list T) (rest : list byte) :
  Forall (in_range W) vec ->
  sizeof W * size vec < IGA_MAX_ALLOC ->
  readBlock W dst (sizeof W * size vec)
    (vector_bytes W vec ++ le_split 8 (sizeof W * size vec) ++ rest)
  = Some (match vec with [] => dst | _ :: _ => vec end, rest).
Proof.
  intros Hvec Hmax. pose proof (sizeof_pos W HW) as Hpos.
  pose proof (size_nonneg vec) as Hnn.
  unfold readBlock.
  rewrite (Z.mul_comm (sizeof W)), Z.mod_mul by lia. cbn [Z.eqb negb].
  rewrite Z.div_mul by lia.
  assert (Htrail : forall len, 0 <= len < IGA_MAX_ALLOC ->
            readData 8 (le_split 8 len ++ rest) = Some (le_split 8 len, rest)
            /\ le_combine (le_split 8 len) = len).
  { intros len Hlen. split.
    - apply readData_app. apply size_le_split.
    - apply le_combine_split_u64. unfold is_u64, IGA_MAX_ALLOC in *. lia. }
  destruct vec as [|x vec].
  - change (size (@nil T)) with 0. rewrite Z.mul_0_l. cbn [Z.eqb negb vector_bytes flat_map app].
    destruct (Htrail 0) as [-> ->]; [unfold IGA_MAX_ALLOC; lia|].
    reflexivity.
  - assert (Hsz : 0 < size (x :: vec)) by (unfold size; cbn [length]; lia).
    replace (size (x :: vec) * sizeof W =? 0) with false
      by (symmetry; apply Z.eqb_neq; nia).
    cbn [negb].
    rewrite (Z.mul_comm (size (x :: vec))).
    replace (IGA_MAX_ALLOC <=? sizeof W * size (x :: vec)) with false
      by (symmetry; apply Z.leb_gt; exact Hmax).
    rewrite readData_app by (apply vector_bytes_size; exact HW).
    destruct (Htrail (sizeof W * size (x :: vec))) as [-> ->]; [nia|].
    rewrite Z.eqb_refl. cbn [negb].
    unfold size at 1. rewrite Nat2Z.id.
    rewrite (vector_of_bytes_written W HW _ Hvec). reflexivity.
Qed.

(** A block whose length is at or above the ceiling is refused. *)
Lemma readBlock_over_ceiling {T} (W : Wire T) (dst : list T) (len : Z) (src : list byte) :
  IGA_MAX_ALLOC <= len -> readBlock W dst len src = None.
Proof.
  intros H. unfold readBlock.
  destruct (negb (len mod sizeof W =? 0)); [reflexivity|].
  replace (len =? 0) with false by (symmetry; apply Z.eqb_neq; unfold IGA_MAX_ALLOC in H; lia).
  replace (IGA_MAX_ALLOC <=? len) with true by (symmetry; apply Z.leb_le; exact H).
  reflexivity.
Qed.

(** ** The writer into memory and the reader over what it wrote *)

Lemma writeBlock_buffer (block_type contents : list byte) (id : Z) (sink : list byte) :
  writeBlock buffer_writeData block_type contents id sink
  = Some (sink ++ block_bytes block_type contents id).
Proof.
  unfold writeBlock, buffer_writeData, and_then, block_bytes, header_bytes.
  rewrite <- !app_assoc. reflexivity.
Qed.

Lemma header_bytes_size (block_type : list byte) (id len64 : Z) :
  size (header_bytes block_type id len64) = sizeof_BlockHeader.
Proof. reflexivity. Qed.

(** The header [writeBlock] sent is the header [readIGAFile] sees. *)
Lemma BlockHeader_of_header_bytes (block_type : list byte) (id len64 : Z) :
  is_u64 id -> is_u64 len64 ->
  BlockHeader_of_bytes (header_bytes block_type id len64)
  = mkBlockHeader BLOCK_text (tagValue block_type) id len64.
Proof.
  intros Hid Hlen. unfold BlockHeader_of_bytes, header_bytes, member.
  let v := eval vm_compute in BLOCK_text in change BLOCK_text with v.
  cbn [le_split app skipn firstn].
  f_equal;
    [exact (le_combine_split_u64 _ (tagValue_u64 block_type))
    | exact (le_combine_split_u64 id Hid) | exact (le_combine_split_u64 len64 Hlen)].
Qed.

(** One turn of the loop over a block that [writeBlock] sent: the header
    is read and recognised, and the body of the loop runs on the contents. *)
Lemma read_one_block_written (g : IGAData) (block_type contents rest : list byte) :
  size contents < 2 ^ 64 ->
  read_one_block g (block_bytes block_type contents 0 ++ rest)
  = read_body g (mkBlockHeader BLOCK_text (tagValue block_type) 0 (size contents))
      (contents ++ le_split 8 (size contents) ++ rest).
Proof.
  intros Hmax. pose proof (size_nonneg contents) as Hnn.
  unfold read_one_block, block_bytes.
  replace (wrap64 (size contents)) with (size contents)
    by (unfold wrap64; rewrite Z.mod_small; lia).
  rewrite <- !app_assoc.
  rewrite readData_app by apply header_bytes_size.
  rewrite BlockHeader_of_header_bytes;
    [reflexivity | unfold is_u64; lia | unfold is_u64; lia].
Qed.

(** The dispatch on the tag, for the tags the writer sends. *)
Ltac known_tag :=
  unfold read_body; cbn [block_tag tag block_len];
  rewrite Z.eqb_refl; cbn [negb];
  repeat match goal with
         | |- context [tagValue (text ?a) =? tagValue (text ?b)] =>
             let v := eval vm_compute in (tagValue (text a) =? tagValue (text b)) in
             change (tagValue (text a) =? tagValue (text b)) with v
         end;
  cbv iota.

Ltac written_block W HW :=
  let Hs := fresh "Hs" in
  intros ? Hs;
  rewrite read_one_block_written
    by (rewrite (vector_bytes_size W HW); unfold IGA_MAX_ALLOC in Hs; lia);
  known_tag;
  rewrite (vector_bytes_size W HW);
  rewrite (readBlock_written W HW) by assumption;
  reflexivity.

Lemma read_SRFTYPE (g : IGAData) (srf_type rest : list byte) :
  Forall (in_range Wire_char) srf_type ->
  sizeof Wire_char * size srf_type < IGA_MAX_ALLOC ->
  read_one_block g (block_bytes (text "SRFTYPE") (vector_bytes Wire_char srf_type) 0 ++ rest)
  = Some (set_mSrfType (clear g) srf_type, rest).
Proof.
  intros ? Hs.
  rewrite read_one_block_written
    by (rewrite (vector_bytes_size _ Wire_char_ok); unfold IGA_MAX_ALLOC in Hs; lia).
  known_tag.
  rewrite (vector_bytes_size _ Wire_char_ok).
  rewrite (readBlock_written _ Wire_char_ok) by assumption.
  destruct srf_type; reflexivity.
Qed.

Lemma read_VECDICT (g : IGAData) (vec : list double) (rest : list byte) :
  Forall (in_range Wire_double) vec ->
  sizeof Wire_double * size vec < IGA_MAX_ALLOC ->
  read_one_block g (block_bytes (text "VECDICT") (vector_bytes Wire_double vec) 0 ++ rest)
  = Some (set_mCoeffs g (match vec with [] => mCoeffs g | _ :: _ => vec end), rest).
Proof. written_block Wire_double Wire_double_ok. Qed.

Lemma read_PT3DW (g : IGAData) (vec : list Point3d) (rest : list byte) :
  Forall (in_range Wire_Point3d) vec ->
  sizeof Wire_Point3d * size vec < IGA_MAX_ALLOC ->
  read_one_block g (block_bytes (text "PT3DW") (vector_bytes Wire_Point3d vec) 0 ++ rest)
  = Some (set_mPoints g (match vec with [] => mPoints g | _ :: _ => vec end), rest).
Proof. written_block Wire_Point3d Wire_Point3d_ok. Qed.

Lemma read_2DPIECE (g : IGAData) (vec : list Piece2D) (rest : list byte) :
  Forall (in_range Wire_Piece2D) vec ->
  sizeof Wire_Piece2D * size vec < IGA_MAX_ALLOC ->
  read_one_block g (block_bytes (text "2DPIECE") (vector_bytes Wire_Piece2D vec) 0 ++ rest)
  = Some (set_mPieces g (match vec with [] => mPieces g | _ :: _ => vec end), rest).
Proof. written_block Wire_Piece2D Wire_Piece2D_ok. Qed.

Lemma read_LAYOUT (g : IGAData) (vec : list FaceLayout) (rest : list byte) :
  Forall (in_range Wire_FaceLayout) vec ->
  sizeof Wire_FaceLayout * size vec < IGA_MAX_ALLOC ->
  read_one_block g (block_bytes (text "LAYOUT") (vector_bytes Wire_FaceLayout vec) 0 ++ rest)
  = Some (set_mLayouts g (match vec with [] => mLayouts g | _ :: _ => vec end), rest).
Proof. written_block Wire_FaceLayout Wire_FaceLayout_ok. Qed.

Lemma read_EDGES (g : IGAData) (vec : list uint32_t) (rest : list byte) :
  Forall (in_range Wire_uint32_t) vec ->
  sizeof Wire_uint32_t * size vec < IGA_MAX_ALLOC ->
  read_one_block g (block_bytes (text "EDGES") (vector_bytes Wire_uint32_t vec) 0 ++ rest)
  = Some (set_mEdges g (match vec with [] => mEdges g | _ :: _ => vec end), rest).
Proof. written_block Wire_uint32_t Wire_uint32_t_ok. Qed.

Lemma read_KNOTINT (g : IGAData) (vec : list double) (rest : list byte) :
  Forall (in_range Wire_double) vec ->
  sizeof Wire_double * size vec < IGA_MAX_ALLOC ->
  read_one_block g (block_bytes (text "KNOTINT") (vector_bytes Wire_double vec) 0 ++ rest)
  = Some (set_mIntervals g (match vec with [] => mIntervals g | _ :: _ => vec end), rest).
Proof. written_block Wire_double Wire_double_ok. Qed.

Lemma read_SHAPE (g : IGAData) (vec : list Elem) (rest : list byte) :
  Forall (in_range Wire_Elem) vec ->
  sizeof Wire_Elem * size vec < IGA_MAX_ALLOC ->
  read_one_block g (block_bytes (text "SHAPE") (vector_bytes Wire_Elem vec) 0 ++ rest)
  = Some (set_mElems g (match vec with [] => mElems g | _ :: _ => vec end), rest).
Proof. written_block Wire_Elem Wire_Elem_ok. Qed.

(** The magic and the [IGAFILE] block that [writeIGAFile] sends first. *)
Lemma read_prologue_written (rest : list byte) :
  read_prologue (text "#TSS0001" ++ block_bytes (text "IGAFILE") [] 0 ++ rest) = Some rest.
Proof.
  unfold read_prologue.
  rewrite readData_app by reflexivity.
  change (strcmp_eq (text "#TSS0001") (text "#TSS0001")) with true. cbn [negb].
  unfold block_bytes. change (wrap64 (size (@nil byte))) with 0.
  rewrite <- !app_assoc.
  rewrite readData_app by apply header_bytes_size.
  rewrite BlockHeader_of_header_bytes by (unfold is_u64; lia).
  cbn [block_tag tag block_len]. rewrite !Z.eqb_refl. cbn [negb app].
  change 0 with (sizeof Wire_char * size (@nil byte)) at 1 2.
  change (le_split 8 (sizeof Wire_char * size (@nil byte)) ++ rest)
    with (vector_bytes Wire_char [] ++ le_split 8 (sizeof Wire_char * size (@nil byte)) ++ rest).
  rewrite (readBlock_written _ Wire_char_ok) by (constructor || reflexivity).
  reflexivity.
Qed.

(** The bytes [writeIGAFile] leaves in memory. *)
Lemma written_bytes (g : IGAData) :
  written g
  = Some (text "#TSS0001"
          ++ block_bytes (text "IGAFILE") [] 0
          ++ block_bytes (text "SRFTYPE") (vector_bytes Wire_char (mSrfType g)) 0
          ++ block_bytes (text "VECDICT") (vector_bytes Wire_double (mCoeffs g)) 0
          ++ block_bytes (text "PT3DW") (vector_bytes Wire_Point3d (mPoints g)) 0
          ++ block_bytes (text "2DPIECE") (vector_bytes Wire_Piece2D (mPieces g)) 0
          ++ block_bytes (text "LAYOUT") (vector_bytes Wire_FaceLayout (mLayouts g)) 0
          ++ block_bytes (text "EDGES") (vector_bytes Wire_uint32_t (mEdges g)) 0
          ++ (if 0 <? size (mIntervals g)
              then block_bytes (text "KNOTINT") (vector_bytes Wire_double (mIntervals g)) 0
              else [])
          ++ block_bytes (text "SHAPE") (vector_bytes Wire_Elem (mElems g)) 0).
Proof.
  unfold written, writeIGAFile, WRITE_BLOCK.
  unfold buffer_writeData at 1. cbn [and_then app].
  do 7 (rewrite writeBlock_buffer; cbn [and_then]).
  destruct (0 <? size (mIntervals g)).
  - do 2 (rewrite writeBlock_buffer; cbn [and_then]).
    rewrite <- !app_assoc. reflexivity.
  - cbn [and_then]. rewrite writeBlock_buffer.
    rewrite <- !app_assoc. reflexivity.
Qed.

Lemma readData_short (src : list byte) :
  size src < sizeof_BlockHeader -> readData sizeof_BlockHeader src = None.
Proof.
  intros H. unfold readData.
  replace (sizeof_BlockHeader <=? size src) with false by (symmetry; apply Z.leb_gt; exact H).
  reflexivity.
Qed.

Lemma filled_or_empty {A} (vec : list A) : match vec with [] => [] | _ :: _ => vec end = vec.
Proof. destruct vec; reflexivity. Qed.

(** The blocks of a model, read one after the other from a cleared
    geometry, rebuild the model. *)
Lemma blocks_read_written (g g0 : IGAData) :
  in_range_model g -> under_ceiling g ->
  blocks_read (clear g0)
    (block_bytes (text "SRFTYPE") (vector_bytes Wire_char (mSrfType g)) 0
     ++ block_bytes (text "VECDICT") (vector_bytes Wire_double (mCoeffs g)) 0
     ++ block_bytes (text "PT3DW") (vector_bytes Wire_Point3d (mPoints g)) 0
     ++ block_bytes (text "2DPIECE") (vector_bytes Wire_Piece2D (mPieces g)) 0
     ++ block_bytes (text "LAYOUT") (vector_bytes Wire_FaceLayout (mLayouts g)) 0
     ++ block_bytes (text "EDGES") (vector_bytes Wire_uint32_t (mEdges g)) 0
     ++ (if 0 <? size (mIntervals g)
         then block_bytes (text "KNOTINT") (vector_bytes Wire_double (mIntervals g)) 0
         else [])
     ++ block_bytes (text "SHAPE") (vector_bytes Wire_Elem (mElems g)) 0)
    g [].
Proof.
  intros [Hc [Hp [Hpc [He [Hi [Hl Hel]]]]]] [Us [Uc [Up [Upc [Ul [Ue [Ui Uel]]]]]]].
  destruct g as [srf coeffs points pieces edges intervals layouts elems].
  cbn [mSrfType mCoeffs mPoints mPieces mEdges mIntervals mLayouts mElems] in *.
  eapply blocks_read_more.
  { apply read_SRFTYPE; [|exact Us]. apply Forall_forall. intros; exact I. }
  eapply blocks_read_more; [apply read_VECDICT; assumption|].
  eapply blocks_read_more; [apply read_PT3DW; assumption|].
  eapply blocks_read_more; [apply read_2DPIECE; assumption|].
  eapply blocks_read_more; [apply read_LAYOUT; assumption|].
  eapply blocks_read_more; [apply read_EDGES; assumption|].
  unfold clear, IGAData_default.
  cbn [set_mSrfType set_mCoeffs set_mPoints set_mPieces set_mLayouts set_mEdges
       mSrfType mCoeffs mPoints mPieces mEdges mIntervals mLayouts mElems].
  rewrite !filled_or_empty.
  destruct intervals as [|d intervals].
  - change (0 <? size (@nil double)) with false. cbn [app].
    eapply blocks_read_more.
    { rewrite <- (app_nil_r (block_bytes _ _ _)). apply read_SHAPE; assumption. }
    cbn [set_mElems mSrfType mCoeffs mPoints mPieces mEdges mIntervals mLayouts mElems].
    rewrite filled_or_empty. apply blocks_read_none.
  - replace (0 <? size (d :: intervals)) with true
      by (symmetry; apply Z.ltb_lt; unfold size; cbn [length]; lia).
    eapply blocks_read_more; [apply read_KNOTINT; assumption|].
    eapply blocks_read_more.
    { rewrite <- (app_nil_r (block_bytes _ _ _)). apply read_SHAPE; assumption. }
    cbn [set_mElems set_mIntervals
         mSrfType mCoeffs mPoints mPieces mEdges mIntervals mLayouts mElems].
    rewrite filled_or_empty. apply blocks_read_none.
Qed.

(** The round trip for every model whose blocks are under the ceiling,
    valid or not. *)
Lemma readIGAFile_written (g geometry0 : IGAData) :
  in_range_model g -> under_ceiling g ->
  exists bytes, written g = Some bytes /\ readIGAFile geometry0 bytes = Some g.
Proof.
  intros Hr Hu. eexists. split; [apply written_bytes|].
  unfold readIGAFile. rewrite read_prologue_written.
  apply (read_blocks_enough _ _ _ _ (blocks_read_written g geometry0 Hr Hu)).
  - reflexivity.
  - lia.
Qed.

(** C1 (amended).  For every model that satisfies the invariants
    ([isValid] returns true) and whose blocks are each shorter than
    [IGA_MAX_ALLOC] bytes, [writeIGAFile] succeeds and [readIGAFile] on the
    bytes it produced succeeds and returns a model equal to the first in
    every member. *)
Theorem write_then_read_under_ceiling (g geometry0 : IGAData) :
  in_range_model g ->
  isValid g = true ->
  under_ceiling g ->
  exists bytes, written g = Some bytes /\ readIGAFile geometry0 bytes = Some g.
Proof. intros Hr _ Hu. exact (readIGAFile_written g geometry0 Hr Hu). Qed.

Lemma write_then_read_under_ceiling_witness :
  exists bytes,
    written Examples.one_patch = Some bytes
    /\ readIGAFile IGAData_default bytes = Some Examples.one_patch.
Proof.
  apply (write_then_read_under_ceiling Examples.one_patch IGAData_default).
  - unfold in_range_model, Examples.one_patch.
    cbn [mCoeffs mPoints mPieces mEdges mIntervals mLayouts mElems].
    repeat split;
      repeat (first [apply Forall_nil | apply Forall_cons]);
      cbn; unfold is_u64, is_u32, INVALID_INDEX, Double.one; lia.
  - reflexivity.
  - unfold under_ceiling. repeat split; reflexivity.
Defined.

Lemma readIGAFile_short_header_ends_witness :
  readIGAFile IGAData_default Examples.truncated_file
  = Some (set_mEdges IGAData_default [INVALID_INDEX; 0]).
Proof.
  apply (readIGAFile_short_header_ends IGAData_default
           (set_mEdges IGAData_default [INVALID_INDEX; 0])
           Examples.truncated_file
           (block_bytes (text "EDGES") (vector_bytes Wire_uint32_t [INVALID_INDEX; 0]) 0
            ++ [Byte.x0a; Byte.x42; Byte.x4c])
           [Byte.x0a; Byte.x42; Byte.x4c]).
  - vm_compute. reflexivity.
  - eapply blocks_read_more; [vm_compute; reflexivity|]. apply blocks_read_none.
  - reflexivity.
Defined.

(** *** Above the ceiling *)

Lemma read_blocks_refused (fuel : nat) (g : IGAData) (src bytes src' : list byte) :
  readData sizeof_BlockHeader src = Some (bytes, src') ->
  read_body g (BlockHeader_of_bytes bytes) src' = None ->
  read_blocks (S fuel) g src = None.
Proof. intros H1 H2. cbn [read_blocks]. rewrite H1, H2. reflexivity. Qed.

(** A [VECDICT] block of [IGA_MAX_ALLOC] bytes or more fails the read. *)
Lemma read_VECDICT_over_ceiling (fuel : nat) (g : IGAData) (vec : list double)
  (rest : list byte) :
  IGA_MAX_ALLOC <= sizeof Wire_double * size vec < 2 ^ 64 ->
  read_blocks (S fuel) g
    (block_bytes (text "VECDICT") (vector_bytes Wire_double vec) 0 ++ rest) = None.
Proof.
  intros [Hge Hlt].
  pose proof (read_one_block_written g (text "VECDICT") (vector_bytes Wire_double vec) rest)
    as Hone.
  rewrite (vector_bytes_size _ Wire_double_ok) in Hone. specialize (Hone Hlt).
  unfold read_one_block in Hone.
  destruct (readData sizeof_BlockHeader
              (block_bytes (text "VECDICT") (vector_bytes Wire_double vec) 0 ++ rest))
    as [[bytes src']|] eqn:Ehdr.
  - apply (read_blocks_refused fuel g _ bytes src' Ehdr). rewrite Hone.
    known_tag. rewrite readBlock_over_ceiling by exact Hge. reflexivity.
  - exfalso. unfold block_bytes in Ehdr. rewrite <- !app_assoc in Ehdr.
    rewrite readData_app in Ehdr by apply header_bytes_size. discriminate.
Qed.

Lemma forallb_finite_zeros (n : nat) : forallb Double.finite (repeat Double.zero n) = true.
Proof. induction n as [|n IH]; [reflexivity|]. cbn [repeat forallb]. rewrite IH. reflexivity. Qed.

Lemma size_repeat {A} (x : A) (n : nat) : size (repeat x n) = Z.of_nat n.
Proof. unfold size. rewrite repeat_length. reflexivity. Qed.

(** A model of [n] zero coefficients whose [VECDICT] block reaches the
    ceiling is valid and is written, and what was written is not read back. *)
Lemma zero_coeffs_not_read_back (n : nat) (geometry0 : IGAData) :
  IGA_MAX_ALLOC <= 8 * Z.of_nat n < 2 ^ 64 ->
  in_range_model (Examples.coeffs_only (repeat Double.zero n))
  /\ isValid (Examples.coeffs_only (repeat Double.zero n)) = true
  /\ exists bytes,
       written (Examples.coeffs_only (repeat Double.zero n)) = Some bytes
       /\ readIGAFile geometry0 bytes = None.
Proof.
  intros Hn. split; [|split].
  - unfold in_range_model, Examples.coeffs_only.
    cbn [mCoeffs mPoints mPieces mEdges mIntervals mLayouts mElems].
    repeat split; try apply Forall_nil.
    apply Forall_forall. intros x Hx. apply repeat_spec in Hx. subst x.
    cbn. unfold is_u64, Double.zero. lia.
  - unfold isValid, Examples.coeffs_only.
    cbn [mCoeffs mPoints mPieces mEdges mIntervals mLayouts mElems].
    rewrite forallb_finite_zeros. reflexivity.
  - eexists. split; [apply written_bytes|].
    unfold readIGAFile. rewrite read_prologue_written.
    match goal with
    | |- read_blocks (S (length ?src)) _ _ = _ =>
        rewrite (read_blocks_fuel (S (length src)) (S (S (length src)))) by lia
    end.
    unfold Examples.coeffs_only.
    cbn [mSrfType mCoeffs mPoints mPieces mEdges mIntervals mLayouts mElems].
    erewrite read_blocks_unfold.
    2:{ apply read_SRFTYPE; [apply Forall_forall; intros; exact I | reflexivity]. }
    apply read_VECDICT_over_ceiling.
    rewrite size_repeat. exact Hn.
Qed.

(** C1, the claim as stated fails: a valid model of 32,000,000 zero
    coefficients is written, and reading the bytes back fails, because its
    [VECDICT] block has [IGA_MAX_ALLOC] bytes. *)
Lemma many_coeffs_not_read_back :
  in_range_model Examples.many_coeffs
  /\ isValid Examples.many_coeffs = true
  /\ exists bytes,
       written Examples.many_coeffs = Some bytes
       /\ readIGAFile IGAData_default bytes = None.
Proof.
  apply (zero_coeffs_not_read_back (N.to_nat 32000000) IGAData_default).
  rewrite N_nat_Z. unfold IGA_MAX_ALLOC. change (Z.of_N 32000000) with 32000000. lia.
Qed.

(* ================================================================== *)
(** * Further properties *)

(** ** What a model that passes [isValid] guarantees *)

(** The checks of [isValid], one by one. *)
Lemma isValid_checks (g : IGAData) :
  isValid g = true ->
  forallb Double.finite (mCoeffs g) = true
  /\ forallb point_finite (mPoints g) = true
  /\ (exists layouts, layouts_loop 0 (mLayouts g) [] = Some layouts
                      /\ size layouts = size (mLayouts g))
  /\ (1 < size (mLayouts g) -> mIntervals g <> [])
  /\ forallb (piece_ok g) (mPieces g) = true
  /\ (mIntervals g = [] \/ size (mEdges g) = size (mIntervals g))
  /\ forallb interval_ok (mIntervals g) = true
  /\ forallb (edge_ok g) (mEdges g) = true
  /\ elems_loop g (mElems g) 0 0 = Some (size (mEdges g), size (mPieces g)).
Proof.
  intros Hvalid. unfold isValid in Hvalid.
  destruct (forallb Double.finite (mCoeffs g)); [|discriminate].
  destruct (forallb point_finite (mPoints g)); [|discriminate].
  cbn [negb] in Hvalid.
  destruct (layouts_loop 0 (mLayouts g) []) as [layouts|]; [|discriminate].
  destruct (size layouts =? size (mLayouts g)) eqn:Esize; [|discriminate].
  cbn [negb] in Hvalid.
  destruct ((1 <? size (mLayouts g)) && (size (mIntervals g) =? 0)) eqn:Emulti;
    [discriminate|].
  destruct (forallb (piece_ok g) (mPieces g)); [|discriminate].
  cbn [negb] in Hvalid.
  destruct (negb (size (mIntervals g) =? 0)
            && negb (size (mEdges g) =? size (mIntervals g))) eqn:Esync; [discriminate|].
  destruct (forallb interval_ok (mIntervals g)); [|discriminate].
  destruct (forallb (edge_ok g) (mEdges g)); [|discriminate].
  cbn [negb] in Hvalid.
  destruct (elems_loop g (mElems g) 0 0) as [[le lp]|]; [|discriminate].
  destruct (negb (le =? size (mEdges g)) || negb (lp =? size (mPieces g))) eqn:Eend;
    [discriminate|].
  apply orb_false_elim in Eend. destruct Eend as [Ee Ep].
  apply negb_false_iff in Ee, Ep. apply Z.eqb_eq in Ee, Ep. subst le lp.
  apply Z.eqb_eq in Esize.
  assert (Hempty : forall A (v : list A), (size v =? 0) = true -> v = []).
  { intros A v H. apply Z.eqb_eq in H. unfold size in H. destruct v; [reflexivity|].
    cbn [length] in H. lia. }
  repeat split; try reflexivity.
  - exists layouts. split; [reflexivity|exact Esize].
  - intros Hmany Hnil. rewrite Hnil in Emulti.
    replace (1 <? size (mLayouts g)) with true in Emulti
      by (symmetry; apply Z.ltb_lt; exact Hmany).
    discriminate Emulti.
  - destruct (size (mIntervals g) =? 0) eqn:E0.
    + left. apply Hempty. exact E0.
    + right. cbn [negb andb] in Esync. apply negb_false_iff in Esync.
      apply Z.eqb_eq in Esync. exact Esync.
Qed.

Lemma last_cons_default {A} (l : list A) : forall (x d d' : A),
  last (x :: l) d = last (x :: l) d'.
Proof.
  induction l as [|y l IH]; intros x d d'; [reflexivity|].
  change (last (x :: y :: l) d) with (last (y :: l) d).
  change (last (x :: y :: l) d') with (last (y :: l) d'). apply IH.
Qed.

(** What the element loop has checked when it reaches element [j]. *)
Lemma elems_loop_ranges (g : IGAData) (rest : list Elem) :
  forall last_edge_end last_piece_end r,
    elems_loop g rest last_edge_end last_piece_end = Some r ->
    (forall (j : nat) (elem : Elem),
       nth_error rest j = Some elem ->
       match j with
       | O => last_edge_end
       | S j' => edge_end_index (nth j' rest elem)
       end <= edge_end_index elem <= size (mEdges g)
       /\ match j with
          | O => last_piece_end
          | S j' => piece_end_index (nth j' rest elem)
          end <= piece_end_index elem <= size (mPieces g))
    /\ r = (edge_end_index (last rest (mkElem last_piece_end 0 last_edge_end)),
            piece_end_index (last rest (mkElem last_piece_end 0 last_edge_end))).
Proof.
  induction rest as [|e rest IH]; intros le lp r Hloop.
  - cbn [elems_loop] in Hloop. injection Hloop as <-. split; [|reflexivity].
    intros j elem Hnth. destruct j; discriminate Hnth.
  - cbn [elems_loop] in Hloop.
    repeat match type of Hloop with
           | (if ?b then None else _) = Some _ =>
               destruct b eqn:?; [discriminate Hloop|]
           end.
    destruct (IH _ _ _ Hloop) as [Hall Hr].
    repeat match goal with
           | H : (_ <? _) = false |- _ => apply Z.ltb_ge in H
           end.
    split.
    + intros j elem Hnth. destruct j as [|j].
      * cbn [nth_error] in Hnth. injection Hnth as <-. lia.
      * cbn [nth_error] in Hnth. specialize (Hall j elem Hnth).
        destruct j as [|j']; cbn [nth]; exact Hall.
    + rewrite Hr. destruct rest as [|e' rest']; [reflexivity|].
      change (last (e :: e' :: rest') (mkElem lp 0 le)) with (last (e' :: rest') (mkElem lp 0 le)).
      rewrite (last_cons_default rest' e' (mkElem lp 0 le)
                 (mkElem (piece_end_index e) 0 (edge_end_index e))).
      reflexivity.
Qed.

Lemma elems_loop_lower (g : IGAData) (rest : list Elem) :
  forall last_edge_end last_piece_end r,
    elems_loop g rest last_edge_end last_piece_end = Some r ->
    forall (j : nat) (elem : Elem),
      nth_error rest j = Some elem ->
      last_edge_end <= edge_end_index elem /\ last_piece_end <= piece_end_index elem.
Proof.
  induction rest as [|e rest IH]; intros le lp r Hloop j elem Hnth.
  - destruct j; discriminate Hnth.
  - cbn [elems_loop] in Hloop.
    repeat match type of Hloop with
           | (if ?b then None else _) = Some _ =>
               destruct b eqn:?; [discriminate Hloop|]
           end.
    repeat match goal with
           | H : (_ <? _) = false |- _ => apply Z.ltb_ge in H
           end.
    destruct j as [|j]; cbn [nth_error] in Hnth.
    + injection Hnth as <-. lia.
    + specialize (IH _ _ _ Hloop j elem Hnth). lia.
Qed.

Lemma nth_error_last {A} (l : list A) : forall (i : nat) (x d : A),
  nth_error l i = Some x -> S i = length l -> last l d = x.
Proof.
  induction l as [|y l IH]; intros i x d Hnth Hlen; [destruct i; discriminate|].
  destruct i as [|i]; cbn [nth_error length] in *.
  - destruct l; [|discriminate]. injection Hnth as <-. reflexivity.
  - destruct l as [|z l]; [destruct i; discriminate|].
    change (last (y :: z :: l) d) with (last (z :: l) d).
    apply (IH i); [exact Hnth|]. cbn [length] in *. lia.
Qed.

(** The ranges of an element of a valid model. *)
Lemma element_ranges_of_valid (g : IGAData) (i : nat) (elem : Elem) :
  isValid g = true ->
  nth_error (mElems g) i = Some elem ->
  exists b pb,
    edgeBegin g (Z.of_nat i) = Some b
    /\ edgeEnd g (Z.of_nat i) = Some (edge_end_index elem)
    /\ pieceBegin g (Z.of_nat i) = Some pb
    /\ pieceEnd g (Z.of_nat i) = Some (piece_end_index elem)
    /\ 0 <= b <= edge_end_index elem /\ edge_end_index elem <= size (mEdges g)
    /\ 0 <= pb <= piece_end_index elem /\ piece_end_index elem <= size (mPieces g)
    /\ (S i = length (mElems g) ->
        edge_end_index elem = size (mEdges g) /\ piece_end_index elem = size (mPieces g)).
Proof.
  intros Hvalid Hnth.
  destruct (isValid_checks g Hvalid) as [_ [_ [_ [_ [_ [_ [_ [_ Hloop]]]]]]]].
  destruct (elems_loop_ranges g (mElems g) 0 0 _ Hloop) as [Hranges Hlast].
  pose proof (Hranges i elem Hnth) as [He Hp].
  assert (Hi : (i < length (mElems g))%nat) by (apply nth_error_Some; congruence).
  assert (Hend : edgeEnd g (Z.of_nat i) = Some (edge_end_index elem)).
  { unfold edgeEnd.
    replace (size (mElems g) <=? Z.of_nat i) with false
      by (symmetry; apply Z.leb_gt; unfold size; lia).
    rewrite at_index_of_nat, Hnth. reflexivity. }
  assert (Hpend : pieceEnd g (Z.of_nat i) = Some (piece_end_index elem)).
  { unfold pieceEnd. rewrite at_index_of_nat, Hnth. reflexivity. }
  assert (Htile : S i = length (mElems g) ->
            edge_end_index elem = size (mEdges g)
            /\ piece_end_index elem = size (mPieces g)).
  { intros Hlen. rewrite (nth_error_last _ i elem _ Hnth Hlen) in Hlast.
    injection Hlast as H1 H2. split; congruence. }
  destruct i as [|i'].
  - exists 0, 0. repeat split; try assumption; try lia.
    unfold edgeBegin.
    replace (size (mElems g) <=? Z.of_nat 0) with false
      by (symmetry; apply Z.leb_gt; unfold size; lia).
    reflexivity.
  - assert (Hprev : nth_error (mElems g) i' = Some (nth i' (mElems g) elem))
      by (apply nth_error_nth'; lia).
    destruct (elems_loop_lower g (mElems g) 0 0 _ Hloop i' _ Hprev) as [Hle Hlp].
    exists (edge_end_index (nth i' (mElems g) elem)),
      (piece_end_index (nth i' (mElems g) elem)).
    repeat split; try assumption; try lia.
    + unfold edgeBegin.
      replace (size (mElems g) <=? Z.of_nat (S i')) with false
        by (symmetry; apply Z.leb_gt; unfold size; lia).
      replace (Z.of_nat (S i') =? 0) with false by (symmetry; apply Z.eqb_neq; lia).
      replace (Z.of_nat (S i') - 1) with (Z.of_nat i') by lia.
      rewrite at_index_of_nat, Hprev. reflexivity.
    + unfold pieceBegin.
      replace (Z.of_nat (S i') =? 0) with false by (symmetry; apply Z.eqb_neq; lia).
      replace (Z.of_nat (S i') - 1) with (Z.of_nat i') by lia.
      rewrite at_index_of_nat, Hprev. reflexivity.
Qed.

(** X1.  In a model that passes [isValid], the edge range and the piece
    range of every element are defined, ordered and inside the edge and
    piece arrays, and the ranges of the last element end at the ends of
    the two arrays. *)
Theorem isValid_element_ranges (g : IGAData) (i : nat) (elem : Elem) :
  isValid g = true ->
  nth_error (mElems g) i = Some elem ->
  exists b pb,
    edgeBegin g (Z.of_nat i) = Some b
    /\ edgeEnd g (Z.of_nat i) = Some (edge_end_index elem)
    /\ pieceBegin g (Z.of_nat i) = Some pb
    /\ pieceEnd g (Z.of_nat i) = Some (piece_end_index elem)
    /\ 0 <= b <= edge_end_index elem /\ edge_end_index elem <= size (mEdges g)
    /\ 0 <= pb <= piece_end_index elem /\ piece_end_index elem <= size (mPieces g)
    /\ (S i = length (mElems g) ->
        edge_end_index elem = size (mEdges g) /\ piece_end_index elem = size (mPieces g)).
Proof. exact (element_ranges_of_valid g i elem). Qed.

Lemma isValid_element_ranges_witness :
  exists b pb,
    edgeBegin Examples.one_patch (Z.of_nat 0) = Some b
    /\ edgeEnd Examples.one_patch (Z.of_nat 0) = Some 4
    /\ pieceBegin Examples.one_patch (Z.of_nat 0) = Some pb
    /\ pieceEnd Examples.one_patch (Z.of_nat 0) = Some 1
    /\ 0 <= b <= 4 /\ 4 <= size (mEdges Examples.one_patch)
    /\ 0 <= pb <= 1 /\ 1 <= size (mPieces Examples.one_patch)
    /\ (1%nat = length (mElems Examples.one_patch) ->
        4 = size (mEdges Examples.one_patch) /\ 1 = size (mPieces Examples.one_patch)).
Proof.
  exact (isValid_element_ranges Examples.one_patch 0 (mkElem 1 0 4) eq_refl eq_refl).
Defined.

Lemma forallb_nth_error {A} (f : A -> bool) (l : list A) (i : nat) (x : A) :
  forallb f l = true -> nth_error l i = Some x -> f x = true.
Proof.
  intros Hall Hnth. apply (proj1 (forallb_forall f l) Hall).
  apply nth_error_In with (n := i). exact Hnth.
Qed.

(** X2.  In a model that passes [isValid], every edge index below the
    edge count has a defined target, which is [INVALID_INDEX] or the index
    of an element, and a defined interval, which is finite and not
    negative. *)
Theorem isValid_edges (g : IGAData) (e : nat) :
  isValid g = true ->
  (e < length (mEdges g))%nat ->
  exists other interval,
    edgeOther g (Z.of_nat e) = Some other
    /\ (other = INVALID_INDEX \/ other < size (mElems g))
    /\ edgeInterval g (Z.of_nat e) = Some interval
    /\ Double.finite interval = true
    /\ Double.lt interval Double.zero = false.
Proof.
  intros Hvalid He.
  destruct (isValid_checks g Hvalid) as [_ [_ [_ [_ [_ [Hsync [Hint [Hedges _]]]]]]]].
  destruct (nth_error (mEdges g) e) as [other|] eqn:Eo;
    [|apply nth_error_None in Eo; lia].
  assert (Hother : other = INVALID_INDEX \/ other < size (mElems g)).
  { pose proof (forallb_nth_error _ _ _ _ Hedges Eo) as Hok. unfold edge_ok in Hok.
    apply negb_true_iff in Hok. apply andb_false_iff in Hok. destruct Hok as [Hok|Hok].
    - left. apply negb_false_iff in Hok. apply Z.eqb_eq in Hok. exact Hok.
    - right. apply Z.leb_gt in Hok. exact Hok. }
  unfold edgeOther, edgeInterval. rewrite at_index_of_nat, Eo.
  destruct Hsync as [Hnil|Hsame].
  - rewrite Hnil. exists other, Double.one. repeat split; assumption || reflexivity.
  - destruct (mIntervals g) as [|d ds] eqn:Ei.
    + exists other, Double.one. repeat split; assumption || reflexivity.
    + rewrite <- Ei in *. rewrite at_index_of_nat.
      destruct (nth_error (mIntervals g) e) as [interval|] eqn:Ed;
        [|apply nth_error_None in Ed; unfold size in Hsame; lia].
      pose proof (forallb_nth_error _ _ _ _ Hint Ed) as Hok. unfold interval_ok in Hok.
      apply negb_true_iff in Hok. apply orb_false_elim in Hok. destruct Hok as [Hlt Hfin].
      apply negb_false_iff in Hfin.
      exists other, interval. repeat split; assumption.
Qed.

Lemma isValid_edges_witness :
  exists other interval,
    edgeOther Examples.one_patch (Z.of_nat 3) = Some other
    /\ (other = INVALID_INDEX \/ other < size (mElems Examples.one_patch))
    /\ edgeInterval Examples.one_patch (Z.of_nat 3) = Some interval
    /\ Double.finite interval = true
    /\ Double.lt interval Double.zero = false.
Proof.
  apply (isValid_edges Examples.one_patch 3); [reflexivity|cbn; lia].
Defined.

Lemma land_FFFF_range (z : Z) : 0 <= Z.land z 0xFFFF < 2 ^ 16.
Proof.
  change 0xFFFF with (Z.ones 16). rewrite Z.land_ones by lia.
  apply Z.mod_pos_bound. lia.
Qed.

Lemma shiftr_16_range (z : Z) : is_u32 z -> 0 <= Z.shiftr z 16 < 2 ^ 16.
Proof.
  unfold is_u32. intros H. rewrite Z.shiftr_div_pow2 by lia. split.
  - apply Z.div_pos; lia.
  - apply Z.div_lt_upper_bound; lia.
Qed.

(** X3.  In a model that passes [isValid], every piece has a defined
    point with finite components; the coefficient block of an explicit
    piece lies inside the coefficient array when the product of its orders
    fits an [int]; and the S run and the T run of a tensor piece lie inside
    the coefficient array when their ends fit 32 bits. *)
Theorem isValid_pieces (g : IGAData) (k : nat) (p : Piece2D) :
  isValid g = true ->
  nth_error (mPieces g) k = Some p ->
  in_range Wire_Piece2D p ->
  (exists pt, piecePoint g (Z.of_nat k) = Some pt /\ point_finite pt = true)
  /\ (maybe_t_index p = INVALID_INDEX ->
      Z.land (st_order p) 0xFFFF * Z.shiftr (st_order p) 16 < 2 ^ 31 ->
      s_index p + Z.land (st_order p) 0xFFFF * Z.shiftr (st_order p) 16
      <= size (mCoeffs g))
  /\ (maybe_t_index p <> INVALID_INDEX ->
      s_index p + Z.land (st_order p) 0xFFFF < 2 ^ 32 ->
      s_index p + Z.land (st_order p) 0xFFFF <= size (mCoeffs g))
  /\ (maybe_t_index p <> INVALID_INDEX ->
      maybe_t_index p + Z.shiftr (st_order p) 16 < 2 ^ 32 ->
      maybe_t_index p + Z.shiftr (st_order p) 16 <= size (mCoeffs g)).
Proof.
  intros Hvalid Hnth [Hst [Hs [Ht Hpt]]].
  destruct (isValid_checks g Hvalid) as [_ [Hpoints [_ [_ [Hpieces _]]]]].
  pose proof (forallb_nth_error _ _ _ _ Hpieces Hnth) as Hok. unfold piece_ok in Hok.
  destruct (size (mPoints g) <=? pt_index p) eqn:Ept; [discriminate|].
  apply Z.leb_gt in Ept.
  pose proof (land_FFFF_range (st_order p)) as HsO.
  pose proof (shiftr_16_range (st_order p) Hst) as HtO.
  unfold is_u32 in *.
  split; [|split; [|split]].
  - unfold piecePoint. rewrite at_index_of_nat, Hnth.
    unfold at_index. replace (pt_index p <? 0) with false by (symmetry; apply Z.ltb_ge; lia).
    destruct (nth_error (mPoints g) (Z.to_nat (pt_index p))) as [pt|] eqn:Ep.
    + exists pt. split; [reflexivity|].
      exact (forallb_nth_error _ _ _ _ Hpoints Ep).
    + apply nth_error_None in Ep. unfold size in Ept. lia.
  - intros Hexp Hprod. rewrite Hexp, Z.eqb_refl in Hok.
    assert (Hp0 : 0 <= Z.land (st_order p) 65535 * Z.shiftr (st_order p) 16) by nia.
    unfold wrap_int in Hok. rewrite (Z.mod_small (_ + 2 ^ 31)) in Hok by lia.
    replace (Z.land (st_order p) 65535 * Z.shiftr (st_order p) 16 + 2 ^ 31 - 2 ^ 31)
      with (Z.land (st_order p) 65535 * Z.shiftr (st_order p) 16) in Hok by lia.
    unfold wrap64 in Hok. rewrite (Z.mod_small (_ * _)) in Hok by lia.
    rewrite Z.mod_small in Hok by lia.
    destruct (size (mCoeffs g) <? _) eqn:E in Hok; [discriminate|].
    apply Z.ltb_ge in E. exact E.
  - intros Htens Hfit.
    replace (maybe_t_index p =? INVALID_INDEX) with false in Hok
      by (symmetry; apply Z.eqb_neq; exact Htens).
    unfold wrap32 in Hok. rewrite (Z.mod_small (s_index p + _)) in Hok by lia.
    destruct (size (mCoeffs g) <? _) eqn:E in Hok; [discriminate|].
    apply Z.ltb_ge in E. exact E.
  - intros Htens Hfit.
    replace (maybe_t_index p =? INVALID_INDEX) with false in Hok
      by (symmetry; apply Z.eqb_neq; exact Htens).
    destruct (size (mCoeffs g) <? wrap32 (s_index p + _)) in Hok; [discriminate|].
    unfold wrap32 in Hok. rewrite (Z.mod_small (maybe_t_index p + _)) in Hok by lia.
    destruct (size (mCoeffs g) <? _) eqn:E in Hok; [discriminate|].
    apply Z.ltb_ge in E. exact E.
Qed.

Lemma isValid_pieces_witness :
  (exists pt, piecePoint Examples.one_patch (Z.of_nat 0) = Some pt
              /\ point_finite pt = true)
  /\ 0 + 2 * 2 <= size (mCoeffs Examples.one_patch).
Proof.
  destruct (isValid_pieces Examples.one_patch 0 (mkPiece2D 0x00020002 0 INVALID_INDEX 0)
              eq_refl eq_refl) as [H1 [H2 _]].
  - cbn. unfold is_u32, INVALID_INDEX. lia.
  - split; [exact H1|]. exact (H2 eq_refl eq_refl).
Defined.

(** The element loop reads the model only through the sizes of the edge
    and piece arrays and through the layouts. *)
Lemma elems_loop_ext (g g' : IGAData) (rest : list Elem) :
  size (mEdges g') = size (mEdges g) ->
  size (mPieces g') = size (mPieces g) ->
  mLayouts g' = mLayouts g ->
  forall a b, elems_loop g' rest a b = elems_loop g rest a b.
Proof.
  intros He Hp Hl. induction rest as [|e rest IH]; intros a b; [reflexivity|].
  cbn [elems_loop]. rewrite He, Hp, Hl, IH. reflexivity.
Qed.

(** Replacing the pieces by as many pieces that pass the piece check
    keeps a model valid. *)
Lemma isValid_set_mPieces (g : IGAData) (pieces : list Piece2D) :
  length pieces = length (mPieces g) ->
  forallb (piece_ok g) pieces = true ->
  isValid g = true ->
  isValid (set_mPieces g pieces) = true.
Proof.
  intros Hlen Hok Hvalid.
  assert (Hsize : size pieces = size (mPieces g)) by (unfold size; rewrite Hlen; reflexivity).
  unfold isValid in *.
  cbn [set_mPieces mSrfType mCoeffs mPoints mPieces mEdges mIntervals mLayouts mElems].
  rewrite (elems_loop_ext g (set_mPieces g pieces) (mElems g) eq_refl Hsize eq_refl).
  rewrite Hsize.
  replace (forallb (piece_ok (set_mPieces g pieces)) pieces)
    with (forallb (piece_ok g) pieces) by reflexivity.
  rewrite Hok.
  destruct (forallb (piece_ok g) (mPieces g)); [exact Hvalid|].
  cbn [negb] in Hvalid.
  repeat match type of Hvalid with
         | (if ?b then false else _) = true => destruct b; [discriminate Hvalid|]
         | match ?o with Some _ => _ | None => false end = true =>
             destruct o; [|discriminate Hvalid]
         end.
  discriminate Hvalid.
Qed.

(** X4.  The bound check of [isValid] on the S run of a tensor piece adds
    [s_index] and the S order in 32 bits: a valid model whose coefficient
    array has at most [2^32 - 2^16] cells stays valid when the [s_index] of
    a tensor piece of S order at least 1 is replaced by [2^32 - s_order],
    although the S run then starts beyond the coefficient array
    ([pieceSCoeffs] is an out-of-range access). *)
Theorem isValid_tensor_s_index_wraps (g : IGAData) (pre post : list Piece2D) (p : Piece2D) :
  isValid g = true ->
  mPieces g = pre ++ p :: post ->
  maybe_t_index p <> INVALID_INDEX ->
  1 <= Z.land (st_order p) 0xFFFF ->
  size (mCoeffs g) <= 2 ^ 32 - 2 ^ 16 ->
  isValid (set_mPieces g
             (pre ++ mkPiece2D (st_order p) (2 ^ 32 - Z.land (st_order p) 0xFFFF)
                       (maybe_t_index p) (pt_index p) :: post)) = true
  /\ pieceSCoeffs (set_mPieces g
                     (pre ++ mkPiece2D (st_order p) (2 ^ 32 - Z.land (st_order p) 0xFFFF)
                               (maybe_t_index p) (pt_index p) :: post))
       (Z.of_nat (length pre)) = None.
Proof.
  intros Hvalid Hpieces Htens Hs Hsmall.
  pose proof (land_FFFF_range (st_order p)) as HsO.
  destruct (isValid_checks g Hvalid) as [_ [_ [_ [_ [Hok _]]]]].
  rewrite Hpieces in Hok. rewrite forallb_app in Hok. cbn [forallb] in Hok.
  apply andb_prop in Hok. destruct Hok as [Hpre Hrest].
  apply andb_prop in Hrest. destruct Hrest as [Hp Hpost].
  split.
  - apply isValid_set_mPieces; [rewrite Hpieces, !length_app; reflexivity| |exact Hvalid].
    rewrite forallb_app. cbn [forallb]. rewrite Hpre, Hpost, andb_true_r. cbn [andb].
    unfold piece_ok in *. cbn [pt_index st_order s_index maybe_t_index].
    destruct (size (mPoints g) <=? pt_index p); [discriminate|].
    replace (maybe_t_index p =? INVALID_INDEX) with false in *
      by (symmetry; apply Z.eqb_neq; exact Htens).
    replace (wrap32 (2 ^ 32 - Z.land (st_order p) 65535 + Z.land (st_order p) 65535))
      with 0 by (unfold wrap32; replace (2 ^ 32 - _ + _) with (2 ^ 32) by lia; reflexivity).
    replace (size (mCoeffs g) <? 0) with false
      by (symmetry; apply Z.ltb_ge; apply size_nonneg).
    destruct (size (mCoeffs g) <? wrap32 (s_index p + Z.land (st_order p) 65535));
      [discriminate|].
    exact Hp.
  - unfold pieceSCoeffs, coeffs_from.
    cbn [set_mPieces mPieces mCoeffs]. rewrite at_index_of_nat.
    rewrite nth_error_app2, Nat.sub_diag by lia. cbn [nth_error s_index].
    replace (size (mCoeffs g) <=? 2 ^ 32 - Z.land (st_order p) 65535) with true
      by (symmetry; apply Z.leb_le; lia).
    rewrite orb_true_r. reflexivity.
Qed.

Lemma isValid_tensor_s_index_wraps_witness :
  isValid (set_mPieces MoreExamples.tensor_patch
             [mkPiece2D 0x00010001 (2 ^ 32 - 1) 1 0]) = true
  /\ pieceSCoeffs (set_mPieces MoreExamples.tensor_patch
                     [mkPiece2D 0x00010001 (2 ^ 32 - 1) 1 0]) (Z.of_nat 0) = None.
Proof.
  apply (isValid_tensor_s_index_wraps MoreExamples.tensor_patch [] []
           (mkPiece2D 0x00010001 0 1 0)).
  - reflexivity.
  - reflexivity.
  - discriminate.
  - cbn. lia.
  - cbn. lia.
Defined.

(** What the layout loop has checked, and what the size comparison after
    it adds: no layout was dropped by the set, so no two are the same. *)
Lemma layouts_loop_spec (rest : list FaceLayout) : forall (i : nat) (acc final : list FaceLayout),
  layouts_loop i rest acc = Some final ->
  (length final <= length acc + length rest)%nat
  /\ Forall strictly_increasing rest
  /\ (length final = (length acc + length rest)%nat -> NoDup acc -> NoDup (acc ++ rest)).
Proof.
  induction rest as [|l rest IH]; intros i acc final Hloop; cbn [layouts_loop] in Hloop.
  - injection Hloop as <-. rewrite app_nil_r. cbn [length]. repeat split; auto. lia.
  - destruct ((i =? 0)%nat
              && (FaceLayout_lt l default_layout || FaceLayout_lt default_layout l));
      [discriminate|].
    destruct ((side_range_1 l <=? side_range_0 l) || (side_range_2 l <=? side_range_1 l)
              || (side_range_3 l <=? side_range_2 l) || (side_range_4 l <=? side_range_3 l))
      eqn:Einc; [discriminate|].
    apply orb_false_elim in Einc. destruct Einc as [Einc E3].
    apply orb_false_elim in Einc. destruct Einc as [Einc E2].
    apply orb_false_elim in Einc. destruct Einc as [E0 E1].
    apply Z.leb_gt in E0, E1, E2, E3.
    destruct (IH _ _ _ Hloop) as [Hlen [Hinc Hnodup]].
    assert (Hins : (length (set_insert FaceLayout_lt l acc) <= S (length acc))%nat
                   /\ (length (set_insert FaceLayout_lt l acc) = S (length acc) ->
                       set_insert FaceLayout_lt l acc = acc ++ [l] /\ ~ In l acc)).
    { unfold set_insert. destruct (existsb (equivalent FaceLayout_lt l) acc) eqn:Eex.
      - split; [lia|intros H; lia].
      - split; [rewrite length_app; cbn [length]; lia|]. intros _. split; [reflexivity|].
        intros Hin.
        assert (existsb (equivalent FaceLayout_lt l) acc = true).
        { apply existsb_exists. exists l. split; [exact Hin|apply FaceLayout_equivalent_refl]. }
        congruence. }
    destruct Hins as [Hle Hfresh]. cbn [length].
    split; [lia|]. split.
    + constructor; [|exact Hinc]. unfold strictly_increasing. lia.
    + intros Hfull Hacc.
      destruct Hfresh as [Heq Hnotin]; [lia|].
      rewrite Heq in Hnodup.
      replace (acc ++ l :: rest) with ((acc ++ [l]) ++ rest)
        by (rewrite <- app_assoc; reflexivity).
      apply Hnodup.
      * rewrite length_app. cbn [length]. lia.
      * apply NoDup_app; [exact Hacc|repeat constructor; intros []|].
        intros a Ha [<-|[]]. exact (Hnotin Ha).
Qed.

(** The stored layouts of a valid model. *)
Lemma layouts_of_valid (g : IGAData) :
  isValid g = true ->
  (forall l0, nth_error (mLayouts g) 0 = Some l0 -> l0 = default_layout)
  /\ NoDup (mLayouts g)
  /\ Forall strictly_increasing (mLayouts g).
Proof.
  intros Hvalid.
  destruct (isValid_checks g Hvalid) as [_ [_ [[layouts [Hloop Hsize]] _]]].
  destruct (layouts_loop_spec _ _ _ _ Hloop) as [_ [Hinc Hnodup]].
  split; [|split].
  - intros l0 H0. destruct (mLayouts g) as [|l ls]; [discriminate|].
    cbn [nth_error] in H0. injection H0 as <-.
    exact (layouts_loop_head _ _ _ _ Hloop).
  - apply (Hnodup ltac:(unfold size in Hsize; cbn [length]; lia) (NoDup_nil _)).
  - exact Hinc.
Qed.

(** X5.  In a model that passes [isValid], layout 0, when it is stored, is
    the default layout; the stored layouts are pairwise distinct; every
    stored layout has at least one edge on each of its four sides; and more
    than one stored layout comes with stored intervals. *)
Theorem isValid_layouts (g : IGAData) :
  isValid g = true ->
  (forall l0, nth_error (mLayouts g) 0 = Some l0 -> l0 = default_layout)
  /\ NoDup (mLayouts g)
  /\ Forall strictly_increasing (mLayouts g)
  /\ (1 < size (mLayouts g) -> mIntervals g <> []).
Proof.
  intros Hvalid. destruct (layouts_of_valid g Hvalid) as [H0 [Hnd Hinc]].
  destruct (isValid_checks g Hvalid) as [_ [_ [_ [Hmany _]]]].
  repeat split; assumption.
Qed.

Lemma isValid_layouts_witness :
  (forall l0, nth_error (mLayouts MoreExamples.two_patches) 0 = Some l0 ->
              l0 = default_layout)
  /\ NoDup (mLayouts MoreExamples.two_patches)
  /\ Forall strictly_increasing (mLayouts MoreExamples.two_patches)
  /\ (1 < size (mLayouts MoreExamples.two_patches) ->
      mIntervals MoreExamples.two_patches <> []).
Proof. exact (isValid_layouts MoreExamples.two_patches eq_refl). Defined.

Lemma side_range_cells (l : FaceLayout) :
  side_range l 0 = Some (side_range_0 l)
  /\ side_range l 1 = Some (side_range_1 l)
  /\ side_range l 2 = Some (side_range_2 l)
  /\ side_range l 3 = Some (side_range_3 l)
  /\ side_range l 4 = Some (side_range_4 l).
Proof. repeat split. Qed.

(** X6.  In a model that passes [isValid], for an element whose layout is
    physically stored, each of the four sides has a defined, non-empty
    range [sideBegin .. sideEnd), [elemEdgesOnSide] is its length, and the
    range, taken as an offset from [edgeBegin], lies inside the edge range
    of the element. *)
Theorem isValid_side_ranges
  (g : IGAData) (i : nat) (elem : Elem) (lay : FaceLayout) (side : Z) :
  isValid g = true ->
  nth_error (mElems g) i = Some elem ->
  at_index (mLayouts g) (layout_index elem) = Some lay ->
  in_range Wire_FaceLayout lay ->
  is_u32 (edge_end_index elem) ->
  0 <= side <= 3 ->
  exists lo hi b,
    sideBegin g (Z.of_nat i) side = Some lo
    /\ sideEnd g (Z.of_nat i) side = Some hi
    /\ elemEdgesOnSide g (Z.of_nat i) side = Some (hi - lo)
    /\ edgeBegin g (Z.of_nat i) = Some b
    /\ edgeEnd g (Z.of_nat i) = Some (edge_end_index elem)
    /\ lo < hi
    /\ b + hi <= edge_end_index elem.
Proof.
  intros Hvalid Hnth Hlay [H0 [H1 [H2 [H3 H4]]]] Hend Hside.
  assert (Hidx : 0 <= layout_index elem < size (mLayouts g)).
  { unfold at_index in Hlay. destruct (layout_index elem <? 0) eqn:E; [discriminate|].
    apply Z.ltb_ge in E. split; [exact E|].
    assert (Hsome : nth_error (mLayouts g) (Z.to_nat (layout_index elem)) <> None)
      by congruence.
    apply nth_error_Some in Hsome. unfold size. lia. }
  destruct (layouts_of_valid g Hvalid) as [Hdef [_ Hinc]].
  assert (Hin : In lay (mLayouts g)).
  { unfold at_index in Hlay. destruct (layout_index elem <? 0); [discriminate|].
    apply nth_error_In in Hlay. exact Hlay. }
  pose proof (proj1 (Forall_forall _ _) Hinc lay Hin) as [I0 [I1 [I2 I3]]].
  assert (Hlayout : Accessors.layout g (layout_index elem) = Some lay).
  { unfold Accessors.layout. destruct (layout_index elem =? 0) eqn:E0; [|exact Hlay].
    apply Z.eqb_eq in E0. rewrite E0 in Hlay. cbn in Hlay.
    rewrite (Hdef lay Hlay). reflexivity. }
  destruct (isValid_edge_count_of_stored_layout g i elem Hvalid Hnth Hidx)
    as [b [e [n [Hb [He [Hn Hcount]]]]]].
  destruct (element_ranges_of_valid g i elem Hvalid Hnth)
    as [b' [pb [Hb' [He' [_ [_ [Hbe [_ _]]]]]]]].
  rewrite Hb in Hb'. injection Hb' as <-. rewrite He in He'. injection He' as ->.
  unfold elemEdgeCount in Hn. rewrite at_index_of_nat, Hnth, Hlayout in Hn.
  cbn [option_map] in Hn. injection Hn as <-.
  unfold is_u32 in *.
  unfold wrap32 in Hcount. rewrite Z.mod_small in Hcount by lia.
  unfold sideBegin, sideEnd, elemEdgesOnSide.
  rewrite at_index_of_nat, Hnth, Hlayout.
  assert (Hcases : side = 0 \/ side = 1 \/ side = 2 \/ side = 3) by lia.
  destruct (side_range_cells lay) as [C0 [C1 [C2 [C3 C4]]]].
  destruct Hcases as [-> | [-> | [-> | ->]]];
    [ change (0 + 1) with 1 | change (1 + 1) with 2
    | change (2 + 1) with 3 | change (3 + 1) with 4 ];
    rewrite ?C0, ?C1, ?C2, ?C3, ?C4;
    [ exists (side_range_0 lay), (side_range_1 lay), b
    | exists (side_range_1 lay), (side_range_2 lay), b
    | exists (side_range_2 lay), (side_range_3 lay), b
    | exists (side_range_3 lay), (side_range_4 lay), b ];
    (repeat split; try assumption; try lia;
     unfold wrap32; rewrite Z.mod_small by lia; reflexivity).
Qed.

Lemma isValid_side_ranges_witness :
  exists lo hi b,
    sideBegin MoreExamples.two_patches (Z.of_nat 1) 0 = Some lo
    /\ sideEnd MoreExamples.two_patches (Z.of_nat 1) 0 = Some hi
    /\ elemEdgesOnSide MoreExamples.two_patches (Z.of_nat 1) 0 = Some (hi - lo)
    /\ edgeBegin MoreExamples.two_patches (Z.of_nat 1) = Some b
    /\ edgeEnd MoreExamples.two_patches (Z.of_nat 1) = Some 9
    /\ lo < hi
    /\ b + hi <= 9.
Proof.
  apply (isValid_side_ranges MoreExamples.two_patches 1 (mkElem 1 1 9)
           (mkFaceLayout 0 2 3 4 5) 0); try reflexivity.
  - cbn. unfold is_u32. lia.
  - unfold is_u32. cbn. lia.
  - lia.
Defined.

(** ** [tagValue] on every text *)

Lemma c_str_nonnul (s : list byte) : Forall nonnul (c_str s).
Proof.
  induction s as [|ch s IH]; cbn [c_str]; [constructor|].
  destruct (Byte.eqb ch nul) eqn:E; [constructor|].
  constructor; [|exact IH]. intros ->. discriminate E.
Qed.

Lemma c_str_split (s : list byte) :
  s = c_str s \/ exists junk, s = c_str s ++ nul :: junk.
Proof.
  induction s as [|ch s IH]; cbn [c_str]; [left; reflexivity|].
  destruct (Byte.eqb ch nul) eqn:E.
  - apply Byte.byte_dec_bl in E. subst ch. right. exists s. reflexivity.
  - destruct IH as [IH|[junk IH]].
    + left. f_equal. exact IH.
    + right. exists junk. cbn [app]. f_equal. exact IH.
Qed.

(** Only the characters before the first zero count. *)
Lemma tagBytes_c_str (s : list byte) : tagBytes s = tagBytes (c_str s).
Proof.
  destruct (c_str_split s) as [H|[junk H]].
  - rewrite <- H. reflexivity.
  - rewrite H at 1. unfold tagBytes. rewrite copy_loop_terminator. reflexivity.
Qed.

(** The bytes of a tag, for every text. *)
Lemma tagBytes_cases (s : list byte) :
  tagBytes s
  = if (length (c_str s) <? 8)%nat
    then c_str s ++ repeat hyphen (7 - length (c_str s)) ++ [newline]
    else firstn 8 (c_str s).
Proof.
  rewrite tagBytes_c_str. pose proof (c_str_nonnul s) as Hnz.
  destruct (length (c_str s) <? 8)%nat eqn:E.
  - apply Nat.ltb_lt in E. apply tagBytes_short; assumption.
  - apply Nat.ltb_ge in E. apply tagBytes_long; [|exact E].
    apply Forall_forall. intros b Hb.
    apply (proj1 (Forall_forall nonnul _) Hnz).
    rewrite <- (firstn_skipn 8 (c_str s)). apply in_or_app. left. exact Hb.
Qed.

(** No byte of a tag is zero. *)
Lemma tagBytes_nonnul (s : list byte) : Forall nonnul (tagBytes s).
Proof.
  rewrite tagBytes_cases. pose proof (c_str_nonnul s) as Hnz.
  destruct (length (c_str s) <? 8)%nat.
  - apply Forall_app. split; [exact Hnz|]. apply Forall_app. split.
    + apply Forall_forall. intros b Hb. apply repeat_spec in Hb. subst b. discriminate.
    + constructor; [discriminate|constructor].
  - apply Forall_forall. intros b Hb.
    apply (proj1 (Forall_forall nonnul _) Hnz).
    rewrite <- (firstn_skipn 8 (c_str s)). apply in_or_app. left. exact Hb.
Qed.

(** X7.  [tagValue] never returns the blank tag [0]: the eighth byte of the
    result is a copied character, which is not zero, or the line feed. *)
Theorem tagValue_never_blank (s : list byte) : tagValue s <> 0.
Proof.
  intros H0. pose proof (tagValue_bytes s) as Hb. rewrite H0 in Hb.
  pose proof (tagBytes_nonnul s) as Hnz. rewrite <- Hb in Hnz.
  inversion Hnz as [|b l Hhead _]. apply Hhead. reflexivity.
Qed.

(** X8.  The eight bytes of a tag are a text that [tagValue] maps to the
    same tag, so the short form of a block name and its padded 8-byte form
    name the same block; what follows a zero byte does not change the tag,
    and neither does what follows the eighth character of a text with no
    zero byte among its first eight. *)
Theorem tagValue_canonical (s extra : list byte) :
  tagValue (le_split 8 (tagValue s)) = tagValue s
  /\ tagValue (s ++ nul :: extra) = tagValue s
  /\ ((8 <= length (c_str s))%nat ->
      tagValue (firstn 8 (c_str s) ++ extra) = tagValue s).
Proof.
  assert (Hfix : forall t, Forall nonnul t -> length t = 8%nat -> forall more,
            tagBytes (t ++ more) = t).
  { intros t Hnz Hlen more. unfold tagBytes.
    pose proof (copy_loop_app t more [] (repeat nul 8) Hnz) as H.
    cbn [app length Nat.add] in H. rewrite H by (rewrite ?Hlen; cbn; lia).
    rewrite Hlen. cbn [skipn repeat]. rewrite app_nil_r, copy_loop_full.
    reflexivity. }
  split; [|split].
  - rewrite tagValue_bytes. unfold tagValue. f_equal.
    rewrite <- (app_nil_r (tagBytes s)) at 1.
    apply Hfix; [apply tagBytes_nonnul|apply tagBytes_length].
  - apply tagValue_terminator.
  - intros Hge. unfold tagValue. f_equal.
    assert (Hnz : Forall nonnul (firstn 8 (c_str s))).
    { apply Forall_forall. intros b Hb.
      apply (proj1 (Forall_forall nonnul _) (c_str_nonnul s)).
      rewrite <- (firstn_skipn 8 (c_str s)). apply in_or_app. left. exact Hb. }
    rewrite (Hfix _ Hnz) by (rewrite length_firstn; lia).
    rewrite tagBytes_cases.
    replace (length (c_str s) <? 8)%nat with false
      by (symmetry; apply Nat.ltb_ge; exact Hge).
    reflexivity.
Qed.

Lemma tagValue_canonical_witness :
  tagValue (le_split 8 (tagValue (text "EDGES"))) = tagValue (text "EDGES")
  /\ tagValue (text "EDGES" ++ nul :: text "junk") = tagValue (text "EDGES")
  /\ tagValue (firstn 8 (c_str (text "TOOLONGTAG")) ++ text "junk")
     = tagValue (text "TOOLONGTAG").
Proof.
  destruct (tagValue_canonical (text "EDGES") (text "junk")) as [H1 [H2 _]].
  destruct (tagValue_canonical (text "TOOLONGTAG") (text "junk")) as [_ [_ H3]].
  split; [exact H1|]. split; [exact H2|]. apply H3. cbn. lia.
Defined.

(** ** The builder: what a successful call has stored *)

Lemma safeAppend_result {T} (sizeof_T : Z) (vec : list T) (value : T) :
  (fst (safeAppend sizeof_T vec value) = INVALID_INDEX
   /\ snd (safeAppend sizeof_T vec value) = vec)
  \/ (fst (safeAppend sizeof_T vec value) = size vec
      /\ size vec < INVALID_INDEX - 1
      /\ snd (safeAppend sizeof_T vec value) = vec ++ [value]).
Proof.
  destruct (safeAppend_cases sizeof_T vec value) as [-> | [H ->]]; [left|right]; auto.
Qed.

Lemma addPoint_result (pt : Point3d) (c : IGACreator) :
  (fst (addPoint pt c) = INVALID_INDEX
   /\ mPoints (mParent (snd (addPoint pt c))) = mPoints (mParent c))
  \/ (fst (addPoint pt c) = size (mPoints (mParent c))
      /\ size (mPoints (mParent c)) < INVALID_INDEX - 1
      /\ mPoints (mParent (snd (addPoint pt c))) = mPoints (mParent c) ++ [pt]).
Proof.
  unfold addPoint.
  destruct (safeAppend_cases sizeof_Point3d (mPoints (mParent c)) pt) as [-> | [H ->]];
    [left|right]; auto.
Qed.

Lemma addPiece_result (piece : Piece2D) (c : IGACreator) :
  mPoints (mParent (snd (addPiece piece c))) = mPoints (mParent c)
  /\ mCoeffs (mParent (snd (addPiece piece c))) = mCoeffs (mParent c)
  /\ ((fst (addPiece piece c) = INVALID_INDEX
       /\ mPieces (mParent (snd (addPiece piece c))) = mPieces (mParent c))
      \/ (fst (addPiece piece c) = size (mPieces (mParent c))
          /\ size (mPieces (mParent c)) < INVALID_INDEX - 1
          /\ mPieces (mParent (snd (addPiece piece c))) = mPieces (mParent c) ++ [piece])).
Proof.
  unfold addPiece.
  destruct (safeAppend_cases sizeof_Piece2D (mPieces (mParent c)) piece) as [-> | [H ->]];
    (split; [reflexivity|split; [reflexivity|]]); [left|right]; auto.
Qed.

(** X9.  A point index returned by a successful [addPoint] is the former
    point count, and a piece that is then added with that index resolves,
    through [piecePoint], to the point that was added. *)
Theorem addPoint_index_resolves
  (pt : Point3d) (st s t : uint32_t) (c : IGACreator) :
  fst (addPoint pt c) <> INVALID_INDEX ->
  fst (addPiece (mkPiece2D st s t (fst (addPoint pt c))) (snd (addPoint pt c)))
  <> INVALID_INDEX ->
  fst (addPoint pt c) = size (mPoints (mParent c))
  /\ piecePoint
       (mParent (snd (addPiece (mkPiece2D st s t (fst (addPoint pt c)))
                        (snd (addPoint pt c)))))
       (fst (addPiece (mkPiece2D st s t (fst (addPoint pt c))) (snd (addPoint pt c))))
     = Some pt.
Proof.
  intros Hpt Hpiece.
  destruct (addPoint_result pt c) as [[Hi _]|[Hi [_ Hpts]]]; [congruence|].
  split; [exact Hi|].
  destruct (addPiece_result (mkPiece2D st s t (fst (addPoint pt c))) (snd (addPoint pt c)))
    as [Hp [_ [[Hk _]|[Hk [_ Hpieces]]]]]; [congruence|].
  unfold piecePoint. rewrite Hk, Hpieces, at_index_size. cbn [pt_index].
  rewrite Hp, Hpts, Hi. apply at_index_size.
Qed.

Lemma addPoint_index_resolves_witness :
  fst (addPoint (mkPoint3d 0 0 0 Double.one) Examples.new_builder) = 0
  /\ piecePoint
       (mParent (snd (addPiece (mkPiece2D 0x00010001 0 0 0)
                        (snd (addPoint (mkPoint3d 0 0 0 Double.one) Examples.new_builder)))))
       0
     = Some (mkPoint3d 0 0 0 Double.one).
Proof.
  apply (addPoint_index_resolves (mkPoint3d 0 0 0 Double.one) 0x00010001 0 0
           Examples.new_builder); discriminate.
Defined.

Lemma run_at_app_end {A} (vec run : list A) :
  run_at (vec ++ run) (size vec) (length run) = run.
Proof.
  unfold run_at, size. rewrite Nat2Z.id, skipn_app, skipn_all, Nat.sub_diag.
  cbn [skipn app]. apply firstn_all.
Qed.

(** X10.  [addCoeffs] refuses, and changes nothing, when the vector has
    [0x7FFF] coefficients or more; whenever it returns [INVALID_INDEX] the
    builder is unchanged; otherwise the returned index is the former size
    of the dictionary, the coefficients are appended, and the run of that
    length at the returned index is the vector. *)
Theorem addCoeffs_appends_run (coeffs : CoeffVector) (c : IGACreator) :
  (0x7FFF <= size coeffs -> addCoeffs coeffs c = (INVALID_INDEX, c))
  /\ (fst (addCoeffs coeffs c) = INVALID_INDEX -> snd (addCoeffs coeffs c) = c)
  /\ (fst (addCoeffs coeffs c) <> INVALID_INDEX ->
      fst (addCoeffs coeffs c) = size (mCoeffs (mParent c))
      /\ mCoeffs (mParent (snd (addCoeffs coeffs c))) = mCoeffs (mParent c) ++ coeffs
      /\ run_at (mCoeffs (mParent (snd (addCoeffs coeffs c))))
           (fst (addCoeffs coeffs c)) (length coeffs) = coeffs).
Proof.
  split; [|split].
  - intros Hbig. unfold addCoeffs.
    replace (0x7FFF <=? size coeffs) with true by (symmetry; apply Z.leb_le; exact Hbig).
    rewrite orb_true_r. reflexivity.
  - destruct (addCoeffs_cases coeffs c) as [-> | [Hlt ->]]; cbn [fst snd]; [reflexivity|].
    intros H. lia.
  - destruct (addCoeffs_cases coeffs c) as [-> | [Hlt ->]]; cbn [fst snd]; [congruence|].
    intros _. cbn [mParent set_mParent mCoeffs set_mCoeffs].
    repeat split. apply run_at_app_end.
Qed.

Lemma addCoeffs_appends_run_witness :
  fst (addCoeffs [Double.one; Double.zero] Examples.new_builder) = 0
  /\ run_at (mCoeffs (mParent (snd (addCoeffs [Double.one; Double.zero]
                                      Examples.new_builder)))) 0 2
     = [Double.one; Double.zero].
Proof.
  destruct (proj2 (proj2 (addCoeffs_appends_run [Double.one; Double.zero]
                            Examples.new_builder))) as [H1 [_ H3]].
  - discriminate.
  - split; [exact H1|]. exact H3.
Defined.

(** ** The coefficient dictionary *)

Lemma run_at_app_keep {A} (vec more : list A) (i : Z) (n : nat) :
  length (run_at vec i n) = n -> run_at (vec ++ more) i n = run_at vec i n.
Proof.
  unfold run_at. intros Hlen. rewrite length_firstn in Hlen.
  rewrite skipn_app, firstn_app.
  replace (n - length (skipn (Z.to_nat i) vec))%nat with 0%nat by lia.
  cbn [firstn]. apply app_nil_r.
Qed.

Lemma finite_not_nan (d : double) : Double.finite d = true -> Double.isnan d = false.
Proof.
  unfold Double.finite, Double.isnan. intros H. apply negb_true_iff in H.
  rewrite H. reflexivity.
Qed.

(** Two vectors of finite values neither of which is less than the other
    have the same length and, cell by cell, the same value. *)
Lemma CoeffVector_equivalent_same (a : CoeffVector) : forall b,
  forallb Double.finite a = true ->
  forallb Double.finite b = true ->
  equivalent CoeffVectorLessThan a b = true ->
  Forall2 same_value a b.
Proof.
  unfold equivalent, CoeffVectorLessThan.
  induction a as [|x a IH]; intros [|y b] Ha Hb Heq;
    apply andb_prop in Heq; destruct Heq as [Hab Hba];
    apply negb_true_iff in Hab, Hba; cbn [lexicographical_compare] in Hab, Hba;
    try discriminate; [constructor|].
  cbn [forallb] in Ha, Hb.
  apply andb_prop in Ha. destruct Ha as [Hx Ha].
  apply andb_prop in Hb. destruct Hb as [Hy Hb].
  destruct (Double.lt x y) eqn:Exy; [discriminate|].
  destruct (Double.lt y x) eqn:Eyx; [discriminate|].
  constructor.
  - pose proof (finite_not_nan x Hx) as Nx. pose proof (finite_not_nan y Hy) as Ny.
    unfold Double.lt in Exy, Eyx. rewrite Nx, Ny in Exy, Eyx. cbn [negb andb] in Exy, Eyx.
    apply Z.ltb_ge in Exy, Eyx. unfold same_value. repeat split; try assumption. lia.
  - apply IH; [exact Ha|exact Hb|]. rewrite Hab, Hba. reflexivity.
Qed.

Lemma coeff_lookup_sound_new (parent : IGAData) : coeff_lookup_sound (IGACreator_new parent).
Proof. intros key i []. Qed.

Lemma coeff_lookup_sound_grow (c c' : IGACreator) (more : list double) :
  mCoeffLookup c' = mCoeffLookup c ->
  mCoeffs (mParent c') = mCoeffs (mParent c) ++ more ->
  coeff_lookup_sound c -> coeff_lookup_sound c'.
Proof.
  intros Hl Hc Hs key i Hin. rewrite Hl in Hin.
  destruct (Hs key i Hin) as [Hfin [Hsmall [Hi Hrun]]].
  repeat split; try assumption.
  rewrite Hc, run_at_app_keep; [exact Hrun|]. rewrite Hrun. reflexivity.
Qed.

Lemma coeff_dictionary_sound (c c' : IGACreator) :
  coeff_dictionary c' = coeff_dictionary c -> coeff_lookup_sound c -> coeff_lookup_sound c'.
Proof.
  unfold coeff_dictionary. intros [= Hc Hl].
  apply (coeff_lookup_sound_grow c c' []); [exact Hl|rewrite app_nil_r; exact Hc].
Qed.

Lemma addCoeffs_small (coeffs : CoeffVector) (c : IGACreator) :
  fst (addCoeffs coeffs c) <> INVALID_INDEX -> size coeffs < 0x7FFF.
Proof.
  unfold addCoeffs.
  destruct (0x7FFF <=? size coeffs) eqn:E.
  - rewrite orb_true_r. cbn [fst]. congruence.
  - intros _. apply Z.leb_gt in E. exact E.
Qed.

Lemma addCoeffs_coeff_sound (coeffs : CoeffVector) (c : IGACreator) :
  coeff_lookup_sound c -> coeff_lookup_sound (snd (addCoeffs coeffs c)).
Proof.
  intros Hs. destruct (addCoeffs_cases coeffs c) as [-> | [_ ->]]; cbn [snd]; [exact Hs|].
  apply (coeff_lookup_sound_grow c _ coeffs); [reflexivity|reflexivity|exact Hs].
Qed.

Lemma getDictionaryIndex_coeff_sound (coeffs : CoeffVector) (c : IGACreator) :
  coeff_lookup_sound c -> coeff_lookup_sound (snd (getDictionaryIndex coeffs c)).
Proof.
  intros Hs. unfold getDictionaryIndex.
  destruct (forallb Double.finite coeffs) eqn:Hfin; [|exact Hs]. cbn [negb].
  destruct (map_find CoeffVectorLessThan coeffs (mCoeffLookup c)) eqn:Efind; [exact Hs|].
  pose proof (addCoeffs_small coeffs c) as Hsmall.
  destruct (addCoeffs_cases coeffs c) as [Ea | [Hlt Ea]]; rewrite Ea in *.
  - rewrite Z.eqb_refl. exact Hs.
  - cbn [fst] in Hsmall.
    replace (size (mCoeffs (mParent c)) =? INVALID_INDEX) with false
      by (symmetry; apply Z.eqb_neq; lia).
    cbn [snd]. intros key i.
    cbn [mCoeffLookup set_mCoeffLookup set_mParent mParent mCoeffs set_mCoeffs].
    rewrite (map_assign_fresh CoeffVectorLessThan coeffs _ _ Efind).
    intros Hin. apply in_app_or in Hin. destruct Hin as [Hin|[Hin|[]]].
    + destruct (Hs key i Hin) as [Hf [Hsm [Hi Hrun]]]. repeat split; try assumption.
      rewrite run_at_app_keep; [exact Hrun|]. rewrite Hrun. reflexivity.
    + injection Hin as <- <-. repeat split.
      * exact Hfin.
      * apply Hsmall. lia.
      * apply size_nonneg.
      * apply run_at_app_end.
Qed.

Lemma addPiece_coeff_dictionary (piece : Piece2D) (c : IGACreator) :
  coeff_dictionary (snd (addPiece piece c)) = coeff_dictionary c.
Proof. unfold addPiece, coeff_dictionary. frame. Qed.

Lemma call_coeff_sound (k : Call) (c c' : IGACreator) :
  call k c = Returns c' -> coeff_lookup_sound c -> coeff_lookup_sound c'.
Proof.
  intros Hcall Hs.
  destruct k as [coeffs|elem ki|elem|s_order pt_index coeffs|lay|piece|pt
                |s_coeffs t_coeffs pt_index|li|coeffs|lay|srf];
    cbn [call] in Hcall; try (injection Hcall as <-).
  - apply addCoeffs_coeff_sound. exact Hs.
  - refine (coeff_dictionary_sound c _ _ Hs). unfold addEdge, coeff_dictionary. frame.
  - refine (coeff_dictionary_sound c _ _ Hs). unfold addElem, coeff_dictionary. frame.
  - (* addExplicitPiece *)
    unfold addExplicitPiece in Hcall.
    repeat match type of Hcall with
           | context [if ?b then _ else _] => destruct b
           end; try discriminate; try (injection Hcall as <-; exact Hs).
    all: pose proof (getDictionaryIndex_coeff_sound coeffs c Hs) as Hd;
      destruct (getDictionaryIndex coeffs c) as [s_idx c1]; cbn [snd] in Hd;
      destruct (s_idx =? INVALID_INDEX); injection Hcall as <-; cbn [snd];
      [exact Hd | exact (coeff_dictionary_sound c1 _ (addPiece_coeff_dictionary _ c1) Hd)].
  - refine (coeff_dictionary_sound c _ _ Hs). unfold addLayout, coeff_dictionary. frame.
  - exact (coeff_dictionary_sound c _ (addPiece_coeff_dictionary _ c) Hs).
  - refine (coeff_dictionary_sound c _ _ Hs). unfold addPoint, coeff_dictionary. frame.
  - (* addTensorPiece *)
    unfold addTensorPiece.
    destruct ((wrap_int (size s_coeffs) <? 0) || (32767 <? wrap_int (size s_coeffs))
              || (wrap_int (size t_coeffs) <? 0) || (32767 <? wrap_int (size t_coeffs)));
      [exact Hs|].
    pose proof (getDictionaryIndex_coeff_sound s_coeffs c Hs) as H1.
    destruct (getDictionaryIndex s_coeffs c) as [s_idx c1]. cbn [snd] in H1.
    destruct (s_idx =? INVALID_INDEX); [exact H1|].
    pose proof (getDictionaryIndex_coeff_sound t_coeffs c1 H1) as H2.
    destruct (getDictionaryIndex t_coeffs c1) as [t_idx c2]. cbn [snd] in H2.
    destruct (t_idx =? INVALID_INDEX); cbn [snd]; [exact H2|].
    exact (coeff_dictionary_sound c2 _ (addPiece_coeff_dictionary _ c2) H2).
  - (* finishElem *)
    refine (coeff_dictionary_sound c _ _ Hs). unfold finishElem.
    repeat match goal with
           | |- context [if ?b then _ else _] => destruct b
           | |- context [match ?o with Some _ => _ | None => _ end] => destruct o
           end; try reflexivity.
    all: unfold addElem, coeff_dictionary; frame.
  - apply getDictionaryIndex_coeff_sound. exact Hs.
  - (* getLayoutIndex *)
    refine (coeff_dictionary_sound c _ _ Hs). unfold getLayoutIndex.
    destruct (map_find FaceLayout_lt lay (mLayoutLookup c)); [reflexivity|].
    match goal with
    | |- context [addLayout lay ?c0] =>
        assert (H0 : coeff_dictionary c0 = coeff_dictionary c)
          by (destruct ((size (mLayouts (mParent c)) =? 0)
                        && (FaceLayout_lt lay default_layout
                            || FaceLayout_lt default_layout lay)); reflexivity);
        destruct (addLayout_cases lay c0) as [-> | [_ ->]]
    end.
    + rewrite Z.eqb_refl. cbn [snd]. exact H0.
    + destruct (_ =? INVALID_INDEX); cbn [snd]; exact H0.
  - exact (coeff_dictionary_sound c _ eq_refl Hs).
Qed.

Lemma run_coeff_sound (calls : list Call) : forall c c',
  run calls c = Returns c' -> coeff_lookup_sound c -> coeff_lookup_sound c'.
Proof.
  induction calls as [|k calls IH]; intros c c' Hrun Hs; cbn [run] in Hrun.
  - injection Hrun as <-. exact Hs.
  - destruct (call k c) as [c1|] eqn:Ek; [|discriminate].
    apply (IH c1 c' Hrun). apply (call_coeff_sound k c c1 Ek Hs).
Qed.

Lemma same_value_refl (a : CoeffVector) :
  forallb Double.finite a = true -> Forall2 same_value a a.
Proof.
  induction a as [|x a IH]; cbn [forallb]; intros H; constructor.
  - apply andb_prop in H. destruct H as [Hx _].
    pose proof (finite_not_nan x Hx). unfold same_value. auto.
  - apply andb_prop in H. destruct H as [_ Ha]. exact (IH Ha).
Qed.

(** X11.  On a builder obtained from a new one by any calls, the index a
    successful [getDictionaryIndex] returns is the start of a run of the
    dictionary that has, cell by cell, the values of the vector ([0.0] and
    [-0.0] counting as the same value); either the builder is unchanged
    (the vector was already there), or the vector itself was appended at
    the former end of the dictionary. *)
Theorem getDictionaryIndex_names_a_stored_run
  (parent : IGAData) (calls : list Call) (c : IGACreator) (coeffs : CoeffVector) :
  run calls (IGACreator_new parent) = Returns c ->
  fst (getDictionaryIndex coeffs c) <> INVALID_INDEX ->
  0 <= fst (getDictionaryIndex coeffs c)
  /\ Forall2 same_value coeffs
       (run_at (mCoeffs (mParent (snd (getDictionaryIndex coeffs c))))
          (fst (getDictionaryIndex coeffs c)) (length coeffs))
  /\ (snd (getDictionaryIndex coeffs c) = c
      \/ (mCoeffs (mParent (snd (getDictionaryIndex coeffs c)))
          = mCoeffs (mParent c) ++ coeffs
          /\ fst (getDictionaryIndex coeffs c) = size (mCoeffs (mParent c)))).
Proof.
  intros Hrun.
  pose proof (run_coeff_sound calls _ _ Hrun (coeff_lookup_sound_new parent)) as Hs.
  unfold getDictionaryIndex.
  destruct (forallb Double.finite coeffs) eqn:Hfin; [|cbn [negb fst]; congruence].
  cbn [negb].
  destruct (map_find CoeffVectorLessThan coeffs (mCoeffLookup c)) as [second|] eqn:Efind.
  - (* a hit *)
    intros _. cbn [fst snd].
    destruct (map_find_some CoeffVectorLessThan coeffs second _ Efind) as [key [Heq Hin]].
    destruct (Hs key second Hin) as [Hkfin [_ [Hi Hkrun]]].
    pose proof (CoeffVector_equivalent_same coeffs key Hfin Hkfin Heq) as Hsame.
    split; [exact Hi|]. split; [|left; reflexivity].
    rewrite (Forall2_length Hsame), Hkrun. exact Hsame.
  - destruct (addCoeffs_cases coeffs c) as [-> | [Hlt ->]].
    + rewrite Z.eqb_refl. cbn [fst]. congruence.
    + replace (size (mCoeffs (mParent c)) =? INVALID_INDEX) with false
        by (symmetry; apply Z.eqb_neq; lia).
      intros _. cbn [fst snd mParent set_mParent set_mCoeffLookup mCoeffs set_mCoeffs].
      split; [apply size_nonneg|]. split; [|right; split; reflexivity].
      rewrite run_at_app_end. apply same_value_refl. exact Hfin.
Qed.

Lemma getDictionaryIndex_names_a_stored_run_witness :
  0 <= fst (getDictionaryIndex [Double.minus_zero]
              (snd (getDictionaryIndex [Double.zero] Examples.new_builder)))
  /\ Forall2 same_value [Double.minus_zero]
       (run_at (mCoeffs (mParent (snd (getDictionaryIndex [Double.minus_zero]
                  (snd (getDictionaryIndex [Double.zero] Examples.new_builder))))))
          (fst (getDictionaryIndex [Double.minus_zero]
                  (snd (getDictionaryIndex [Double.zero] Examples.new_builder)))) 1)
  /\ (snd (getDictionaryIndex [Double.minus_zero]
             (snd (getDictionaryIndex [Double.zero] Examples.new_builder)))
      = snd (getDictionaryIndex [Double.zero] Examples.new_builder)
      \/ (mCoeffs (mParent (snd (getDictionaryIndex [Double.minus_zero]
                     (snd (getDictionaryIndex [Double.zero] Examples.new_builder)))))
          = mCoeffs (mParent (snd (getDictionaryIndex [Double.zero] Examples.new_builder)))
            ++ [Double.minus_zero]
          /\ fst (getDictionaryIndex [Double.minus_zero]
                    (snd (getDictionaryIndex [Double.zero] Examples.new_builder)))
             = size (mCoeffs (mParent (snd (getDictionaryIndex [Double.zero]
                                               Examples.new_builder)))))).
Proof.
  apply (getDictionaryIndex_names_a_stored_run IGAData_default
           [Call_getDictionaryIndex [Double.zero]]
           (snd (getDictionaryIndex [Double.zero] Examples.new_builder))
           [Double.minus_zero]).
  - reflexivity.
  - discriminate.
Defined.

(** No vector of [0x7FFF] values or more enters the dictionary. *)
Lemma getDictionaryIndex_big (c : IGACreator) (coeffs : CoeffVector) :
  coeff_lookup_sound c ->
  0x7FFF <= size coeffs ->
  getDictionaryIndex coeffs c = (INVALID_INDEX, c).
Proof.
  intros Hs Hbig. unfold getDictionaryIndex.
  destruct (forallb Double.finite coeffs) eqn:Hfin; [|reflexivity]. cbn [negb].
  destruct (map_find CoeffVectorLessThan coeffs (mCoeffLookup c)) as [second|] eqn:Efind.
  - exfalso.
    destruct (map_find_some CoeffVectorLessThan coeffs second _ Efind) as [key [Heq Hin]].
    destruct (Hs key second Hin) as [Hkfin [Hsmall _]].
    pose proof (Forall2_length (CoeffVector_equivalent_same coeffs key Hfin Hkfin Heq)) as Hl.
    unfold size in *. lia.
  - unfold addCoeffs.
    replace (0x7FFF <=? size coeffs) with true by (symmetry; apply Z.leb_le; exact Hbig).
    rewrite orb_true_r, Z.eqb_refl. reflexivity.
Qed.

(** X12.  On a builder obtained from a new one by any calls,
    [addExplicitPiece] with [0x7FFF] coefficients or more and a non-zero
    [s_order] returns [INVALID_INDEX] and changes nothing, whatever the
    orders: an explicit piece of 182 x 182 coefficients, say, cannot be
    added, although each order alone may be as large as [0x7FFF]. *)
Theorem addExplicitPiece_refuses_large_blocks
  (parent : IGAData) (calls : list Call) (c : IGACreator)
  (s_order : Z) (pt_index : uint32_t) (coeffs : CoeffVector) :
  run calls (IGACreator_new parent) = Returns c ->
  s_order <> 0 ->
  0x7FFF <= size coeffs ->
  addExplicitPiece s_order pt_index coeffs c = Returns (INVALID_INDEX, c).
Proof.
  intros Hrun Hnz Hbig.
  pose proof (run_coeff_sound calls _ _ Hrun (coeff_lookup_sound_new parent)) as Hs.
  unfold addExplicitPiece.
  replace (s_order =? 0) with false by (symmetry; apply Z.eqb_neq; exact Hnz).
  rewrite (getDictionaryIndex_big c coeffs Hs Hbig), Z.eqb_refl.
  repeat match goal with
         | |- context [if ?b then _ else _] => destruct b
         end; reflexivity.
Qed.

Lemma addExplicitPiece_refuses_large_blocks_witness :
  addExplicitPiece 182 0 (repeat Double.one (N.to_nat 33124)) Examples.new_builder
  = Returns (INVALID_INDEX, Examples.new_builder).
Proof.
  apply (addExplicitPiece_refuses_large_blocks IGAData_default [] Examples.new_builder
           182 0 (repeat Double.one (N.to_nat 33124))).
  - reflexivity.
  - discriminate.
  - rewrite size_repeat, N_nat_Z. discriminate.
Defined.

(** ** Pieces recorded by the builder *)

Lemma wrap_int_small (z : Z) : 0 <= z < 2 ^ 31 -> wrap_int z = z.
Proof. intros H. unfold wrap_int. rewrite Z.mod_small; lia. Qed.

Lemma lor_shiftl_16 (s t : Z) :
  0 <= s < 2 ^ 16 -> 0 <= t -> Z.lor s (Z.shiftl t 16) = s + t * 2 ^ 16.
Proof.
  intros Hs Ht.
  assert (Hland : Z.land s (Z.shiftl t 16) = 0).
  { apply Z.bits_inj'. intros n Hn. rewrite Z.land_spec, Z.bits_0.
    destruct (Z.ltb_spec n 16) as [Hlt|Hge].
    - rewrite Z.shiftl_spec_low by exact Hlt. apply andb_false_r.
    - destruct (Z.eq_dec s 0) as [->|Hnz]; [rewrite Z.bits_0; reflexivity|].
      rewrite (Z.bits_above_log2 s n); [reflexivity|lia|].
      apply Z.lt_le_trans with 16; [|exact Hge].
      apply Z.log2_lt_pow2; lia. }
  rewrite <- Z.lxor_lor by exact Hland.
  rewrite <- Z.add_nocarry_lxor by exact Hland.
  rewrite Z.shiftl_mul_pow2 by lia. reflexivity.
Qed.

(** [( s_order ) | ( t_order << 16 )] and the two accessors' unpacking. *)
Lemma st_order_unpacks (s t : Z) :
  0 <= s <= 0x7FFF -> 0 <= t <= 0x7FFF ->
  Z.land (wrap32 (Z.lor s (wrap_int (Z.shiftl t 16)))) 0xFFFF = s
  /\ Z.shiftr (wrap32 (Z.lor s (wrap_int (Z.shiftl t 16)))) 16 = t.
Proof.
  intros Hs Ht.
  assert (Hsh : Z.shiftl t 16 = t * 2 ^ 16) by (apply Z.shiftl_mul_pow2; lia).
  rewrite wrap_int_small by (rewrite Hsh; lia).
  rewrite lor_shiftl_16 by lia.
  unfold wrap32. rewrite (Z.mod_small (s + t * 2 ^ 16)) by lia.
  split.
  - change 0xFFFF with (Z.ones 16). rewrite Z.land_ones by lia.
    rewrite Z.mod_add by lia. apply Z.mod_small. lia.
  - rewrite Z.shiftr_div_pow2 by lia.
    rewrite Z.div_add by lia. rewrite Z.div_small by lia. reflexivity.
Qed.

(** What a successful [getDictionaryIndex] gives on a builder whose
    look-up table is sound. *)
Lemma getDictionaryIndex_success (coeffs : CoeffVector) (c : IGACreator) :
  coeff_lookup_sound c ->
  fst (getDictionaryIndex coeffs c) <> INVALID_INDEX ->
  0 <= fst (getDictionaryIndex coeffs c)
  /\ size coeffs < 0x7FFF
  /\ Forall2 same_value coeffs
       (run_at (mCoeffs (mParent (snd (getDictionaryIndex coeffs c))))
          (fst (getDictionaryIndex coeffs c)) (length coeffs))
  /\ (exists more, mCoeffs (mParent (snd (getDictionaryIndex coeffs c)))
                   = mCoeffs (mParent c) ++ more)
  /\ mPieces (mParent (snd (getDictionaryIndex coeffs c))) = mPieces (mParent c)
  /\ mPoints (mParent (snd (getDictionaryIndex coeffs c))) = mPoints (mParent c).
Proof.
  intros Hs. unfold getDictionaryIndex.
  destruct (forallb Double.finite coeffs) eqn:Hfin; [|cbn [negb fst]; congruence].
  cbn [negb].
  destruct (map_find CoeffVectorLessThan coeffs (mCoeffLookup c)) as [second|] eqn:Efind.
  - intros _. cbn [fst snd].
    destruct (map_find_some CoeffVectorLessThan coeffs second _ Efind) as [key [Heq Hin]].
    destruct (Hs key second Hin) as [Hkfin [Hsmall [Hi Hkrun]]].
    pose proof (CoeffVector_equivalent_same coeffs key Hfin Hkfin Heq) as Hsame.
    pose proof (Forall2_length Hsame) as Hlen.
    repeat split; try reflexivity.
    + exact Hi.
    + unfold size in *. lia.
    + rewrite Hlen, Hkrun. exact Hsame.
    + exists []. rewrite app_nil_r. reflexivity.
  - pose proof (addCoeffs_small coeffs c) as Hsmall.
    destruct (addCoeffs_cases coeffs c) as [E | [Hlt E]]; rewrite E in *.
    + rewrite Z.eqb_refl. cbn [fst]. congruence.
    + replace (size (mCoeffs (mParent c)) =? INVALID_INDEX) with false
        by (symmetry; apply Z.eqb_neq; lia).
      intros _.
      cbn [fst snd mParent set_mParent set_mCoeffLookup mCoeffs set_mCoeffs
           mPieces mPoints] in *.
      repeat split; try reflexivity.
      * apply size_nonneg.
      * apply Hsmall. lia.
      * rewrite run_at_app_end. apply same_value_refl. exact Hfin.
      * exists coeffs. reflexivity.
Qed.

Lemma same_value_run_kept (v : CoeffVector) (vec more : list double) (i : Z) :
  Forall2 same_value v (run_at vec i (length v)) ->
  Forall2 same_value v (run_at (vec ++ more) i (length v)).
Proof.
  intros H. rewrite run_at_app_keep; [exact H|].
  symmetry. exact (Forall2_length H).
Qed.

(** X13.  On a builder obtained from a new one by any calls, when
    [addTensorPiece] returns an index other than [INVALID_INDEX], the piece
    at that index reads back as given: it is a tensor piece, its two orders
    are the lengths of the two vectors, its point index is the one given, and
    its two indices are the starts of runs of the dictionary that hold the
    values of [s_coeffs] and of [t_coeffs]. *)
Theorem addTensorPiece_reads_back
  (parent : IGAData) (calls : list Call) (c : IGACreator)
  (s_coeffs t_coeffs : CoeffVector) (pt : uint32_t) :
  run calls (IGACreator_new parent) = Returns c ->
  fst (addTensorPiece s_coeffs t_coeffs pt c) <> INVALID_INDEX ->
  let i := fst (addTensorPiece s_coeffs t_coeffs pt c) in
  let g := mParent (snd (addTensorPiece s_coeffs t_coeffs pt c)) in
  pieceIsTensor g i = Some true
  /\ pieceIsExplicit g i = Some false
  /\ pieceSOrder g i = Some (size s_coeffs)
  /\ pieceTOrder g i = Some (size t_coeffs)
  /\ piecePointIndex g i = Some pt
  /\ (exists si, pieceSIndex g i = Some si
                 /\ Forall2 same_value s_coeffs (run_at (mCoeffs g) si (length s_coeffs)))
  /\ (exists ti, pieceTIndex g i = Some ti
                 /\ Forall2 same_value t_coeffs (run_at (mCoeffs g) ti (length t_coeffs))).
Proof.
  intros Hrun.
  pose proof (run_coeff_sound calls _ _ Hrun (coeff_lookup_sound_new parent)) as Hs.
  unfold addTensorPiece.
  destruct ((wrap_int (size s_coeffs) <? 0) || (0x7FFF <? wrap_int (size s_coeffs))
            || (wrap_int (size t_coeffs) <? 0) || (0x7FFF <? wrap_int (size t_coeffs)));
    [cbn [fst]; congruence|].
  pose proof (getDictionaryIndex_success s_coeffs c Hs) as HS.
  pose proof (getDictionaryIndex_coeff_sound s_coeffs c Hs) as Hs1.
  destruct (getDictionaryIndex s_coeffs c) as [s_idx c1].
  cbn [fst snd] in HS, Hs1.
  destruct (Z.eqb_spec s_idx INVALID_INDEX) as [|Hsi]; [cbn [fst]; congruence|].
  destruct (HS Hsi) as [Hs0 [Hssmall [Hsrun _]]]. clear HS.
  pose proof (getDictionaryIndex_success t_coeffs c1 Hs1) as HT.
  destruct (getDictionaryIndex t_coeffs c1) as [t_idx c2].
  cbn [fst snd] in HT.
  destruct (Z.eqb_spec t_idx INVALID_INDEX) as [|Hti]; [cbn [fst]; congruence|].
  destruct (HT Hti) as [Ht0 [Htsmall [Htrun [[more Hmore] _]]]]. clear HT.
  set (piece := mkPiece2D _ s_idx t_idx pt).
  destruct (addPiece_result piece c2) as [_ [Hco [[E _] | [Ei [_ Epieces]]]]];
    [intros Hne; exfalso; exact (Hne E)|].
  intros _. cbn zeta. rewrite Ei.
  unfold pieceIsTensor, pieceIsExplicit, pieceSOrder, pieceTOrder, piecePointIndex,
    pieceSIndex, pieceTIndex.
  rewrite Epieces, at_index_size, Hco. cbn [option_map].
  pose proof (size_nonneg s_coeffs) as Hsn. pose proof (size_nonneg t_coeffs) as Htn.
  destruct (st_order_unpacks (size s_coeffs) (size t_coeffs)) as [Hlow Hhigh];
    [lia|lia|].
  subst piece. cbn [maybe_t_index st_order pt_index s_index].
  rewrite (wrap_int_small (size s_coeffs)), (wrap_int_small (size t_coeffs)) by lia.
  rewrite Hlow, Hhigh.
  replace (t_idx =? INVALID_INDEX) with false by (symmetry; apply Z.eqb_neq; exact Hti).
  repeat split.
  - exists s_idx. split; [reflexivity|].
    rewrite Hmore. apply same_value_run_kept. exact Hsrun.
  - exists t_idx. split; [reflexivity|exact Htrun].
Qed.

Lemma addTensorPiece_reads_back_witness :
  let s_coeffs := [Double.one; Double.zero] in
  let t_coeffs := [Double.zero; Double.one; Double.one] in
  let i := fst (addTensorPiece s_coeffs t_coeffs 7 Examples.new_builder) in
  let g := mParent (snd (addTensorPiece s_coeffs t_coeffs 7 Examples.new_builder)) in
  pieceIsTensor g i = Some true
  /\ pieceIsExplicit g i = Some false
  /\ pieceSOrder g i = Some (size s_coeffs)
  /\ pieceTOrder g i = Some (size t_coeffs)
  /\ piecePointIndex g i = Some 7
  /\ (exists si, pieceSIndex g i = Some si
                 /\ Forall2 same_value s_coeffs (run_at (mCoeffs g) si (length s_coeffs)))
  /\ (exists ti, pieceTIndex g i = Some ti
                 /\ Forall2 same_value t_coeffs (run_at (mCoeffs g) ti (length t_coeffs))).
Proof.
  apply (addTensorPiece_reads_back IGAData_default [] Examples.new_builder
           [Double.one; Double.zero] [Double.zero; Double.one; Double.one] 7).
  - reflexivity.
  - discriminate.
Defined.

(** X14.  On a builder obtained from a new one by any calls, when
    [addExplicitPiece] returns an index other than [INVALID_INDEX], the
    piece at that index reads back as given: it is an explicit piece, its
    S order is [s_order], its T order times [s_order] is the number of
    coefficients, its point index is the one given, and its coefficient
    index is the start of a run of the dictionary that holds the values of
    [coeffs]. *)
Theorem addExplicitPiece_reads_back
  (parent : IGAData) (calls : list Call) (c c' : IGACreator)
  (s_order : Z) (pt i : uint32_t) (coeffs : CoeffVector) :
  run calls (IGACreator_new parent) = Returns c ->
  addExplicitPiece s_order pt coeffs c = Returns (i, c') ->
  i <> INVALID_INDEX ->
  pieceIsExplicit (mParent c') i = Some true
  /\ pieceIsTensor (mParent c') i = Some false
  /\ pieceSOrder (mParent c') i = Some s_order
  /\ (exists t_order, pieceTOrder (mParent c') i = Some t_order
                      /\ s_order * t_order = size coeffs)
  /\ piecePointIndex (mParent c') i = Some pt
  /\ (exists si, pieceExplicitCoeffs (mParent c') i = coeffs_from (mParent c') si
                 /\ pieceSIndex (mParent c') i = Some si
                 /\ Forall2 same_value coeffs
                      (run_at (mCoeffs (mParent c')) si (length coeffs))).
Proof.
  intros Hrun.
  pose proof (run_coeff_sound calls _ _ Hrun (coeff_lookup_sound_new parent)) as Hs.
  unfold addExplicitPiece.
  destruct (0x7FFF * 0x7FFF <? size coeffs); [intros [= <- _]; congruence|].
  destruct (Z.eqb_spec s_order 0) as [|Hnz]; [discriminate|].
  set (t_order := wrap_int (Z.quot (wrap_int (size coeffs)) s_order)).
  destruct (Z.ltb_spec s_order 0) as [|Hs0]; [intros [= <- _]; congruence|].
  destruct (Z.ltb_spec 0x7FFF s_order) as [|Hs1]; [intros [= <- _]; congruence|].
  destruct (Z.ltb_spec t_order 0) as [|Ht0]; [intros [= <- _]; congruence|].
  destruct (Z.ltb_spec 0x7FFF t_order) as [|Ht1]; [intros [= <- _]; congruence|].
  cbn [orb].
  destruct (Z.eqb_spec (wrap64 (wrap64 s_order * wrap64 t_order)) (size coeffs))
    as [Hprod|]; [|intros [= <- _]; congruence].
  cbn [negb].
  assert (Hmul : s_order * t_order = size coeffs).
  { rewrite <- Hprod. unfold wrap64.
    rewrite (Z.mod_small s_order), (Z.mod_small t_order) by lia.
    symmetry. apply Z.mod_small. nia. }
  pose proof (getDictionaryIndex_success coeffs c Hs) as HS.
  destruct (getDictionaryIndex coeffs c) as [s_idx c1].
  cbn [fst snd] in HS.
  destruct (Z.eqb_spec s_idx INVALID_INDEX) as [|Hsi]; [intros [= <- _]; congruence|].
  destruct (HS Hsi) as [_ [_ [Hsrun _]]]. clear HS.
  set (piece := mkPiece2D _ s_idx INVALID_INDEX pt).
  intros H Hne. injection H as H.
  destruct (addPiece_result piece c1) as [_ [Hco [[E _] | [Ei [_ Epieces]]]]];
    rewrite H in *; cbn [fst snd] in *; [congruence|].
  unfold pieceExplicitCoeffs, pieceSCoeffs, pieceIsTensor, pieceIsExplicit,
    pieceSOrder, pieceTOrder, piecePointIndex, pieceSIndex.
  rewrite Ei, Epieces, at_index_size, Hco. cbn [option_map].
  destruct (st_order_unpacks s_order t_order) as [Hlow Hhigh]; [lia|lia|].
  subst piece. cbn [maybe_t_index st_order pt_index s_index].
  rewrite Hlow, Hhigh. rewrite Z.eqb_refl. cbn [negb].
  repeat split.
  - exists t_order. split; [reflexivity|exact Hmul].
  - exists s_idx. repeat split. exact Hsrun.
Qed.

Lemma addExplicitPiece_reads_back_witness :
  let coeffs := [Double.one; Double.zero; Double.zero; Double.one;
                 Double.one; Double.one] in
  let c' := snd (addPiece (mkPiece2D 196610 0 INVALID_INDEX 7)
                   (snd (getDictionaryIndex coeffs Examples.new_builder))) in
  pieceIsExplicit (mParent c') 0 = Some true
  /\ pieceIsTensor (mParent c') 0 = Some false
  /\ pieceSOrder (mParent c') 0 = Some 2
  /\ (exists t_order, pieceTOrder (mParent c') 0 = Some t_order
                      /\ 2 * t_order = size coeffs)
  /\ piecePointIndex (mParent c') 0 = Some 7
  /\ (exists si, pieceExplicitCoeffs (mParent c') 0 = coeffs_from (mParent c') si
                 /\ pieceSIndex (mParent c') 0 = Some si
                 /\ Forall2 same_value coeffs
                      (run_at (mCoeffs (mParent c')) si (length coeffs))).
Proof.
  apply (addExplicitPiece_reads_back IGAData_default [] Examples.new_builder _
           2 7 0 [Double.one; Double.zero; Double.zero; Double.one;
                  Double.one; Double.one]).
  - reflexivity.
  - reflexivity.
  - discriminate.
Defined.

(** ** Closing an element *)

Lemma addElem_result (elem : Elem) (c : IGACreator) :
  (fst (addElem elem c) = INVALID_INDEX)
  \/ (fst (addElem elem c) = size (mElems (mParent c))
      /\ mParent (snd (addElem elem c))
         = set_mElems (mParent c) (mElems (mParent c) ++ [elem])).
Proof.
  unfold addElem.
  destruct (safeAppend_cases sizeof_Elem (mElems (mParent c)) elem) as [E | [_ E]];
    rewrite E; cbn [fst snd mParent set_mParent]; [left|right; split]; reflexivity.
Qed.

Lemma last_app_one {A} (l : list A) (x d : A) : last (l ++ [x]) d = x.
Proof. apply last_last. Qed.

Lemma at_index_last {A} (l : list A) (d : A) :
  l <> [] -> at_index l (size l - 1) = Some (last l d).
Proof.
  intros Hne. destruct (exists_last Hne) as [l' [x ->]].
  rewrite last_last. rewrite size_app. change (size [x]) with 1.
  replace (size l' + 1 - 1) with (size l') by lia. apply at_index_size.
Qed.

(** X15.  [finishElem] returns [INVALID_INDEX] and changes nothing when the
    layout index is not the index of a stored layout; this includes index 0
    on a builder that stores no layout.  When it returns another index, that
    index is the former number of elements, the element recorded there ends
    at the current numbers of edges and of pieces and carries the layout
    index, and the number of edges added since the previous element is
    [side_range[4]] of the stored layout. *)
Theorem finishElem_closes_the_element (c : IGACreator) (li : uint32_t) :
  (size (mLayouts (mParent c)) <= li -> finishElem li c = (INVALID_INDEX, c))
  /\ (fst (finishElem li c) <> INVALID_INDEX ->
      let i := fst (finishElem li c) in
      let g' := mParent (snd (finishElem li c)) in
      i = size (mElems (mParent c))
      /\ g' = set_mElems (mParent c)
                (mElems (mParent c)
                 ++ [mkElem (pieceCount (mParent c)) li (edgeCount (mParent c))])
      /\ edgeEnd g' i = Some (edgeCount g')
      /\ pieceEnd g' i = Some (pieceCount g')
      /\ layoutIndex g' i = Some li
      /\ exists b lay,
           edgeBegin g' i = Some b
           /\ at_index (mLayouts g') li = Some lay
           /\ wrap32 (edgeCount g' - b) = side_range_4 lay).
Proof.
  split.
  - intros Hge. unfold finishElem.
    replace (size (mLayouts (mParent c)) <=? li) with true
      by (symmetry; apply Z.leb_le; exact Hge).
    reflexivity.
  - unfold finishElem.
    destruct (size (mLayouts (mParent c)) <=? li); [cbn [fst]; congruence|].
    destruct (at_index (mLayouts (mParent c)) li) as [lay|] eqn:Elay;
      [|cbn [fst]; congruence].
    match goal with
    | |- context [negb (?count =? side_range_4 lay)] =>
        destruct (Z.eqb_spec count (side_range_4 lay)) as [Hcount|]
    end; [|cbn [fst negb]; congruence].
    cbn [negb].
    set (elem := mkElem (pieceCount (mParent c)) li (edgeCount (mParent c))).
    destruct (addElem_result elem c) as [E | [Ei Eg]]; [congruence|].
    intros _. cbn zeta. rewrite Ei, Eg.
    pose proof (size_nonneg (mElems (mParent c))) as Hn.
    assert (Hat : at_index (mElems (mParent c) ++ [elem]) (size (mElems (mParent c)))
                  = Some elem) by apply at_index_size.
    unfold edgeEnd, pieceEnd, layoutIndex, edgeBegin, edgeCount, pieceCount.
    cbn [mElems set_mElems mEdges mPieces mLayouts].
    rewrite size_app. change (size [elem]) with 1.
    replace (size (mElems (mParent c)) + 1 <=? size (mElems (mParent c))) with false
      by (symmetry; apply Z.leb_gt; lia).
    rewrite Hat. cbn [option_map].
    repeat split.
    destruct (Z.eqb_spec (size (mElems (mParent c))) 0) as [Hz|Hnz].
    + exists 0, lay. repeat split; [exact Elay|].
      rewrite Z.sub_0_r. unfold wrap32. rewrite Z.mod_mod by lia. exact Hcount.
    + assert (Hne : mElems (mParent c) <> []).
      { intros E0. rewrite E0 in Hnz. apply Hnz. reflexivity. }
      exists (edge_end_index (last (mElems (mParent c)) (mkElem 0 0 0))), lay.
      split; [|split; [exact Elay|]].
      * rewrite (at_index_app_l _ _ _ _ (at_index_last (mElems (mParent c)) (mkElem 0 0 0) Hne)).
        reflexivity.
      * rewrite <- Hcount. unfold wrap32. apply Zminus_mod_idemp_l.
Qed.

Lemma finishElem_closes_the_element_witness :
  finishElem 0 Examples.new_builder = (INVALID_INDEX, Examples.new_builder)
  /\ (let i := fst (finishElem 0 MoreExamples.four_edges) in
      let g' := mParent (snd (finishElem 0 MoreExamples.four_edges)) in
      i = 0
      /\ g' = set_mElems (mParent MoreExamples.four_edges) [mkElem 0 0 4]
      /\ edgeEnd g' i = Some 4
      /\ pieceEnd g' i = Some 0
      /\ layoutIndex g' i = Some 0
      /\ exists b lay,
           edgeBegin g' i = Some b
           /\ at_index (mLayouts g') 0 = Some lay
           /\ wrap32 (edgeCount g' - b) = side_range_4 lay).
Proof.
  split.
  - apply (proj1 (finishElem_closes_the_element Examples.new_builder 0)).
    discriminate.
  - apply (proj2 (finishElem_closes_the_element MoreExamples.four_edges 0)).
    vm_compute. discriminate.
Defined.

(** ** The reader, block by block *)

(** What was read does not depend on what follows in the source. *)
Lemma readData_frame (n : Z) (src a b rest : list byte) :
  readData n src = Some (a, b) -> readData n (src ++ rest) = Some (a, b ++ rest).
Proof.
  unfold readData. destruct (Z.leb_spec n (size src)) as [Hle|]; [|discriminate].
  intros [= <- <-].
  replace (n <=? size (src ++ rest)) with true
    by (symmetry; apply Z.leb_le; rewrite size_app; pose proof (size_nonneg rest); lia).
  assert (Hlen : (Z.to_nat n <= length src)%nat) by (unfold size in Hle; lia).
  rewrite firstn_app, skipn_app.
  replace (Z.to_nat n - length src)%nat with O by lia.
  cbn [firstn skipn]. rewrite app_nil_r. reflexivity.
Qed.

Lemma readBlock_frame {T} (W : Wire T) (dst vec : list T) (len : Z)
  (src src' rest : list byte) :
  readBlock W dst len src = Some (vec, src') ->
  readBlock W dst len (src ++ rest) = Some (vec, src' ++ rest).
Proof.
  unfold readBlock.
  destruct (negb (len mod sizeof W =? 0)); [discriminate|].
  destruct (negb (len =? 0)).
  - destruct (IGA_MAX_ALLOC <=? len); [discriminate|].
    destruct (readData len src) as [[bytes src1]|] eqn:E1; [|discriminate].
    rewrite (readData_frame _ _ _ _ rest E1).
    destruct (readData 8 src1) as [[final_len src2]|] eqn:E2; [|discriminate].
    rewrite (readData_frame _ _ _ _ rest E2).
    destruct (negb (le_combine final_len =? len)); [discriminate|].
    intros [= <- <-]. reflexivity.
  - destruct (readData 8 src) as [[final_len src2]|] eqn:E2; [|discriminate].
    rewrite (readData_frame _ _ _ _ rest E2).
    destruct (negb (le_combine final_len =? len)); [discriminate|].
    intros [= <- <-]. reflexivity.
Qed.

Lemma read_body_frame (g g' : IGAData) (h : BlockHeader) (src src' rest : list byte) :
  read_body g h src = Some (g', src') ->
  read_body g h (src ++ rest) = Some (g', src' ++ rest).
Proof.
  unfold read_body, set_field.
  repeat match goal with
         | |- context [if ?b then _ else _] => destruct b
         end; try discriminate;
    match goal with
    | |- context [readBlock ?W ?d ?l src] =>
        destruct (readBlock W d l src) as [[vec src1]|] eqn:E; [|discriminate];
        rewrite (readBlock_frame W d vec l src src1 rest E)
    end;
    intros [= <- <-]; reflexivity.
Qed.

Lemma read_one_block_frame (g g' : IGAData) (src src' rest : list byte) :
  read_one_block g src = Some (g', src') ->
  read_one_block g (src ++ rest) = Some (g', src' ++ rest).
Proof.
  unfold read_one_block.
  destruct (readData sizeof_BlockHeader src) as [[bytes src1]|] eqn:E; [|discriminate].
  rewrite (readData_frame _ _ _ _ rest E). apply read_body_frame.
Qed.

Lemma blocks_read_frame (g g' : IGAData) (src src' rest : list byte) :
  blocks_read g src g' src' -> blocks_read g (src ++ rest) g' (src' ++ rest).
Proof.
  induction 1 as [|g src g1 src1 g2 src2 H1 _ IH].
  - apply blocks_read_none.
  - eapply blocks_read_more; [apply read_one_block_frame; exact H1|exact IH].
Qed.

Lemma blocks_read_trans (g g1 g2 : IGAData) (src src1 src2 : list byte) :
  blocks_read g src g1 src1 -> blocks_read g1 src1 g2 src2 -> blocks_read g src g2 src2.
Proof.
  induction 1 as [|g src ga srca gb srcb H1 _ IH]; intros H2.
  - exact H2.
  - eapply blocks_read_more; [exact H1|exact (IH H2)].
Qed.

Lemma vector_of_bytes_length {T} (W : Wire T) (n : nat) : forall bytes,
  length (vector_of_bytes W n bytes) = n.
Proof.
  induction n as [|n IH]; intros bytes; cbn [vector_of_bytes length];
    [reflexivity|]. rewrite IH. reflexivity.
Qed.

(** X16.  When [readBlock] accepts a block of [len] bytes, [len] is a whole
    number of elements and is below [IGA_MAX_ALLOC], the source holds [len]
    bytes of contents followed by the 8 bytes of [len] again, and exactly
    these were consumed.  A block of length zero leaves the vector as it
    was; any other block replaces it by [len / sizeof( T )] elements made
    from the contents. *)
Theorem readBlock_accepts {T} (W : Wire T) (dst vec : list T) (len : Z)
  (src src' : list byte) :
  0 < sizeof W ->
  0 <= len ->
  readBlock W dst len src = Some (vec, src') ->
  len mod sizeof W = 0
  /\ len < IGA_MAX_ALLOC
  /\ (exists contents,
        size contents = len
        /\ src = contents ++ le_split 8 len ++ src'
        /\ vec = if len =? 0 then dst
                 else vector_of_bytes W (Z.to_nat (len / sizeof W)) contents)
  /\ (len <> 0 -> size vec = len / sizeof W).
Proof.
  intros Hsize Hlen. unfold readBlock.
  destruct (Z.eqb_spec (len mod sizeof W) 0) as [Hmod|]; [|discriminate].
  cbn [negb].
  assert (Htrailer : forall s final_len s2,
            readData 8 s = Some (final_len, s2) -> le_combine final_len = len ->
            s = le_split 8 len ++ s2).
  { intros s final_len s2 E Hc. apply readData_some in E.
    destruct E as [H8 [-> ->]]. rewrite <- Hc.
    replace 8%nat with (length (firstn (Z.to_nat 8) s)) at 1
      by (rewrite length_firstn; unfold size in H8; lia).
    rewrite split_le_combine. symmetry. apply firstn_skipn. }
  destruct (Z.eqb_spec len 0) as [Hz|Hnz]; cbn [negb].
  - destruct (readData 8 src) as [[final_len src2]|] eqn:E2; [|discriminate].
    destruct (Z.eqb_spec (le_combine final_len) len) as [Hc|]; [|discriminate].
    cbn [negb]. intros [= <- <-].
    split; [exact Hmod|]. split; [rewrite Hz; reflexivity|]. split; [|congruence].
    exists []. split; [rewrite Hz; reflexivity|]. split; [|reflexivity].
    exact (Htrailer _ _ _ E2 Hc).
  - destruct (Z.leb_spec IGA_MAX_ALLOC len) as [|Hceil]; [discriminate|].
    destruct (readData len src) as [[bytes src1]|] eqn:E1; [|discriminate].
    destruct (readData 8 src1) as [[final_len src2]|] eqn:E2; [|discriminate].
    destruct (Z.eqb_spec (le_combine final_len) len) as [Hc|]; [|discriminate].
    cbn [negb]. intros [= <- <-].
    split; [exact Hmod|]. split; [exact Hceil|]. split.
    + exists bytes. pose proof (readData_rest _ _ _ _ Hlen E1) as Hrest.
      apply readData_some in E1. destruct E1 as [Hle [Hb Hs1]].
      split; [|split; [|reflexivity]].
      * rewrite Hb. unfold size in *. rewrite length_firstn. lia.
      * rewrite <- (Htrailer _ _ _ E2 Hc). rewrite Hb, Hs1.
        symmetry. apply firstn_skipn.
    + intros _. unfold size. rewrite vector_of_bytes_length.
      apply Z2Nat.id. apply Z.div_pos; [exact Hlen|exact Hsize].
Qed.

Lemma readBlock_accepts_witness :
  7 * 8 mod sizeof Wire_double = 0
  /\ 7 * 8 < IGA_MAX_ALLOC
  /\ (exists contents,
        size contents = 7 * 8
        /\ vector_bytes Wire_double (repeat Double.one 7) ++ le_split 8 (7 * 8) ++ [Byte.x2a]
           = contents ++ le_split 8 (7 * 8) ++ [Byte.x2a]
        /\ repeat Double.one 7
           = if 7 * 8 =? 0 then []
             else vector_of_bytes Wire_double (Z.to_nat (7 * 8 / sizeof Wire_double)) contents)
  /\ (7 * 8 <> 0 -> size (repeat Double.one 7) = 7 * 8 / sizeof Wire_double).
Proof.
  apply (readBlock_accepts Wire_double [] (repeat Double.one 7) (7 * 8)
           (vector_bytes Wire_double (repeat Double.one 7) ++ le_split 8 (7 * 8) ++ [Byte.x2a])
           [Byte.x2a]).
  - reflexivity.
  - discriminate.
  - reflexivity.
Defined.

Lemma vector_bytes_char (contents : list byte) : vector_bytes Wire_char contents = contents.
Proof.
  unfold vector_bytes. induction contents as [|b contents IH]; cbn [flat_map];
    [reflexivity|]. rewrite IH. reflexivity.
Qed.

Lemma Forall_in_range_char (contents : list byte) : Forall (in_range Wire_char) contents.
Proof. apply Forall_forall. intros; exact I. Qed.

Lemma raw_header_size (tag id len : Z) : size (raw_header tag id len) = sizeof_BlockHeader.
Proof. unfold raw_header. rewrite !size_app, !size_le_split. reflexivity. Qed.

Lemma BlockHeader_of_raw_header (tag id len : Z) :
  is_u64 tag -> is_u64 id -> is_u64 len ->
  BlockHeader_of_bytes (raw_header tag id len) = mkBlockHeader BLOCK_text tag id len.
Proof.
  intros Htag Hid Hlen. unfold BlockHeader_of_bytes, raw_header, member.
  let v := eval vm_compute in BLOCK_text in change BLOCK_text with v.
  cbn [le_split app skipn firstn].
  f_equal;
    [exact (le_combine_split_u64 tag Htag)
    | exact (le_combine_split_u64 id Hid) | exact (le_combine_split_u64 len Hlen)].
Qed.

(** X17.  A block whose 64-bit tag is none of the eight stored ones is
    skipped: whatever the eight bytes of the tag (the tag of a text, the
    blank tag 0, a name padded with zero bytes), its id and its contents
    (below [IGA_MAX_ALLOC] bytes), reading it leaves the geometry as it was
    and consumes exactly the block. *)
Theorem read_one_block_skips_unknown (g : IGAData) (tag id : Z)
  (contents rest : list byte) :
  is_u64 tag ->
  is_known_block tag = false ->
  is_u64 id ->
  size contents < IGA_MAX_ALLOC ->
  read_one_block g
    (raw_header tag id (size contents)
     ++ contents ++ le_split 8 (size contents) ++ rest)
  = Some (g, rest).
Proof.
  intros Htag Hunknown Hid Hsmall.
  pose proof (size_nonneg contents) as Hn.
  unfold read_one_block.
  rewrite (readData_app sizeof_BlockHeader) by apply raw_header_size.
  rewrite BlockHeader_of_raw_header
    by (try exact Htag; try exact Hid; unfold is_u64, IGA_MAX_ALLOC in *; lia).
  unfold is_known_block, known_block_types in Hunknown. cbn [existsb] in Hunknown.
  repeat (apply orb_false_elim in Hunknown; destruct Hunknown as [? Hunknown]).
  unfold read_body. cbn [block_tag Reader.tag block_len].
  rewrite Z.eqb_refl. cbn [negb].
  repeat match goal with
         | H : (tag =? ?t) = false |- _ => rewrite H; clear H
         end.
  pose proof (readBlock_written Wire_char Wire_char_ok [] contents rest
                (Forall_in_range_char contents)) as Hread.
  rewrite vector_bytes_char in Hread.
  change (sizeof Wire_char) with 1 in Hread. rewrite Z.mul_1_l in Hread.
  rewrite (Hread Hsmall). cbn [set_field]. reflexivity.
Qed.

Lemma read_one_block_skips_unknown_witness :
  read_one_block Examples.one_patch
    (raw_header EDGES_zero_padded 5 (size (text "hello"))
     ++ text "hello" ++ le_split 8 (size (text "hello")) ++ [Byte.x2a])
  = Some (Examples.one_patch, [Byte.x2a])
  /\ read_one_block Examples.one_patch
       (raw_header 0 0 (size (@nil byte)) ++ [] ++ le_split 8 (size (@nil byte)) ++ [Byte.x2a])
     = Some (Examples.one_patch, [Byte.x2a])
  /\ read_one_block Examples.one_patch
       (raw_header (tagValue (text "COMMENT")) 5 (size (text "hello"))
        ++ text "hello" ++ le_split 8 (size (text "hello")) ++ [Byte.x2a])
     = Some (Examples.one_patch, [Byte.x2a]).
Proof.
  split; [|split].
  - apply (read_one_block_skips_unknown Examples.one_patch EDGES_zero_padded 5
             (text "hello") [Byte.x2a]).
    + vm_compute. split; [discriminate|reflexivity].
    + reflexivity.
    + unfold is_u64. lia.
    + reflexivity.
  - apply (read_one_block_skips_unknown Examples.one_patch 0 0 [] [Byte.x2a]).
    + unfold is_u64. lia.
    + reflexivity.
    + unfold is_u64. lia.
    + reflexivity.
  - apply (read_one_block_skips_unknown Examples.one_patch (tagValue (text "COMMENT")) 5
             (text "hello") [Byte.x2a]).
    + vm_compute. split; [discriminate|reflexivity].
    + reflexivity.
    + unfold is_u64. lia.
    + reflexivity.
Defined.

(** ** Files of more than one surface *)

Lemma blocks_read_first (g g' : IGAData) (src : list byte) :
  blocks_read g src g' [] -> src <> [] ->
  exists g1 src1, read_one_block g src = Some (g1, src1) /\ blocks_read g1 src1 g' [].
Proof.
  intros H Hne. inversion H; subst; [congruence|]. eauto.
Qed.

(** The blocks of a written model are read back from any geometry: the
    [SRFTYPE] block, which comes first, clears it. *)
Lemma blocks_read_written_from (g g0 : IGAData) :
  in_range_model g -> under_ceiling g ->
  blocks_read g0
    (block_bytes (text "SRFTYPE") (vector_bytes Wire_char (mSrfType g)) 0
     ++ block_bytes (text "VECDICT") (vector_bytes Wire_double (mCoeffs g)) 0
     ++ block_bytes (text "PT3DW") (vector_bytes Wire_Point3d (mPoints g)) 0
     ++ block_bytes (text "2DPIECE") (vector_bytes Wire_Piece2D (mPieces g)) 0
     ++ block_bytes (text "LAYOUT") (vector_bytes Wire_FaceLayout (mLayouts g)) 0
     ++ block_bytes (text "EDGES") (vector_bytes Wire_uint32_t (mEdges g)) 0
     ++ (if 0 <? size (mIntervals g)
         then block_bytes (text "KNOTINT") (vector_bytes Wire_double (mIntervals g)) 0
         else [])
     ++ block_bytes (text "SHAPE") (vector_bytes Wire_Elem (mElems g)) 0)
    g [].
Proof.
  intros Hr Hu.
  destruct (blocks_read_first _ _ _ (blocks_read_written g g0 Hr Hu))
    as [g1 [src1 [Hfirst Hrest]]].
  { unfold block_bytes at 1, header_bytes, BLOCK_text. cbn [app]. discriminate. }
  eapply blocks_read_more; [|exact Hrest].
  destruct Hu as [Us _].
  rewrite read_SRFTYPE in Hfirst |- * by (try apply Forall_in_range_char; exact Us).
  exact Hfirst.
Qed.

Lemma written_blocks (g : IGAData) :
  in_range_model g -> under_ceiling g ->
  exists blocks,
    written g = Some (text "#TSS0001" ++ block_bytes (text "IGAFILE") [] 0 ++ blocks)
    /\ forall g0, blocks_read g0 blocks g [].
Proof.
  intros Hr Hu. eexists. split; [apply written_bytes|].
  intros g0. apply blocks_read_written_from; assumption.
Qed.

Lemma skipn_prologue (blocks : list byte) :
  skipn (Z.to_nat prologue_size)
    (text "#TSS0001" ++ block_bytes (text "IGAFILE") [] 0 ++ blocks) = blocks.
Proof. reflexivity. Qed.

(** X18.  For two models that hold values of their members' types in
    blocks shorter than [IGA_MAX_ALLOC] bytes each, the file of the first
    continued by the blocks of the second (what [writeIGAFile] sends after
    the magic and the [IGAFILE] block) is accepted, and what is read is the
    second model alone: its [SRFTYPE] block clears everything read before
    it. *)
Theorem readIGAFile_keeps_the_last_surface
  (g1 g2 geometry0 : IGAData) (bytes1 bytes2 : list byte) :
  in_range_model g1 -> under_ceiling g1 ->
  in_range_model g2 -> under_ceiling g2 ->
  written g1 = Some bytes1 ->
  written g2 = Some bytes2 ->
  readIGAFile geometry0 (bytes1 ++ skipn (Z.to_nat prologue_size) bytes2) = Some g2.
Proof.
  intros Hr1 Hu1 Hr2 Hu2 Hw1 Hw2.
  destruct (written_blocks g1 Hr1 Hu1) as [blocks1 [E1 Hb1]].
  destruct (written_blocks g2 Hr2 Hu2) as [blocks2 [E2 Hb2]].
  assert (Hb : forall a b : list byte, Some a = Some b -> b = a) by (intros; congruence).
  rewrite E1 in Hw1. apply Hb in Hw1. subst bytes1.
  rewrite E2 in Hw2. apply Hb in Hw2. subst bytes2. clear Hb.
  rewrite skipn_prologue. rewrite <- !app_assoc.
  unfold readIGAFile. rewrite read_prologue_written.
  apply (read_blocks_enough _ _ _ []).
  - apply (blocks_read_trans _ g1 _ _ blocks2).
    + exact (blocks_read_frame _ _ _ _ blocks2 (Hb1 _)).
    + apply Hb2.
  - reflexivity.
  - lia.
Qed.

Ltac in_range_example :=
  cbn [mCoeffs mPoints mPieces mEdges mIntervals mLayouts mElems];
  repeat split;
  repeat (first [apply Forall_nil | apply Forall_cons]);
  cbn; unfold is_u64, is_u32, INVALID_INDEX, Double.one; lia.

Lemma one_patch_in_range : in_range_model Examples.one_patch.
Proof. unfold in_range_model, Examples.one_patch. in_range_example. Qed.

Lemma three_edged_in_range : in_range_model Examples.three_edged.
Proof. unfold in_range_model, Examples.three_edged. in_range_example. Qed.

Lemma readIGAFile_keeps_the_last_surface_witness :
  exists bytes1 bytes2,
    written Examples.three_edged = Some bytes1
    /\ written Examples.one_patch = Some bytes2
    /\ readIGAFile IGAData_default (bytes1 ++ skipn (Z.to_nat prologue_size) bytes2)
       = Some Examples.one_patch.
Proof.
  eexists. eexists. split; [reflexivity|]. split; [reflexivity|].
  apply (readIGAFile_keeps_the_last_surface Examples.three_edged Examples.one_patch).
  - apply three_edged_in_range.
  - unfold under_ceiling. repeat split; reflexivity.
  - apply one_patch_in_range.
  - unfold under_ceiling. repeat split; reflexivity.
  - reflexivity.
  - reflexivity.
Defined.

(** ** What the reader accepts as a file *)

Lemma c_str_length (s : list byte) : (length (c_str s) <= length s)%nat.
Proof.
  induction s as [|ch s IH]; cbn [c_str length]; [lia|].
  destruct (Byte.eqb ch nul); cbn [length]; lia.
Qed.

(** [strcmp( buf, "#TSS0001" ) == 0] for the 8 bytes read, which the
    ninth, a zero, ends. *)
Lemma strcmp_magic (buf : list byte) :
  length buf = 8%nat -> strcmp_eq buf (text "#TSS0001") = true -> buf = text "#TSS0001".
Proof.
  intros Hlen. unfold strcmp_eq, bytes_eqb.
  destruct (list_eq_dec Byte.byte_eq_dec (c_str buf) (c_str (text "#TSS0001")))
    as [E|]; [|discriminate].
  intros _. change (c_str (text "#TSS0001")) with (text "#TSS0001") in E.
  destruct (c_str_split buf) as [Hfull | [junk Hjunk]]; [congruence|].
  exfalso. rewrite Hjunk, E, length_app in Hlen. cbn [length text] in Hlen.
  vm_compute in Hlen. lia.
Qed.

(** The two 8-byte markers whose tag value is that of ["\nBLOCK:\n"]. *)
Lemma marker_forms (marker : list byte) :
  length marker = 8%nat ->
  tagValue marker = tagValue BLOCK_text ->
  marker = BLOCK_text \/ marker = BLOCK_nul.
Proof.
  intros Hlen Htag.
  apply (f_equal (le_split 8)) in Htag. rewrite !tagValue_bytes in Htag.
  change (tagBytes BLOCK_text) with BLOCK_text in Htag.
  rewrite tagBytes_cases in Htag.
  destruct (c_str_split marker) as [Hfull | [junk Hjunk]].
  - left. rewrite <- Hfull in Htag. rewrite Hlen in Htag.
    change (8 <? 8)%nat with false in Htag. cbv iota in Htag.
    rewrite firstn_all2 in Htag by lia. exact Htag.
  - right. rewrite Hjunk. rewrite Hjunk, length_app in Hlen. cbn [length] in Hlen.
    remember (c_str marker) as cs eqn:Ecs. clear Ecs Hjunk.
    unfold BLOCK_text, BLOCK_nul in *.
    destruct cs as [|c0 [|c1 [|c2 [|c3 [|c4 [|c5 [|c6 [|c7 cs]]]]]]]];
      cbn in Htag, Hlen; try discriminate Htag; try lia.
    injection Htag as -> -> -> -> -> -> ->.
    destruct junk; [reflexivity|cbn in Hlen; lia].
Qed.

Lemma readBlock_under_ceiling {T} (W : Wire T) (dst vec : list T) (len : Z)
  (src src' : list byte) :
  readBlock W dst len src = Some (vec, src') -> len < IGA_MAX_ALLOC.
Proof.
  intros H. destruct (Z.lt_ge_cases len IGA_MAX_ALLOC) as [|Hge]; [assumption|].
  rewrite (readBlock_over_ceiling W dst len src Hge) in H. discriminate.
Qed.

Lemma readData_split (n : Z) (src a b : list byte) :
  0 <= n -> readData n src = Some (a, b) -> src = a ++ b /\ length a = Z.to_nat n.
Proof.
  intros Hn H. apply readData_some in H. destruct H as [Hle [-> ->]].
  split; [symmetry; apply firstn_skipn|].
  rewrite length_firstn. unfold size in Hle. lia.
Qed.

Lemma member_bytes (off : nat) (bytes : list byte) :
  (off + 8 <= length bytes)%nat ->
  firstn 8 (skipn off bytes) = le_split 8 (member off 8 bytes).
Proof.
  intros H. unfold member.
  replace 8%nat with (length (firstn 8 (skipn off bytes))) at 2
    by (rewrite length_firstn, length_skipn; lia).
  symmetry. apply split_le_combine.
Qed.

Lemma header_split (bytes : list byte) :
  length bytes = 32%nat ->
  bytes = firstn 8 bytes ++ le_split 8 (member 8 8 bytes)
          ++ le_split 8 (member 16 8 bytes) ++ le_split 8 (member 24 8 bytes).
Proof.
  intros H.
  rewrite <- !member_bytes by lia.
  rewrite <- (firstn_skipn 8 bytes) at 1. f_equal.
  rewrite <- (firstn_skipn 8 (skipn 8 bytes)) at 1. f_equal.
  rewrite skipn_skipn. change (8 + 8)%nat with 16%nat.
  rewrite <- (firstn_skipn 8 (skipn 16 bytes)) at 1. f_equal.
  rewrite skipn_skipn. change (8 + 16)%nat with 24%nat.
  symmetry. apply firstn_all2. rewrite length_skipn. lia.
Qed.

(** X19.  Whatever [readIGAFile] accepts starts with the eight characters
    [#TSS0001], then a block marker, which is ["\nBLOCK:\n"] or the same
    with a zero byte in place of the last line feed, then the eight bytes
    of the tag [IGAFILE], an id, which is free, and a length below
    [IGA_MAX_ALLOC]. *)
Theorem readIGAFile_accepts_only_iga_files (geometry g' : IGAData) (src : list byte) :
  readIGAFile geometry src = Some g' ->
  exists marker id len rest,
    src = text "#TSS0001" ++ marker ++ le_split 8 (tagValue (text "IGAFILE"))
          ++ le_split 8 id ++ le_split 8 len ++ rest
    /\ (marker = BLOCK_text \/ marker = BLOCK_nul)
    /\ 0 <= len < IGA_MAX_ALLOC.
Proof.
  unfold readIGAFile.
  destruct (read_prologue src) as [src'|] eqn:E; [|discriminate].
  intros _. unfold read_prologue in E.
  destruct (readData 8 src) as [[buf src1]|] eqn:E1; [|discriminate].
  destruct (readData_split 8 _ _ _ ltac:(lia) E1) as [-> Hbuf].
  destruct (strcmp_eq buf (text "#TSS0001")) eqn:Emagic; [|discriminate].
  cbn [negb] in E.
  rewrite (strcmp_magic buf Hbuf Emagic).
  destruct (readData sizeof_BlockHeader src1) as [[bytes src2]|] eqn:E2; [|discriminate].
  destruct (readData_split sizeof_BlockHeader _ _ _ ltac:(unfold sizeof_BlockHeader; lia) E2)
    as [-> Hbytes].
  change (Z.to_nat sizeof_BlockHeader) with 32%nat in Hbytes.
  cbn [block_tag tag block_len BlockHeader_of_bytes] in E.
  destruct (Z.eqb_spec (tagValue (firstn 8 bytes)) (tagValue BLOCK_text)) as [Hmarker|];
    [|discriminate].
  destruct (Z.eqb_spec (member 8 8 bytes) (tagValue (text "IGAFILE"))) as [Htag|];
    [|discriminate].
  cbn [negb] in E.
  destruct (readBlock Wire_char [] (member 24 8 bytes) src2) as [[vec src3]|] eqn:E3;
    [|discriminate].
  exists (firstn 8 bytes), (member 16 8 bytes), (member 24 8 bytes), src2.
  split; [|split].
  - rewrite (header_split bytes Hbytes) at 1. rewrite Htag, <- !app_assoc. reflexivity.
  - apply marker_forms; [rewrite length_firstn; lia|exact Hmarker].
  - split; [|exact (readBlock_under_ceiling _ _ _ _ _ _ E3)].
    unfold member. pose proof (le_combine_bound (firstn 8 (skipn 24 bytes))). lia.
Qed.

Lemma readIGAFile_accepts_only_iga_files_witness :
  exists marker id len rest,
    Examples.truncated_file
    = text "#TSS0001" ++ marker ++ le_split 8 (tagValue (text "IGAFILE"))
      ++ le_split 8 id ++ le_split 8 len ++ rest
    /\ (marker = BLOCK_text \/ marker = BLOCK_nul)
    /\ 0 <= len < IGA_MAX_ALLOC.
Proof.
  apply (readIGAFile_accepts_only_iga_files IGAData_default
           (set_mEdges IGAData_default [INVALID_INDEX; 0]) Examples.truncated_file).
  vm_compute. reflexivity.
Defined.

(** X20.  A block whose marker ends in a zero byte instead of the last
    line feed is read as the block with the regular marker: the comparison
    is made on tag values, and [tagValue] writes a line feed over the
    eighth character of a text of seven. *)
Theorem read_one_block_accepts_nul_marker (g : IGAData) (following : list byte) :
  read_one_block g (BLOCK_nul ++ following) = read_one_block g (BLOCK_text ++ following).
Proof.
  unfold read_one_block, readData.
  replace (size (BLOCK_nul ++ following)) with (size (BLOCK_text ++ following))
    by (rewrite !size_app; reflexivity).
  destruct (sizeof_BlockHeader <=? size (BLOCK_text ++ following)); [|reflexivity].
  change (Z.to_nat sizeof_BlockHeader) with 32%nat.
  unfold BLOCK_nul, BLOCK_text. cbn [text list_byte_of_string app firstn skipn].
  unfold read_body, BlockHeader_of_bytes, member.
  cbn [block_tag tag block_len firstn skipn].
  match goal with
  | |- context [tagValue ?m =? tagValue ?b] =>
      match m with
      | context [nul] =>
          change (tagValue m =? tagValue b) with true
      end
  end.
  match goal with
  | |- context [tagValue ?m =? tagValue ?b] =>
      change (tagValue m =? tagValue b) with true
  end.
  reflexivity.
Qed.

(** ** What the reader returns *)

Lemma member_bound (off len : nat) (bytes : list byte) :
  0 <= member off len bytes < 2 ^ (8 * Z.of_nat len).
Proof.
  unfold member.
  pose proof (le_combine_bound (firstn len (skipn off bytes))) as H.
  assert (Hl : (length (firstn len (skipn off bytes)) <= len)%nat)
    by (rewrite length_firstn; lia).
  split; [lia|].
  apply Z.lt_le_trans with (2 ^ (8 * Z.of_nat (length (firstn len (skipn off bytes)))));
    [lia|].
  apply Z.pow_le_mono_r; lia.
Qed.

Lemma member_u32 (off : nat) (bytes : list byte) : is_u32 (member off 4 bytes).
Proof. exact (member_bound off 4 bytes). Qed.

Lemma member_u64 (off : nat) (bytes : list byte) : is_u64 (member off 8 bytes).
Proof. exact (member_bound off 8 bytes). Qed.

Lemma vector_of_bytes_in_range {T} (W : Wire T) :
  (forall bytes, in_range W (of_bytes W bytes)) ->
  forall n bytes, Forall (in_range W) (vector_of_bytes W n bytes).
Proof.
  intros HW. induction n as [|n IH]; intros bytes; cbn [vector_of_bytes];
    constructor; [apply HW|apply IH].
Qed.

Ltac members_in_range :=
  intros bytes; cbn; repeat split; first [apply member_u32 | apply member_u64].

Lemma of_bytes_double : forall bytes, in_range Wire_double (of_bytes Wire_double bytes).
Proof. intros bytes. apply member_u64. Qed.

Lemma of_bytes_uint32_t : forall bytes, in_range Wire_uint32_t (of_bytes Wire_uint32_t bytes).
Proof. intros bytes. apply member_u32. Qed.

Lemma of_bytes_Point3d : forall bytes, in_range Wire_Point3d (of_bytes Wire_Point3d bytes).
Proof. members_in_range. Qed.

Lemma of_bytes_Piece2D : forall bytes, in_range Wire_Piece2D (of_bytes Wire_Piece2D bytes).
Proof. members_in_range. Qed.

Lemma of_bytes_FaceLayout :
  forall bytes, in_range Wire_FaceLayout (of_bytes Wire_FaceLayout bytes).
Proof. members_in_range. Qed.

Lemma of_bytes_Elem : forall bytes, in_range Wire_Elem (of_bytes Wire_Elem bytes).
Proof. members_in_range. Qed.

(** The vector [readBlock] leaves is the one it was given, or a new one of
    values of the type, shorter than [IGA_MAX_ALLOC] bytes. *)
Lemma readBlock_vector {T} (W : Wire T) (dst vec : list T) (len : Z)
  (src src' : list byte) :
  0 < sizeof W -> 0 <= len ->
  (forall bytes, in_range W (of_bytes W bytes)) ->
  readBlock W dst len src = Some (vec, src') ->
  vec = dst \/ (Forall (in_range W) vec /\ sizeof W * size vec < IGA_MAX_ALLOC).
Proof.
  intros Hsize Hlen HW. unfold readBlock.
  destruct (negb (len mod sizeof W =? 0)); [discriminate|].
  destruct (negb (len =? 0)).
  - destruct (Z.leb_spec IGA_MAX_ALLOC len) as [|Hceil]; [discriminate|].
    destruct (readData len src) as [[bytes src1]|]; [|discriminate].
    destruct (readData 8 src1) as [[final_len src2]|]; [|discriminate].
    destruct (negb (le_combine final_len =? len)); [discriminate|].
    intros [= <- _]. right. split; [apply vector_of_bytes_in_range; exact HW|].
    unfold size. rewrite vector_of_bytes_length.
    rewrite Z2Nat.id by (apply Z.div_pos; lia).
    pose proof (Z.mul_div_le len (sizeof W) Hsize). lia.
  - destruct (readData 8 src) as [[final_len src2]|]; [|discriminate].
    destruct (negb (le_combine final_len =? len)); [discriminate|].
    intros [= <- _]. left. reflexivity.
Qed.

Lemma default_in_range : in_range_model IGAData_default /\ under_ceiling IGAData_default.
Proof.
  split.
  - unfold in_range_model. cbn. repeat split; constructor.
  - unfold under_ceiling. repeat split; reflexivity.
Qed.

Lemma read_body_in_range (g g' : IGAData) (h : BlockHeader) (src src' : list byte) :
  0 <= block_len h ->
  read_body g h src = Some (g', src') ->
  in_range_model g /\ under_ceiling g ->
  in_range_model g' /\ under_ceiling g'.
Proof.
  intros Hlen H [Hr Hu]. unfold read_body in H.
  destruct (negb (tagValue (block_tag h) =? tagValue BLOCK_text)); [discriminate|].
  repeat match type of H with
         | (if ?b then _ else _) = _ => destruct b
         end;
    unfold set_field in H;
    match type of H with
    | context [readBlock ?W ?d ?l ?s] =>
        destruct (readBlock W d l s) as [[vec src1]|] eqn:E; [|discriminate];
        injection H as <- _;
        apply (readBlock_vector W) in E;
          [|reflexivity|exact Hlen
           |first [exact of_bytes_double | exact of_bytes_uint32_t | exact of_bytes_Point3d
                  | exact of_bytes_Piece2D | exact of_bytes_FaceLayout | exact of_bytes_Elem
                  | intros; exact I]]
    end.
  (* SRFTYPE: everything else is cleared *)
  1: { destruct default_in_range as [Dr Du].
       split; [exact Dr|].
       unfold under_ceiling, clear in *.
       cbn [set_mSrfType mSrfType mCoeffs mPoints mPieces mEdges mIntervals mLayouts mElems
            IGAData_default] in *.
       destruct E as [-> | [_ E]]; repeat split; try reflexivity; exact E. }
  (* a block that is skipped *)
  8: { split; assumption. }
  (* the seven vectors *)
  all: destruct E as [-> | [Ev Es]];
    [destruct g; split; assumption|];
    unfold in_range_model, under_ceiling in *;
    destruct g;
    cbn [set_mCoeffs set_mPoints set_mPieces set_mEdges set_mIntervals
         set_mLayouts set_mElems
         mSrfType mCoeffs mPoints mPieces mEdges mIntervals mLayouts mElems] in *;
    intuition idtac.
Qed.

Lemma read_blocks_in_range (fuel : nat) : forall g g' src,
  read_blocks fuel g src = Some g' ->
  in_range_model g /\ under_ceiling g ->
  in_range_model g' /\ under_ceiling g'.
Proof.
  induction fuel as [|fuel IH]; intros g g' src H Hg; cbn [read_blocks] in H;
    [discriminate|].
  destruct (readData sizeof_BlockHeader src) as [[bytes src1]|];
    [|injection H as <-; exact Hg].
  destruct (read_body g (BlockHeader_of_bytes bytes) src1) as [[g1 src2]|] eqn:E;
    [|discriminate].
  apply (IH g1 g' src2 H).
  apply (read_body_in_range g g1 (BlockHeader_of_bytes bytes) src1 src2);
    [|exact E|exact Hg].
  cbn [block_len BlockHeader_of_bytes]. apply member_u64.
Qed.

(** X21.  Whatever [readIGAFile] returns holds values of the members' types
    in blocks shorter than [IGA_MAX_ALLOC] bytes; so it is written, and
    reading what was written returns it again, whatever blocks of unknown
    types, ids or repeated surfaces the first file had. *)
Theorem readIGAFile_result_is_read_back (geometry g : IGAData) (src : list byte) :
  readIGAFile geometry src = Some g ->
  in_range_model g /\ under_ceiling g
  /\ exists bytes,
       written g = Some bytes
       /\ forall geometry1, readIGAFile geometry1 bytes = Some g.
Proof.
  unfold readIGAFile at 1.
  destruct (read_prologue src) as [src'|]; [|discriminate].
  intros H.
  destruct (read_blocks_in_range _ _ _ _ H default_in_range) as [Hr Hu].
  split; [exact Hr|]. split; [exact Hu|].
  exists (match written g with Some bytes => bytes | None => [] end).
  destruct (readIGAFile_written g geometry Hr Hu) as [bytes [Hw _]].
  rewrite Hw. split; [reflexivity|].
  intros geometry1.
  destruct (readIGAFile_written g geometry1 Hr Hu) as [bytes1 [Hw1 Hread]].
  congruence.
Qed.

Lemma readIGAFile_result_is_read_back_witness :
  let g := set_mEdges IGAData_default [INVALID_INDEX; 0] in
  in_range_model g /\ under_ceiling g
  /\ exists bytes,
       written g = Some bytes
       /\ forall geometry1, readIGAFile geometry1 bytes = Some g.
Proof.
  apply (readIGAFile_result_is_read_back IGAData_default
           (set_mEdges IGAData_default [INVALID_INDEX; 0]) Examples.truncated_file).
  vm_compute. reflexivity.
Defined.

(** ** The size of a written file *)

Lemma block_bytes_size (block_type contents : list byte) (id : Z) :
  size (block_bytes block_type contents id) = 40 + size contents.
Proof.
  unfold block_bytes. rewrite !size_app, header_bytes_size, size_le_split.
  unfold sizeof_BlockHeader. lia.
Qed.

(** X22.  Writing into memory always succeeds, and the file has 8 bytes of
    magic, 40 bytes for each of its blocks beside their contents (eight
    blocks, nine when there are knot intervals), and the contents: one byte
    for each character of the surface type, 8 for each coefficient, 32 for
    each point, 16 for each piece, 20 for each layout, 4 for each edge, 8
    for each knot interval and 12 for each element. *)
Theorem written_size (g : IGAData) :
  exists bytes,
    written g = Some bytes
    /\ size bytes
       = 8 + 40 * (if 0 <? size (mIntervals g) then 9 else 8)
         + size (mSrfType g) + 8 * size (mCoeffs g) + 32 * size (mPoints g)
         + 16 * size (mPieces g) + 20 * size (mLayouts g) + 4 * size (mEdges g)
         + 8 * size (mIntervals g) + 12 * size (mElems g).
Proof.
  eexists. split; [apply written_bytes|].
  rewrite !size_app, !block_bytes_size.
  rewrite (vector_bytes_size Wire_char Wire_char_ok),
    (vector_bytes_size Wire_double Wire_double_ok),
    (vector_bytes_size Wire_Point3d Wire_Point3d_ok),
    (vector_bytes_size Wire_Piece2D Wire_Piece2D_ok),
    (vector_bytes_size Wire_FaceLayout Wire_FaceLayout_ok),
    (vector_bytes_size Wire_uint32_t Wire_uint32_t_ok),
    (vector_bytes_size Wire_Elem Wire_Elem_ok).
  change (size (text "#TSS0001")) with 8. change (size (@nil byte)) with 0.
  cbn [sizeof Wire_char Wire_double Wire_Point3d Wire_Piece2D Wire_FaceLayout
       Wire_uint32_t Wire_Elem].
  unfold sizeof_char, sizeof_double, sizeof_Point3d, sizeof_Piece2D, sizeof_FaceLayout,
    sizeof_uint32_t, sizeof_Elem.
  destruct (0 <? size (mIntervals g)) eqn:Ei.
  - rewrite block_bytes_size, (vector_bytes_size Wire_double Wire_double_ok).
    cbn [sizeof Wire_double]. unfold sizeof_double. lia.
  - apply Z.ltb_ge in Ei. pose proof (size_nonneg (mIntervals g)).
    change (size (@nil byte)) with 0. lia.
Qed.

(** ** The layouts the builder stores *)

Lemma getLayoutIndex_found_again (layout : FaceLayout) (c : IGACreator) :
  fst (getLayoutIndex layout c) <> INVALID_INDEX ->
  map_find FaceLayout_lt layout (mLayoutLookup (snd (getLayoutIndex layout c)))
  = Some (fst (getLayoutIndex layout c)).
Proof.
  intros Hok. pose proof (getLayoutIndex_again layout c Hok) as Hagain.
  destruct (getLayoutIndex layout c) as [i c1] eqn:E. cbn [fst snd] in *.
  unfold getLayoutIndex in Hagain.
  destruct (map_find FaceLayout_lt layout (mLayoutLookup c1)) as [second|];
    [congruence|].
  exfalso.
  match type of Hagain with
  | context [addLayout layout ?c0] =>
      destruct (addLayout_cases layout c0) as [Ea | [Hlt Ea]]; rewrite Ea in Hagain
  end.
  - rewrite Z.eqb_refl in Hagain. congruence.
  - match type of Hagain with
    | context [?n =? INVALID_INDEX] =>
        replace (n =? INVALID_INDEX) with false in Hagain
          by (symmetry; apply Z.eqb_neq; lia)
    end.
    apply (f_equal (fun r => length (mLayouts (mParent (snd r))))) in Hagain.
    cbn [snd mParent set_mParent set_mLayoutLookup mLayouts set_mLayouts] in Hagain.
    rewrite length_app in Hagain. cbn [length] in Hagain.
    destruct ((size (mLayouts (mParent c1)) =? 0)
              && (FaceLayout_lt layout default_layout || FaceLayout_lt default_layout layout));
      cbn [mParent set_mParent set_mLayoutLookup mLayouts set_mLayouts] in Hagain;
      rewrite ?length_app in Hagain; cbn [length] in Hagain; lia.
Qed.

(** X23.  On a builder obtained from a new one by any calls, the index a
    successful [getLayoutIndex] returns is the index at which that layout
    is stored; when none of the calls was a direct [addLayout], the
    accessor [layout], which answers the default layout for index 0
    whatever is stored there, gives that layout back as well. *)
Theorem getLayoutIndex_resolves
  (parent : IGAData) (calls : list Call) (c : IGACreator) (lay : FaceLayout) :
  run calls (IGACreator_new parent) = Returns c ->
  fst (getLayoutIndex lay c) <> INVALID_INDEX ->
  at_index (mLayouts (mParent (snd (getLayoutIndex lay c)))) (fst (getLayoutIndex lay c))
  = Some lay
  /\ (forallb not_addLayout calls = true ->
      layout (mParent (snd (getLayoutIndex lay c))) (fst (getLayoutIndex lay c))
      = Some lay).
Proof.
  intros Hrun Hok.
  pose proof (run_lookup_sound calls _ _ Hrun (lookup_sound_new parent)) as Hs.
  pose proof (getLayoutIndex_lookup_sound lay c Hs) as Hs1.
  pose proof (getLayoutIndex_found_again lay c Hok) as Hfind.
  destruct (map_find_some FaceLayout_lt lay _ _ Hfind) as [k [Heq Hin]].
  apply FaceLayout_equivalent_eq in Heq. subst k.
  pose proof (Hs1 lay _ Hin) as Hat.
  split; [exact Hat|].
  intros Hcalls.
  pose proof (run_default_first calls _ _ Hcalls Hrun (default_first_new parent)) as Hd.
  apply (getLayoutIndex_default_first lay) in Hd.
  unfold layout.
  destruct (Z.eqb_spec (fst (getLayoutIndex lay c)) 0) as [Hz|]; [|exact Hat].
  rewrite Hz in Hat. destruct Hd as [Hnil | H0].
  - rewrite Hnil, at_index_nil in Hat. discriminate.
  - change 0 with (Z.of_nat 0) in Hat. rewrite at_index_of_nat in Hat. congruence.
Qed.

Lemma getLayoutIndex_resolves_witness :
  at_index (mLayouts (mParent (snd (getLayoutIndex Examples.t_junction Examples.new_builder))))
    (fst (getLayoutIndex Examples.t_junction Examples.new_builder))
  = Some Examples.t_junction
  /\ (forallb not_addLayout [] = true ->
      layout (mParent (snd (getLayoutIndex Examples.t_junction Examples.new_builder)))
        (fst (getLayoutIndex Examples.t_junction Examples.new_builder))
      = Some Examples.t_junction).
Proof.
  apply (getLayoutIndex_resolves IGAData_default [] Examples.new_builder Examples.t_junction).
  - reflexivity.
  - discriminate.
Defined.

Section MoreMapFacts.
Context {K V : Type} (less : K -> K -> bool).

Lemma map_find_app_some (k : K) (v : V) (m m' : list (K * V)) :
  map_find less k m = Some v -> map_find less k (m ++ m') = Some v.
Proof.
  induction m as [|[k' v'] m IH]; cbn [map_find app]; [discriminate|].
  destruct (equivalent less k k'); [trivial|exact IH].
Qed.

Lemma map_find_app_none (k : K) (m m' : list (K * V)) :
  map_find less k m = None -> map_find less k (m ++ m') = map_find less k m'.
Proof.
  induction m as [|[k' v'] m IH]; cbn [map_find app]; [reflexivity|].
  destruct (equivalent less k k'); [discriminate|exact IH].
Qed.
End MoreMapFacts.

Lemma at_index_range {A} (l : list A) (i : Z) (x : A) :
  at_index l i = Some x -> 0 <= i < size l.
Proof.
  unfold at_index. destruct (Z.ltb_spec i 0); [discriminate|].
  intros Hx. assert (Hn : nth_error l (Z.to_nat i) <> None) by congruence.
  apply nth_error_Some in Hn. unfold size. lia.
Qed.

Lemma at_index_app_inv {A} (l : list A) (x y : A) (i : Z) :
  at_index (l ++ [x]) i = Some y ->
  at_index l i = Some y \/ (i = size l /\ y = x).
Proof.
  intros H. pose proof (at_index_range _ _ _ H) as Hr.
  rewrite size_app in Hr. change (size [x]) with 1 in Hr.
  destruct (Z.eq_dec i (size l)) as [->|Hne].
  - right. rewrite at_index_size in H. split; congruence.
  - left. unfold at_index in *. destruct (i <? 0); [discriminate|].
    rewrite nth_error_app1 in H by (unfold size in *; lia). exact H.
Qed.

Lemma registered_new (parent : IGAData) : registered (IGACreator_new parent).
Proof. intros i lay H. cbn in H. rewrite at_index_nil in H. discriminate. Qed.

Lemma dictionary_registered (c c' : IGACreator) :
  dictionary c' = dictionary c -> registered c -> registered c'.
Proof.
  unfold dictionary, registered. intros [= El Em] H. rewrite El, Em. exact H.
Qed.

(** After a miss: the layout is appended and entered under its index. *)
Lemma miss_registered (c0 : IGACreator) (lay : FaceLayout) :
  registered c0 ->
  map_find FaceLayout_lt lay (mLayoutLookup c0) = None ->
  registered
    (snd (let '(new_index, c1) := addLayout lay c0 in
          if new_index =? INVALID_INDEX then (INVALID_INDEX, c1)
          else (new_index,
                set_mLayoutLookup c1
                  (map_assign FaceLayout_lt lay new_index (mLayoutLookup c1))))).
Proof.
  intros Hreg Hnone.
  destruct (addLayout_cases lay c0) as [Ea | [Hlt Ea]]; rewrite Ea.
  - rewrite Z.eqb_refl. cbn [snd]. exact Hreg.
  - replace (size (mLayouts (mParent c0)) =? INVALID_INDEX) with false
      by (symmetry; apply Z.eqb_neq; lia).
    cbn [snd]. intros i l.
    cbn [mParent set_mParent set_mLayoutLookup mLayoutLookup mLayouts set_mLayouts].
    rewrite (map_assign_fresh FaceLayout_lt lay _ _ Hnone).
    intros H. apply at_index_app_inv in H. destruct H as [Hold | [-> ->]].
    + apply map_find_app_some. exact (Hreg i l Hold).
    + rewrite (map_find_app_none FaceLayout_lt lay _ _ Hnone).
      cbn [map_find]. rewrite FaceLayout_equivalent_refl. reflexivity.
Qed.

Lemma getLayoutIndex_registered (lay : FaceLayout) (c : IGACreator) :
  lookup_sound c -> registered c -> registered (snd (getLayoutIndex lay c)).
Proof.
  intros Hs Hreg. unfold getLayoutIndex.
  destruct (map_find FaceLayout_lt lay (mLayoutLookup c)) eqn:Efind; [exact Hreg|].
  destruct ((size (mLayouts (mParent c)) =? 0)
            && (FaceLayout_lt lay default_layout || FaceLayout_lt default_layout lay))
    eqn:Efirst.
  - apply andb_prop in Efirst. destruct Efirst as [Hempty Hdiff].
    assert (Hnil : mLayouts (mParent c) = []).
    { apply Z.eqb_eq in Hempty. destruct (mLayouts (mParent c)); [reflexivity|].
      unfold size in Hempty. cbn [length] in Hempty. lia. }
    assert (Hneq : equivalent FaceLayout_lt lay default_layout = false).
    { unfold equivalent.
      destruct (FaceLayout_lt lay default_layout), (FaceLayout_lt default_layout lay);
        try reflexivity; discriminate Hdiff. }
    apply miss_registered.
    + intros i l.
      cbn [mParent set_mParent set_mLayoutLookup mLayoutLookup mLayouts set_mLayouts].
      rewrite Hnil, (lookup_sound_empty c Hs Hnil). cbn [app map_assign map_find].
      intros H. apply (at_index_app_inv []) in H.
      destruct H as [H | [-> ->]]; [rewrite at_index_nil in H; discriminate|].
      rewrite FaceLayout_equivalent_refl. reflexivity.
    + cbn [mParent set_mParent set_mLayoutLookup mLayoutLookup].
      rewrite (lookup_sound_empty c Hs Hnil). cbn [map_assign map_find].
      rewrite Hneq. reflexivity.
  - apply miss_registered; assumption.
Qed.

Lemma call_registered (k : Call) (c c' : IGACreator) :
  not_addLayout k = true -> call k c = Returns c' ->
  lookup_sound c -> registered c -> registered c'.
Proof.
  intros Hk Hcall Hs Hreg. pose proof (call_dictionary k c c' Hcall) as H.
  destruct k; try (exact (dictionary_registered _ _ H Hreg)); subst c'.
  - discriminate Hk.
  - apply getLayoutIndex_registered; assumption.
Qed.

Lemma run_registered (calls : list Call) : forall c c',
  forallb not_addLayout calls = true ->
  run calls c = Returns c' ->
  lookup_sound c -> registered c -> registered c'.
Proof.
  induction calls as [|k calls IH]; intros c c' Hall Hrun Hs Hreg; cbn [run forallb] in *.
  - injection Hrun as <-. exact Hreg.
  - apply andb_prop in Hall. destruct Hall as [Hk Hall].
    destruct (call k c) as [c1|] eqn:Ek; [|discriminate].
    apply (IH c1 c' Hall Hrun).
    + exact (call_lookup_sound k c c1 Ek Hs).
    + exact (call_registered k c c1 Hk Ek Hs Hreg).
Qed.

(** X24.  On a builder obtained from a new one by calls none of which is a
    direct [addLayout], no layout is stored twice, and [getLayoutIndex] of a
    stored layout returns the index at which it is stored and changes
    nothing. *)
Theorem getLayoutIndex_stores_each_layout_once
  (parent : IGAData) (calls : list Call) (c : IGACreator) :
  run calls (IGACreator_new parent) = Returns c ->
  forallb not_addLayout calls = true ->
  NoDup (mLayouts (mParent c))
  /\ forall i lay,
       at_index (mLayouts (mParent c)) i = Some lay -> getLayoutIndex lay c = (i, c).
Proof.
  intros Hrun Hcalls.
  pose proof (run_registered calls _ _ Hcalls Hrun (lookup_sound_new parent)
                (registered_new parent)) as Hreg.
  split.
  - apply NoDup_nth_error. intros i j Hi Hij.
    destruct (nth_error (mLayouts (mParent c)) i) as [lay|] eqn:Ei;
      [|apply nth_error_None in Ei; lia].
    symmetry in Hij.
    rewrite <- at_index_of_nat in Ei, Hij.
    pose proof (Hreg _ _ Ei) as H1. pose proof (Hreg _ _ Hij) as H2.
    rewrite H1 in H2. injection H2 as H2. lia.
  - intros i lay Hat. unfold getLayoutIndex. rewrite (Hreg i lay Hat). reflexivity.
Qed.

Lemma getLayoutIndex_stores_each_layout_once_witness :
  let c := snd (getLayoutIndex Examples.t_junction
                  (snd (getLayoutIndex Examples.t_junction_left Examples.new_builder))) in
  NoDup (mLayouts (mParent c))
  /\ forall i lay,
       at_index (mLayouts (mParent c)) i = Some lay -> getLayoutIndex lay c = (i, c).
Proof.
  apply (getLayoutIndex_stores_each_layout_once IGAData_default
           [Call_getLayoutIndex Examples.t_junction_left;
            Call_getLayoutIndex Examples.t_junction]).
  - reflexivity.
  - reflexivity.
Defined.

(** ** Vectors that compare equal *)

Lemma lt_same_value (x y z : double) :
  same_value x y -> Double.lt x z = Double.lt y z /\ Double.lt z x = Double.lt z y.
Proof.
  intros [Nx [Ny Hp]]. unfold Double.lt. rewrite Nx, Ny, Hp. split; reflexivity.
Qed.

Lemma lexicographical_compare_same (a : CoeffVector) : forall b k,
  Forall2 same_value a b ->
  lexicographical_compare Double.lt a k = lexicographical_compare Double.lt b k
  /\ lexicographical_compare Double.lt k a = lexicographical_compare Double.lt k b.
Proof.
  induction a as [|x a IH]; intros b k H; inversion H as [|? y ? b' Hxy Hab]; subst.
  - split; reflexivity.
  - destruct k as [|z k]; cbn [lexicographical_compare]; [split; reflexivity|].
    destruct (lt_same_value x y z Hxy) as [-> ->].
    destruct (IH b' k Hab) as [-> ->]. split; reflexivity.
Qed.

Lemma map_find_same (v w : CoeffVector) (m : list (CoeffVector * uint32_t)) :
  Forall2 same_value v w ->
  map_find CoeffVectorLessThan w m = map_find CoeffVectorLessThan v m.
Proof.
  intros H. induction m as [|[k i] m IH]; cbn [map_find]; [reflexivity|].
  unfold equivalent, CoeffVectorLessThan.
  destruct (lexicographical_compare_same v w k H) as [-> ->].
  fold (equivalent (lexicographical_compare Double.lt) w k).
  destruct (equivalent (lexicographical_compare Double.lt) w k); [reflexivity|exact IH].
Qed.

Lemma getDictionaryIndex_found_again (coeffs : CoeffVector) (c : IGACreator) :
  fst (getDictionaryIndex coeffs c) <> INVALID_INDEX ->
  map_find CoeffVectorLessThan coeffs (mCoeffLookup (snd (getDictionaryIndex coeffs c)))
  = Some (fst (getDictionaryIndex coeffs c)).
Proof.
  unfold getDictionaryIndex.
  destruct (forallb Double.finite coeffs); [|cbn [negb fst]; congruence].
  cbn [negb].
  destruct (map_find CoeffVectorLessThan coeffs (mCoeffLookup c)) as [second|] eqn:Efind.
  - intros _. exact Efind.
  - destruct (addCoeffs_cases coeffs c) as [-> | [Hlt ->]].
    + rewrite Z.eqb_refl. cbn [fst]. congruence.
    + replace (size (mCoeffs (mParent c)) =? INVALID_INDEX) with false
        by (symmetry; apply Z.eqb_neq; lia).
      intros _. cbn [fst snd mCoeffLookup set_mCoeffLookup set_mParent].
      apply map_find_assign. apply CoeffVector_equivalent_refl.
Qed.

(** X25.  The dictionary is searched by value, not by bit pattern: once a
    vector has an index, a vector of finite values that compares equal to
    it cell by cell (it may have [-0.0] where the first has [0.0]) gets the
    same index and nothing is stored, so the run at that index keeps the
    bits of the first vector. *)
Theorem getDictionaryIndex_merges_equal_values (c : IGACreator) (v w : CoeffVector) :
  Forall2 same_value v w ->
  forallb Double.finite w = true ->
  fst (getDictionaryIndex v c) <> INVALID_INDEX ->
  getDictionaryIndex w (snd (getDictionaryIndex v c))
  = (fst (getDictionaryIndex v c), snd (getDictionaryIndex v c)).
Proof.
  intros Hsame Hfin Hok.
  pose proof (getDictionaryIndex_found_again v c Hok) as Hfind.
  unfold getDictionaryIndex at 1. rewrite Hfin. cbn [negb].
  rewrite (map_find_same v w _ Hsame), Hfind. reflexivity.
Qed.

Lemma getDictionaryIndex_merges_equal_values_witness :
  getDictionaryIndex [Double.minus_zero; Double.one]
    (snd (getDictionaryIndex [Double.zero; Double.one] Examples.new_builder))
  = (fst (getDictionaryIndex [Double.zero; Double.one] Examples.new_builder),
     snd (getDictionaryIndex [Double.zero; Double.one] Examples.new_builder)).
Proof.
  apply (getDictionaryIndex_merges_equal_values Examples.new_builder
           [Double.zero; Double.one] [Double.minus_zero; Double.one]).
  - repeat constructor.
  - reflexivity.
  - discriminate.
Defined.
